(** * neon-builder: generation and packaging pipeline

    A shallow embedding of the cost calculator ([cost-calculator.js]), the
    section catalog ([sections.js]), the content generator
    ([content-generator.js]), the ZIP packager ([zip-packager.js]), the
    build coordinator ([index.js]: [processSection], [build]), the helpers
    of [file-system.js] and the escaping of the HTML template
    ([pdf-generator.js]), followed by the properties the specification
    states about them (Part II) and further properties of the code
    (Part III).

    Conventions of the embedding.
    - Token counts are integers ([Z], exact in a double below 2^53); prices
      and costs are JavaScript numbers, modelled as exact rationals with a
      [NaN] element (rounding of doubles is not modelled).
    - JavaScript objects that are shared and mutated live in an explicit
      heap (the list of the objects, by location); an object literal or a
      spread allocates a fresh location.
    - Asynchronous code is sequential ([await] at every call), so it is
      written in a state-and-exception monad over a [World] that holds the
      heap, the file system and the trace of observable events.
    - A file-system path is the list of its components. *)

From stdpp Require Import base gmap strings list pretty.
From Stdlib Require Import Ascii String QArith Qround Qabs ZArith Lia Lqa.

Open Scope string_scope.

#[local] Set Warnings "-register-all".


(* ================================================================== *)
(** * Part I: definitions                                              *)
(* ================================================================== *)

(** ** JavaScript strings and Node's [path] helpers *)

Module Str.

(** [s.startsWith(k)] *)
Definition startsWith (s k : string) : bool := String.prefix k s.

Definition lower_ascii (c : ascii) : ascii :=
  let n := nat_of_ascii c in
  if (65 <=? n)%nat && (n <=? 90)%nat then ascii_of_nat (n + 32) else c.

(** [s.toLowerCase()], on identifiers over the ASCII range: [A]-[Z] go to
    [a]-[z], every other code unit is left as it is. *)
Fixpoint toLowerCase (s : string) : string :=
  match s with
  | EmptyString => EmptyString
  | String c s' => String (lower_ascii c) (toLowerCase s')
  end.

Fixpoint lastIndexOfDot (s : string) : option nat :=
  match s with
  | EmptyString => None
  | String c s' =>
      match lastIndexOfDot s' with
      | Some i => Some (S i)
      | None => if Ascii.eqb c "."%char then Some 0%nat else None
      end
  end.

Fixpoint drop_chars (n : nat) (s : string) : string :=
  match n, s with
  | O, _ => s
  | S n', String _ s' => drop_chars n' s'
  | S _, EmptyString => EmptyString
  end.

(** [path.extname(name)] for a directory entry name (no separator in it):
    the text from the last dot on; empty when there is no dot, when the
    only dot is the first character, and for the name [..]. *)
Definition extname (name : string) : string :=
  match lastIndexOfDot name with
  | None => ""
  | Some O => ""
  | Some i => if String.eqb name ".." then "" else drop_chars i name
  end.

(** [xs.join(sep)] *)
Fixpoint join (sep : string) (xs : list string) : string :=
  match xs with
  | [] => ""
  | [x] => x
  | x :: rest => x ++ sep ++ join sep rest
  end.

(** [String(n).padStart(2, '0')] *)
Definition padStart2 (n : nat) : string :=
  if (n <? 10)%nat then "0" ++ pretty n else pretty n.

End Str.

(** A path is the list of its components; [`${dir}/${name}`] and
    [path.join(dir, name)] both append one component. *)
Definition path := list string.

Definition path_join (dir : path) (name : string) : path := (dir ++ [name])%list.

(** ** The section catalog ([sections.js]) *)

Record Section_ := {
  id : string;
  label : string;
  defaultChunks : nat;
  description : string;
  promptTemplate : option string;
}.

Definition SECTIONS : list Section_ := [
  {| id := "core_prompts";
     label := "Core Edition Prompts";
     defaultChunks := 12;
     description := "300 strategic prompts → 12 categories × 25 prompts";
     promptTemplate := Some "Generate professional, strategic prompts for business and productivity.
Focus on actionable, results-driven content that users can immediately apply.
Include prompts for: goal setting, time management, decision making, communication, and leadership." |};
  {| id := "premium_prompts";
     label := "Premium Edition Prompts";
     defaultChunks := 14;
     description := "700 advanced prompts → 14 chunks × 50";
     promptTemplate := Some "Generate advanced, specialized prompts for power users.
Include complex multi-step workflows, advanced automation triggers, and expert-level strategies.
Cover: advanced marketing, sales optimization, content creation, and business scaling." |};
  {| id := "automation";
     label := "Automation Workflows";
     defaultChunks := 5;
     description := "75 automation workflows → 5 chunks × 15";
     promptTemplate := Some "Generate detailed automation workflow templates.
Include step-by-step instructions, trigger conditions, and integration points.
Cover: email automation, social media scheduling, CRM workflows, and reporting automation." |};
  {| id := "sales_pages";
     label := "Sales Pages (FE, OTO1, OTO2, Downsell, Lead Magnet)";
     defaultChunks := 5;
     description := "All funnel sales pages";
     promptTemplate := Some "Generate high-converting sales page copy.
Include: headlines, subheadlines, bullet points, testimonial frameworks, CTAs, and guarantee sections.
Follow proven copywriting formulas: AIDA, PAS, and story-based selling." |};
  {| id := "thank_you";
     label := "Thank You Pages";
     defaultChunks := 5;
     description := "FE, OTO1, OTO2, Downsell, Lead Magnet";
     promptTemplate := Some "Generate thank you page content that maximizes customer satisfaction and upsell potential.
Include: confirmation messages, next steps, bonus delivery instructions, and soft upsell elements." |};
  {| id := "launch_emails";
     label := "Launch Email Sequences";
     defaultChunks := 2;
     description := "Customer launch + affiliate launch";
     promptTemplate := Some "Generate email sequence templates for product launches.
Include: pre-launch teasers, launch day emails, urgency/scarcity emails, and post-launch follow-ups.
Cover both customer-facing and affiliate/JV partner communications." |};
  {| id := "affiliate_toolkit";
     label := "Affiliate Toolkit";
     defaultChunks := 4;
     description := "JV copy, banners text, email swipes, scripts";
     promptTemplate := Some "Generate affiliate marketing materials.
Include: email swipes, social media posts, banner ad copy, video scripts, and promotional angles.
Make it easy for affiliates to promote with ready-to-use content." |};
  {| id := "branding";
     label := "Branding Docs";
     defaultChunks := 2;
     description := "Color palette, typography, logo description";
     promptTemplate := Some "Generate comprehensive branding documentation.
Include: color palette specifications, typography guidelines, logo usage rules, and brand voice guidelines.
Ensure consistency across all marketing materials." |};
  {| id := "jvzoo_docs";
     label := "JVZoo Listing & Funnel Docs";
     defaultChunks := 3;
     description := "Product listings, prices, funnel wiring";
     promptTemplate := Some "Generate JVZoo marketplace listing content.
Include: product descriptions, feature lists, pricing justifications, and funnel structure documentation.
Optimize for marketplace visibility and conversion." |};
  {| id := "readmes";
     label := "README & Licensing";
     defaultChunks := 3;
     description := "README, install, license";
     promptTemplate := Some "Generate documentation files for the product package.
Include: installation instructions, quick start guide, FAQ, troubleshooting, and licensing terms.
Make it easy for customers to get started immediately." |}
].

(** [SECTIONS.find((section) => section.id === id)] *)
Definition getSectionById (i : string) : option Section_ :=
  List.find (fun s => String.eqb (id s) i) SECTIONS.

(** ** JavaScript numbers, objects and the heap *)

(** A number is an exact rational or [NaN] (what arithmetic on [undefined]
    gives). *)
Inductive num : Type :=
| Fin (q : Q)
| NaN.

Definition nadd (a b : num) : num :=
  match a, b with
  | Fin x, Fin y => Fin (x + y)
  | _, _ => NaN
  end.

Definition nmul (a b : num) : num :=
  match a, b with
  | Fin x, Fin y => Fin (x * y)
  | _, _ => NaN
  end.

(** [a < b]; a comparison with [NaN] is false. *)
Definition nlt (a b : num) : bool :=
  match a, b with
  | Fin x, Fin y => negb (Qle_bool y x)
  | _, _ => false
  end.

(** The same number: rationals up to their value, [NaN] with [NaN]. *)
Definition num_eq (a b : num) : Prop :=
  match a, b with
  | Fin x, Fin y => x == y
  | NaN, NaN => True
  | _, _ => False
  end.

Fixpoint zeros (n : nat) : string :=
  match n with
  | O => ""
  | S n' => "0" ++ zeros n'
  end.

(** [x.toFixed(digits)]: the nearest decimal with that many digits, the
    larger one on a tie (numbers below 1e21, which costs are). *)
Definition toFixed (x : num) (digits : nat) : string :=
  match x with
  | NaN => "NaN"
  | Fin q =>
      let scale := (10 ^ Z.of_nat digits)%Z in
      let n := Qfloor (Qabs q * inject_Z scale + (1 # 2)) in
      let whole := pretty (n / scale)%Z in
      let frac := pretty (n mod scale)%Z in
      let sign := if Qle_bool 0 q then "" else "-" in
      match digits with
      | O => sign ++ whole
      | _ => sign ++ whole ++ "." ++
             zeros (digits - String.length frac) ++ frac
      end
  end.

Abbreviation loc := nat (only parsing).

(** What [MODEL_PRICING[model]] and [getModelPricing] evaluate to: a
    reference to a pricing object of the module, or a member that the table
    inherits from [Object.prototype] (a built-in function or object, which
    has no [input] and no [output]). *)
Inductive pval : Type :=
| PRef (l : loc)
| PInherited (name : string).

Record Usage := {
  promptTokens : Z;
  completionTokens : Z;
  totalTokens : Z;
}.

(** A usage object as a caller passes it: any field may be missing. *)
Record UsageArg := {
  arg_promptTokens : option Z;
  arg_completionTokens : option Z;
  arg_totalTokens : option Z;
}.

(** [x || 0] on a token count *)
Definition or0 (x : option Z) : Z := default 0%Z x.

Inductive obj : Type :=
| OPricing (input output : num)
| OUsage (u : Usage)
| OBreakdown (inputCost outputCost : num)
| OSummary (model : string) (pricing : pval) (usage : loc) (cost : num)
           (formattedCost : string) (breakdown : loc)
| OTracker (model : string) (totalUsage : loc) (totalCost : num).

(** The heap: objects by location; an allocation extends it at the end. *)
Abbreviation heap := (list obj).

Definition alloc (o : obj) (h : heap) : loc * heap :=
  (List.length h, (h ++ [o])%list).

(** ** The cost calculator ([cost-calculator.js]) *)

(** The literal of [MODEL_PRICING], in source order. *)
Definition MODEL_PRICING_literal : list (string * (Q * Q)) := [
  ("gpt-4-turbo", (0.01, 0.03));
  ("gpt-4-turbo-preview", (0.01, 0.03));
  ("gpt-4-1106-preview", (0.01, 0.03));
  ("gpt-4-0125-preview", (0.01, 0.03));
  ("gpt-4", (0.03, 0.06));
  ("gpt-4-0613", (0.03, 0.06));
  ("gpt-4-32k", (0.06, 0.12));
  ("gpt-4-32k-0613", (0.06, 0.12));
  ("gpt-4o", (0.005, 0.015));
  ("gpt-4o-2024-05-13", (0.005, 0.015));
  ("gpt-4o-mini", (0.00015, 0.0006));
  ("gpt-4o-mini-2024-07-18", (0.00015, 0.0006));
  ("gpt-3.5-turbo", (0.0005, 0.0015));
  ("gpt-3.5-turbo-0125", (0.0005, 0.0015));
  ("gpt-3.5-turbo-1106", (0.001, 0.002));
  ("gpt-3.5-turbo-instruct", (0.0015, 0.002));
  ("gpt-3.5-turbo-16k", (0.003, 0.004))
]%Q.

Definition DEFAULT_PRICING_literal : Q * Q := (0.03, 0.06)%Q.

(** The table as the module holds it: each key refers to its own pricing
    object, at locations 0..16 in source order. *)
Definition MODEL_PRICING : list (string * loc) :=
  imap (fun i kv => (fst kv, i)) MODEL_PRICING_literal.

Definition DEFAULT_PRICING : loc := List.length MODEL_PRICING_literal.

(** The heap once the module is loaded. *)
Definition module_heap : heap :=
  (map (fun kv => OPricing (Fin (fst (snd kv))) (Fin (snd (snd kv))))
       MODEL_PRICING_literal
   ++ [OPricing (Fin (fst DEFAULT_PRICING_literal))
                (Fin (snd DEFAULT_PRICING_literal))])%list.

(** The properties every object literal inherits from [Object.prototype]. *)
Definition ObjectPrototypeKeys : list string := [
  "constructor"; "__defineGetter__"; "__defineSetter__"; "hasOwnProperty";
  "__lookupGetter__"; "__lookupSetter__"; "isPrototypeOf";
  "propertyIsEnumerable"; "toString"; "valueOf"; "__proto__";
  "toLocaleString"
].

(** [MODEL_PRICING[model]]: an own property, else an inherited one, else
    [undefined]. *)
Definition MODEL_PRICING_get (model : string) : option pval :=
  match List.find (fun kv => String.eqb (fst kv) model) MODEL_PRICING with
  | Some (_, l) => Some (PRef l)
  | None =>
      if existsb (String.eqb model) ObjectPrototypeKeys
      then Some (PInherited model)
      else None
  end.

Definition getModelPricing (model : string) : pval :=
  match MODEL_PRICING_get model with
  | Some pricing => pricing
  | None =>
      let modelLower := Str.toLowerCase model in
      match List.find
              (fun kv => Str.startsWith modelLower (fst kv)
                         || Str.startsWith (fst kv) modelLower)
              MODEL_PRICING with
      | Some (_, pricing) => PRef pricing
      | None => PRef DEFAULT_PRICING
      end
  end.

(** [pricing.input] and [pricing.output] *)
Definition pricing_input (h : heap) (p : pval) : num :=
  match p with
  | PRef l => match h !! l with Some (OPricing i _) => i | _ => NaN end
  | PInherited _ => NaN
  end.

Definition pricing_output (h : heap) (p : pval) : num :=
  match p with
  | PRef l => match h !! l with Some (OPricing _ o) => o | _ => NaN end
  | PInherited _ => NaN
  end.

(** [tokens / 1000] *)
Definition per1000 (tokens : Z) : num := Fin (inject_Z tokens / 1000).

Definition calculateCost (h : heap) (usage : Usage) (model : string) : num :=
  let pricing := getModelPricing model in
  let inputCost := nmul (per1000 (promptTokens usage)) (pricing_input h pricing) in
  let outputCost :=
    nmul (per1000 (completionTokens usage)) (pricing_output h pricing) in
  nadd inputCost outputCost.

Definition formatCost (cost : num) : string :=
  if nlt cost (Fin 0.01) then "$" ++ toFixed cost 4
  else "$" ++ toFixed cost 2.

(** *** The cost tracker ([createCostTracker])

    The closure of a tracker is one heap object [OTracker model totalUsage
    totalCost]: the binding [totalUsage] holds a reference to the usage
    object that [addUsage] updates in place, [totalCost] holds a number.
    The tracker is known to its callers by the location of that closure;
    a method returns [None] only when called on something that is not a
    tracker. *)

Definition createCostTracker (model : string) (h : heap) : loc * heap :=
  let '(totalUsage, h1) :=
    alloc (OUsage {| promptTokens := 0; completionTokens := 0;
                     totalTokens := 0 |}) h in
  alloc (OTracker model totalUsage (Fin 0)) h1.

Definition tracker_usage (t : loc) (h : heap) : option Usage :=
  match h !! t with
  | Some (OTracker _ totalUsage _) =>
      match h !! totalUsage with
      | Some (OUsage u) => Some u
      | _ => None
      end
  | _ => None
  end.

Definition addUsage (t : loc) (usage : UsageArg) (h : heap) : option heap :=
  match h !! t with
  | Some (OTracker model totalUsage _) =>
      match h !! totalUsage with
      | Some (OUsage u) =>
          let u' :=
            {| promptTokens := promptTokens u + or0 (arg_promptTokens usage);
               completionTokens :=
                 completionTokens u + or0 (arg_completionTokens usage);
               totalTokens := totalTokens u + or0 (arg_totalTokens usage) |} in
          let h1 := <[totalUsage := OUsage u']> h in
          Some (<[t := OTracker model totalUsage (calculateCost h1 u' model)]> h1)
      | _ => None
      end
  | _ => None
  end.

Definition getTotalCost (t : loc) (h : heap) : option num :=
  match h !! t with
  | Some (OTracker _ _ totalCost) => Some totalCost
  | _ => None
  end.

Definition getFormattedCost (t : loc) (h : heap) : option string :=
  formatCost <$> getTotalCost t h.

(** [{ ...totalUsage }] allocates a new object with the same fields. *)
Definition getTotalUsage (t : loc) (h : heap) : option (loc * heap) :=
  match tracker_usage t h with
  | Some u => Some (alloc (OUsage u) h)
  | None => None
  end.

Definition getSummary (t : loc) (h : heap) : option (loc * heap) :=
  match h !! t with
  | Some (OTracker model totalUsage totalCost) =>
      match h !! totalUsage with
      | Some (OUsage u) =>
          let pricing := getModelPricing model in
          let '(usage, h1) := alloc (OUsage u) h in
          let '(breakdown, h2) :=
            alloc (OBreakdown
                     (nmul (per1000 (promptTokens u)) (pricing_input h pricing))
                     (nmul (per1000 (completionTokens u))
                           (pricing_output h pricing))) h1 in
          Some (alloc (OSummary model pricing usage totalCost
                                (formatCost totalCost) breakdown) h2)
      | _ => None
      end
  | _ => None
  end.


(** What a caller can read from the tracker at one moment: the total cost,
    the formatted cost, the fields of the object [getTotalUsage] returns and
    the fields of the summary [getSummary] returns, each reference followed
    to the object behind it. *)
Record SummaryView := {
  sv_model : string;
  sv_pricing : pval;
  sv_pricing_input : num;
  sv_pricing_output : num;
  sv_usage : option obj;
  sv_cost : num;
  sv_formattedCost : string;
  sv_breakdown : option obj;
}.

Definition read_summary (r : option (loc * heap)) : option SummaryView :=
  match r with
  | Some (s, h) =>
      match h !! s with
      | Some (OSummary model pricing usage cost formatted breakdown) =>
          Some {| sv_model := model; sv_pricing := pricing;
                  sv_pricing_input := pricing_input h pricing;
                  sv_pricing_output := pricing_output h pricing;
                  sv_usage := h !! usage; sv_cost := cost;
                  sv_formattedCost := formatted;
                  sv_breakdown := h !! breakdown |}
      | _ => None
      end
  | None => None
  end.

Definition read_usage (r : option (loc * heap)) : option obj :=
  match r with
  | Some (u, h) => h !! u
  | None => None
  end.

Record Observation := {
  obs_totalCost : option num;
  obs_formattedCost : option string;
  obs_totalUsage : option obj;
  obs_summary : option SummaryView;
}.

Definition observe (t : loc) (h : heap) : Observation :=
  {| obs_totalCost := getTotalCost t h;
     obs_formattedCost := getFormattedCost t h;
     obs_totalUsage := read_usage (getTotalUsage t h);
     obs_summary := read_summary (getSummary t h) |}.


(** ** The world of a run: heap, file system, trace *)

(** A thrown value: an [Error] (or an object a client rejects with), by the
    two properties the code reads. *)
Record JsError := {
  err_status : option Z;
  err_message : option string;
}.

(** [new Error(msg)] *)
Definition Error_ (msg : string) : JsError :=
  {| err_status := None; err_message := Some msg |}.

(** File contents: text, a rendered PDF (by what it was rendered from), or
    the bytes of a ZIP archive (by the entries they decompress to). *)
Inductive content : Type :=
| Text (s : string)
| Pdf (title text : string)
| ZipData (entries : list (path * content)).

(** A file-system tree: a file, or a directory with its entries in
    [readdir] order. *)
Inductive node : Type :=
| File (c : content)
| Dir (entries : list (string * node)).

(** A [JSZip] instance: entries by name, in insertion order. *)
Abbreviation Zip := (list (path * content)).

(** A request to [client.chat.completions.create]. *)
Record Request := {
  req_model : string;
  req_messages : list (string * string);
  req_temperature : Q;
  req_max_tokens : nat;
}.

(** What a run does that can be observed from outside, in the order it
    does it: a request to the client, a wait, a warning on the console, a
    call of [onProgress], a tick of the progress bar, and the calls of the
    file system. *)
Inductive event : Type :=
| EvRequest (r : Request)
| EvSleep (ms : Z)
| EvWarn (msg : string)
| EvProgress (chunkIndex : nat) (text : string) (usage : Usage)
| EvProgressBar (task cost : string)
| EvEnsureDir (p : path)
| EvWriteFile (p : path) (c : content)
| EvReadDir (p : path)
| EvReadFile (p : path).

Record World := {
  w_heap : heap;
  w_fs : node;
  w_trace : list event;
}.

Inductive result (A : Type) : Type :=
| Ok (a : A)
| Throw (e : JsError).
Arguments Ok {A} a.
Arguments Throw {A} e.

(** Sequential (awaited) code: a state transformer that returns or throws. *)
Definition M (A : Type) : Type := World -> result A * World.

Definition ret {A} (a : A) : M A := fun w => (Ok a, w).

Definition throw {A} (e : JsError) : M A := fun w => (Throw e, w).

Definition bind {A B} (m : M A) (k : A -> M B) : M B :=
  fun w =>
    match m w with
    | (Ok a, w') => k a w'
    | (Throw e, w') => (Throw e, w')
    end.

(** [try { m } catch (error) { handler(error) }] *)
Definition try_catch {A} (m : M A) (handler : JsError -> M A) : M A :=
  fun w =>
    match m w with
    | (Ok a, w') => (Ok a, w')
    | (Throw e, w') => handler e w'
    end.

Declare Scope js_scope.
Delimit Scope js_scope with js.
Notation "x <- c ;; k" := (bind c (fun x => k))
  (at level 100, c at next level, right associativity) : js_scope.
Notation "c ;;; k" := (bind c (fun _ => k))
  (at level 100, right associativity) : js_scope.
Open Scope js_scope.

(** The world after one more event. *)
Definition log (e : event) (w : World) : World :=
  {| w_heap := w_heap w; w_fs := w_fs w; w_trace := (w_trace w ++ [e])%list |}.

Definition emit (e : event) : M unit := fun w => (Ok tt, log e w).

Definition get_fs : M node := fun w => (Ok (w_fs w), w).

Definition put_fs (fs : node) : M unit :=
  fun w => (Ok tt, {| w_heap := w_heap w; w_fs := fs; w_trace := w_trace w |}).

(** A heap operation of the cost tracker, run in the world. *)
Definition on_heap {A} (f : heap -> option (A * heap)) : M A :=
  fun w =>
    match f (w_heap w) with
    | Some (a, h') =>
        (Ok a, {| w_heap := h'; w_fs := w_fs w; w_trace := w_trace w |})
    | None => (Throw (Error_ "TypeError"), w)
    end.

Definition requests_of (tr : list event) : list Request :=
  omap (fun e => match e with EvRequest r => Some r | _ => None end) tr.

(** ** The file system ([fs-extra]) *)

Fixpoint assoc {A} (k : string) (l : list (string * A)) : option A :=
  match l with
  | [] => None
  | (k', v) :: l' => if String.eqb k' k then Some v else assoc k l'
  end.

(** Replace the value at [k], or add the pair at the end. *)
Fixpoint assoc_set {A} (k : string) (v : A) (l : list (string * A))
  : list (string * A) :=
  match l with
  | [] => [(k, v)]
  | (k', v') :: l' =>
      if String.eqb k' k then (k', v) :: l' else (k', v') :: assoc_set k v l'
  end.

Fixpoint lookup_node (p : path) (n : node) : option node :=
  match p with
  | [] => Some n
  | x :: p' =>
      match n with
      | Dir es =>
          match assoc x es with
          | Some child => lookup_node p' child
          | None => None
          end
      | File _ => None
      end
  end.

(** [mkdir -p]: fails when a component of the path is a file. *)
Fixpoint mkdirp (p : path) (n : node) : option node :=
  match p with
  | [] => match n with Dir _ => Some n | File _ => None end
  | x :: p' =>
      match n with
      | Dir es =>
          match mkdirp p' (default (Dir []) (assoc x es)) with
          | Some child => Some (Dir (assoc_set x child es))
          | None => None
          end
      | File _ => None
      end
  end.

(** Create or replace the file at [p]; its directory must exist and [p]
    must not be a directory. *)
Fixpoint write_node (p : path) (c : content) (n : node) : option node :=
  match p, n with
  | [x], Dir es =>
      match assoc x es with
      | Some (Dir _) => None
      | _ => Some (Dir (assoc_set x (File c) es))
      end
  | x :: p', Dir es =>
      match assoc x es with
      | Some child =>
          match write_node p' c child with
          | Some child' => Some (Dir (assoc_set x child' es))
          | None => None
          end
      | None => None
      end
  | _, _ => None
  end.

Definition dirname (p : path) : path := removelast p.

Definition basename (p : path) : string := List.last p "".

(** [fs.ensureDir(p)] *)
Definition fs_ensureDir (p : path) : M unit :=
  emit (EvEnsureDir p) ;;;
  fs <- get_fs ;;
  match mkdirp p fs with
  | Some fs' => put_fs fs'
  | None => throw (Error_ "ENOTDIR: not a directory")
  end.

(** [fs.writeFile(p, c)] *)
Definition fs_writeFile (p : path) (c : content) : M unit :=
  fs <- get_fs ;;
  match write_node p c fs with
  | Some fs' => emit (EvWriteFile p c) ;;; put_fs fs'
  | None => throw (Error_ "ENOENT: no such file or directory")
  end.

(** [fs.readFile(p)] *)
Definition fs_readFile (p : path) : M content :=
  emit (EvReadFile p) ;;;
  fs <- get_fs ;;
  match lookup_node p fs with
  | Some (File c) => ret c
  | Some (Dir _) => throw (Error_ "EISDIR: illegal operation on a directory")
  | None => throw (Error_ "ENOENT: no such file or directory")
  end.

(** [fs.pathExists(p)] *)
Definition fs_pathExists (p : path) : M bool :=
  fs <- get_fs ;; ret (bool_decide (is_Some (lookup_node p fs))).

(** The helpers of [file-system.js]. *)
Definition ensureDirectory (dirPath : path) : M unit := fs_ensureDir dirPath.

Definition writeFile (filePath : path) (c : content) : M unit :=
  fs_ensureDir (dirname filePath) ;;; fs_writeFile filePath c.

(** ** The content generator ([content-generator.js]) *)

Record Branding := {
  primaryColor : string;
  secondaryColor : string;
  accentColor : string;
  textColor : string;
  logoUrl : string;
  footerText : string;
  fontFamily : string;
}.

Definition dquote : string := String (ascii_of_nat 34) EmptyString.

Definition buildPrompt (section : Section_) (chunkIndex totalChunks : nat)
    (branding : Branding) : string :=
  let basePrompt := match promptTemplate section with
                    | Some t => if String.eqb t "" then description section else t
                    | None => description section
                    end in
  "You are generating part " ++ pretty (chunkIndex + 1)%nat ++ " of "
    ++ pretty totalChunks ++ "
for the " ++ dquote ++ label section ++ dquote
    ++ " section of a commercial digital product bundle.

SECTION ID: " ++ id section ++ "
SECTION DESCRIPTION: " ++ description section ++ "

SPECIFIC INSTRUCTIONS:
" ++ basePrompt ++ "

BRANDING CONTEXT:
- Primary color: " ++ primaryColor branding ++ "
- Secondary color: " ++ secondaryColor branding ++ "
- Brand name from footer: " ++ footerText branding ++ "

REQUIREMENTS:
1. Generate professional, polished, commercial-quality content
2. Content should be immediately usable without editing
3. No meta commentary or explanations about what you're generating
4. No placeholder text - all content must be complete
5. Maintain consistent tone and style throughout
6. This is chunk " ++ pretty (chunkIndex + 1)%nat ++ " of " ++ pretty totalChunks
    ++ ", so ensure content is unique and doesn't repeat previous chunks

OUTPUT FORMAT:
Provide the content directly, formatted appropriately for the section type.
For prompts: Use numbered lists with clear categories
For copy: Use proper headings, subheadings, and formatting
For documentation: Use markdown formatting".

(** The response of the completion endpoint, as far as the code reads it
    ([choices] is an array). *)
Record RawUsage := {
  prompt_tokens : option Z;
  completion_tokens : option Z;
  total_tokens : option Z;
}.

Record Message := { msg_content : option string }.

Record Choice := { choice_message : option Message }.

Record Completion := {
  choices : list Choice;
  completion_usage : option RawUsage;
}.

Inductive outcome : Type :=
| Resolved (c : Completion)
| Rejected (e : JsError).

(** A client (or a stub of one): what [chat.completions.create] settles
    to, given the requests made before and the request made now. *)
Definition Client : Type := list Request -> Request -> outcome.

Definition create (client : Client) (r : Request) : M Completion :=
  fun w =>
    match client (requests_of (w_trace w)) r with
    | Resolved c => (Ok c, log (EvRequest r) w)
    | Rejected e => (Throw e, log (EvRequest r) w)
    end.

(** [completion.choices[0]?.message?.content], when truthy *)
Definition generated_text (c : Completion) : option string :=
  match choices c with
  | ch :: _ =>
      match choice_message ch with
      | Some m =>
          match msg_content m with
          | Some s => if String.eqb s "" then None else Some s
          | None => None
          end
      | None => None
      end
  | [] => None
  end.

Definition extract_usage (c : Completion) : Usage :=
  {| promptTokens := or0 (completion_usage c ≫= prompt_tokens);
     completionTokens := or0 (completion_usage c ≫= completion_tokens);
     totalTokens := or0 (completion_usage c ≫= total_tokens) |}.

Record ChunkOptions := {
  co_model : string;
  co_temperature : Q;
  co_maxTokens : option nat;
  co_section : Section_;
  co_chunkIndex : nat;
  co_totalChunks : nat;
  co_branding : Branding;
  co_maxRetries : option nat;
  co_retryDelay : option Z;
}.

Record Chunk := {
  chunk_content : string;
  chunk_usage : Usage;
}.

Definition SYSTEM_PROMPT : string :=
  "You are an expert content creator specializing in digital products, marketing copy, and professional documentation. Your output is always polished, professional, and ready for commercial use.".

Definition chunk_request (o : ChunkOptions) : Request :=
  {| req_model := co_model o;
     req_messages :=
       [("system", SYSTEM_PROMPT);
        ("user", buildPrompt (co_section o) (co_chunkIndex o)
                             (co_totalChunks o) (co_branding o))];
     req_temperature := co_temperature o;
     req_max_tokens := default 4000%nat (co_maxTokens o) |}.

Definition EMPTY_RESPONSE : string := "Empty response from OpenAI API".

(** [`${x}`] of a message that may be [undefined] *)
Definition show_message (m : option string) : string := default "undefined" m.

(** [lastError?.message || 'Unknown error'] *)
Definition last_message (lastError : option JsError) : string :=
  match lastError ≫= err_message with
  | Some s => if String.eqb s "" then "Unknown error" else s
  | None => "Unknown error"
  end.

Definition exhausted (maxRetries : nat) (lastError : option JsError) : JsError :=
  Error_ ("Failed to generate content after " ++ pretty maxRetries
          ++ " attempts: " ++ last_message lastError).

Definition sleep (ms : Z) : M unit := emit (EvSleep ms).

Definition console_warn (msg : string) : M unit := emit (EvWarn msg).

(** The loop [for (attempt = 1; attempt <= maxRetries; attempt++)] of
    [generateChunk], entered at [attempt] with [remaining] iterations to go
    ([remaining = maxRetries - attempt + 1]). *)
Fixpoint attempts (client : Client) (o : ChunkOptions) (maxRetries : nat)
    (retryDelay : Z) (remaining attempt : nat) (lastError : option JsError)
  : M Chunk :=
  match remaining with
  | O => throw (exhausted maxRetries lastError)
  | S remaining' =>
      try_catch
        (completion <- create client (chunk_request o) ;;
         match generated_text completion with
         | None => throw (Error_ EMPTY_RESPONSE)
         | Some text =>
             ret {| chunk_content := text;
                    chunk_usage := extract_usage completion |}
         end)
        (fun error =>
           if bool_decide (err_status error = Some 401%Z) then
             throw (Error_ "Invalid OpenAI API key")
           else if bool_decide (err_status error = Some 429%Z) then
             let waitTime := (retryDelay * Z.of_nat attempt * 2)%Z in
             console_warn ("Rate limited. Waiting " ++ pretty waitTime
                           ++ "ms before retry " ++ pretty attempt ++ "/"
                           ++ pretty maxRetries) ;;;
             sleep waitTime ;;;
             attempts client o maxRetries retryDelay remaining' (S attempt)
                      (Some error)
           else
             (if (attempt <? maxRetries)%nat then
                console_warn ("Generation attempt " ++ pretty attempt
                              ++ " failed: " ++ show_message (err_message error)
                              ++ ". Retrying in " ++ pretty retryDelay
                              ++ "ms...") ;;;
                sleep (retryDelay * Z.of_nat attempt)%Z
              else ret tt) ;;;
             attempts client o maxRetries retryDelay remaining' (S attempt)
                      (Some error))
  end.

Definition generateChunk (client : Client) (o : ChunkOptions) : M Chunk :=
  let maxRetries := default 3%nat (co_maxRetries o) in
  let retryDelay := default 1000%Z (co_retryDelay o) in
  attempts client o maxRetries retryDelay maxRetries 1 None.

(** [onProgress]: a call is an event of the trace; the callback returns
    ([None]) or throws. *)
Definition Callback : Type := nat -> string -> Usage -> option JsError.

Definition call_onProgress (cb : Callback) (i : nat) (text : string)
    (u : Usage) : M unit :=
  emit (EvProgress i text u) ;;;
  match cb i text u with
  | None => ret tt
  | Some e => throw e
  end.

Record SectionOptions := {
  so_sectionId : string;
  so_numChunks : nat;
  so_model : string;
  so_temperature : Q;
  so_branding : Branding;
  so_onProgress : option Callback;
  so_maxRetries : option nat;
  so_retryDelay : option Z;
}.

Record SectionOutput := {
  out_chunks : list string;
  out_totalUsage : Usage;
}.

Definition usage_add (a b : Usage) : Usage :=
  {| promptTokens := promptTokens a + promptTokens b;
     completionTokens := completionTokens a + completionTokens b;
     totalTokens := totalTokens a + totalTokens b |}.

Definition usage_zero : Usage :=
  {| promptTokens := 0; completionTokens := 0; totalTokens := 0 |}.

(** The options [generateSection] passes to [generateChunk] for chunk [i]. *)
Definition section_chunk_options (o : SectionOptions) (section : Section_)
    (i : nat) : ChunkOptions :=
  {| co_model := so_model o; co_temperature := so_temperature o;
     co_maxTokens := None; co_section := section;
     co_chunkIndex := i; co_totalChunks := so_numChunks o;
     co_branding := so_branding o;
     co_maxRetries := so_maxRetries o;
     co_retryDelay := so_retryDelay o |}.

(** The loop [for (i = 0; i < numChunks; i++)] of [generateSection], entered
    at [i] with [remaining = numChunks - i] iterations to go. *)
Fixpoint section_loop (client : Client) (o : SectionOptions)
    (section : Section_) (remaining i : nat) (chunks : list string)
    (totalUsage : Usage) : M SectionOutput :=
  match remaining with
  | O => ret {| out_chunks := chunks; out_totalUsage := totalUsage |}
  | S remaining' =>
      c <- generateChunk client (section_chunk_options o section i) ;;
      let chunks' := (chunks ++ [chunk_content c])%list in
      let totalUsage' := usage_add totalUsage (chunk_usage c) in
      match so_onProgress o with
      | Some cb => call_onProgress cb i (chunk_content c) (chunk_usage c)
      | None => ret tt
      end ;;;
      section_loop client o section remaining' (S i) chunks' totalUsage'
  end.

Definition generateSection (client : Client) (o : SectionOptions)
  : M SectionOutput :=
  match getSectionById (so_sectionId o) with
  | None => throw (Error_ ("Unknown section ID: " ++ so_sectionId o))
  | Some section =>
      section_loop client o section (so_numChunks o) 0 [] usage_zero
  end.

(** ** The ZIP packager ([zip-packager.js]) *)

(** [zip.file(name, c)]: a new entry, or a new content for the entry of
    that name. *)
Fixpoint zip_file (name : path) (c : content) (zip : Zip) : Zip :=
  match zip with
  | [] => [(name, c)]
  | (n, c') :: zip' =>
      if bool_decide (n = name) then (n, c) :: zip'
      else (n, c') :: zip_file name c zip'
  end.

(** [extensions && !extensions.includes(path.extname(file).toLowerCase())] *)
Definition filtered_out (extensions : option (list string)) (file : string)
  : bool :=
  match extensions with
  | Some exts =>
      negb (existsb (String.eqb (Str.toLowerCase (Str.extname file))) exts)
  | None => false
  end.

(** [for (const x of xs) { acc = await f(x, acc) }] *)
Fixpoint for_each {A B} (f : A -> B -> M B) (xs : list A) (acc : B) : M B :=
  match xs with
  | [] => ret acc
  | x :: rest => acc' <- f x acc ;; for_each f rest acc'
  end.

(** The walk of [addDirectoryToZip] over the directory [n] found at
    [dirPath]: the entries in [readdir] order, a subdirectory entered only
    when [recursive], any other entry that is a file added unless its
    extension is filtered out. *)
Fixpoint addTree (extensions : option (list string)) (recursive : bool)
    (n : node) (dirPath zipPath : path) (zip : Zip) {struct n} : M Zip :=
  match n with
  | File _ => throw (Error_ "ENOTDIR: not a directory")
  | Dir es =>
      emit (EvReadDir dirPath) ;;;
      for_each
        (fun entry zip =>
           match entry with
           | (file, child) =>
               let filePath := path_join dirPath file in
               match child with
               | Dir _ =>
                   if recursive then
                     addTree extensions recursive child filePath
                             (path_join zipPath file) zip
                   else ret zip
               | File _ =>
                   if filtered_out extensions file then ret zip
                   else
                     c <- fs_readFile filePath ;;
                     ret (zip_file (path_join zipPath file) c zip)
               end
           end)
        es zip
  end.

Definition addDirectoryToZip (zip : Zip) (dirPath zipPath : path)
    (extensions : option (list string)) (recursive : option bool) : M Zip :=
  fs <- get_fs ;;
  match lookup_node dirPath fs with
  | Some n => addTree extensions (default true recursive) n dirPath zipPath zip
  | None => throw (Error_ "ENOENT: no such file or directory")
  end.

(** [zip.generateAsync(...)]: the bytes that decompress to the entries. *)
Definition generateZipBuffer (zip : Zip) : content := ZipData zip.

Definition writeZipToFile (zip : Zip) (outputPath : path) : M unit :=
  let buffer := generateZipBuffer zip in
  fs_ensureDir (dirname outputPath) ;;;
  fs_writeFile outputPath buffer.

Record SectionZipOptions := {
  sz_sectionId : string;
  sz_sectionDir : path;
  sz_outputDir : path;
  sz_includeSourceFiles : option bool;
  sz_includePdfs : option bool;
}.

Definition createSectionZip (o : SectionZipOptions) : M path :=
  let includeSourceFiles := default true (sz_includeSourceFiles o) in
  let includePdfs := default true (sz_includePdfs o) in
  let zip : Zip := [] in
  let extensions :=
    ((if includeSourceFiles then [".txt"] else [])
     ++ (if includePdfs then [".pdf"] else []))%list in
  zip <- addDirectoryToZip zip (sz_sectionDir o) [sz_sectionId o]
           (if (0 <? List.length extensions)%nat then Some extensions else None)
           (Some false) ;;
  let outputPath := path_join (sz_outputDir o) (sz_sectionId o ++ ".zip") in
  writeZipToFile zip outputPath ;;;
  ret outputPath.

Fixpoint add_section_zips (sectionZipPaths : list path) (zip : Zip) : M Zip :=
  match sectionZipPaths with
  | [] => ret zip
  | zipPath :: rest =>
      let filename := basename zipPath in
      c <- fs_readFile zipPath ;;
      add_section_zips rest (zip_file [filename] c zip)
  end.

(** [if (p && (await fs.pathExists(p))) zip.file(name, await fs.readFile(p))] *)
Definition add_optional (p : option path) (name : string) (zip : Zip) : M Zip :=
  match p with
  | Some p' =>
      present <- fs_pathExists p' ;;
      if present then c <- fs_readFile p' ;; ret (zip_file [name] c zip)
      else ret zip
  | None => ret zip
  end.

Definition createMasterZip (sectionZipPaths : list path) (outputPath : path)
    (readmePath licensePath : option path) : M path :=
  zip <- add_section_zips sectionZipPaths [] ;;
  zip <- add_optional readmePath "README.md" zip ;;
  zip <- add_optional licensePath "LICENSE.txt" zip ;;
  writeZipToFile zip outputPath ;;;
  ret outputPath.

(** ** The PDF generator, as the coordinator uses it

    [generateSectionPdfs] renders one PDF per content into [outputDir]; the
    rendering itself (HTML template, headless browser) is outside the
    model: the file written stands for the PDF of that title and text. *)
Fixpoint generateSectionPdfs_from (i : nat) (contents : list string)
    (outputDir : path) (sectionId sectionLabel : string) : M (list path) :=
  match contents with
  | [] => ret []
  | text :: rest =>
      let chunkNumber := (i + 1)%nat in
      let filename :=
        sectionId ++ "_chunk_" ++ Str.padStart2 chunkNumber ++ ".pdf" in
      let outputPath := path_join outputDir filename in
      fs_writeFile outputPath
        (Pdf (sectionLabel ++ " - Part " ++ pretty chunkNumber) text) ;;;
      paths <- generateSectionPdfs_from (S i) rest outputDir sectionId
                 sectionLabel ;;
      ret (outputPath :: paths)
  end.

Definition generateSectionPdfs (contents : list string) (outputDir : path)
    (sectionId sectionLabel : string) : M (list path) :=
  generateSectionPdfs_from 0 contents outputDir sectionId sectionLabel.

(** ** Configuration ([defaults.js]) *)

Record Config := {
  cfg_rootFolder : string;
  cfg_outputDir : path;
  cfg_model : string;
  cfg_temperature : Q;
  cfg_maxTokens : nat;
  cfg_maxRetries : nat;
  cfg_retryDelay : Z;
  cfg_generatePDFs : bool;
  cfg_branding : Branding;
  cfg_selectedSections : option (list string);
  cfg_chunkOverrides : option (list (string * nat));
}.

(** A branding object as the prompts hand it over: any key may be absent. *)
Record UserBranding := {
  ub_primaryColor : option string;
  ub_secondaryColor : option string;
  ub_accentColor : option string;
  ub_textColor : option string;
  ub_logoUrl : option string;
  ub_footerText : option string;
  ub_fontFamily : option string;
}.

(** What the prompts hand over: any key may be absent. *)
Record UserConfig := {
  user_rootFolder : option string;
  user_outputDir : option path;
  user_model : option string;
  user_temperature : option Q;
  user_maxTokens : option nat;
  user_maxRetries : option nat;
  user_retryDelay : option Z;
  user_generatePDFs : option bool;
  user_branding : option UserBranding;
  user_selectedSections : option (list string);
  user_chunkOverrides : option (list (string * nat));
}.

Record Env := {
  NEON_MODEL : option string;
  NEON_OUTPUT_DIR : option path;
}.

Definition DEFAULT_CONFIG : Config :=
  {| cfg_rootFolder := "NeonPromptEngine";
     cfg_outputDir := ["dist"];
     cfg_model := "gpt-4";
     cfg_temperature := 0.7;
     cfg_maxTokens := 4000;
     cfg_maxRetries := 3;
     cfg_retryDelay := 1000;
     cfg_generatePDFs := true;
     cfg_branding :=
       {| primaryColor := "#00FFC8";
          secondaryColor := "#1a1a2e";
          accentColor := "#16213e";
          textColor := "#ffffff";
          logoUrl := "https://your-domain.com/logo.png";
          footerText := "© Neon Prompt Engine";
          fontFamily := "Arial, Helvetica, sans-serif" |};
     cfg_selectedSections := None;
     cfg_chunkOverrides := None |}.

(** [{ ...DEFAULT_CONFIG.branding, ...userConfig.branding }] *)
Definition merge_branding (d : Branding) (u : UserBranding) : Branding :=
  {| primaryColor := default (primaryColor d) (ub_primaryColor u);
     secondaryColor := default (secondaryColor d) (ub_secondaryColor u);
     accentColor := default (accentColor d) (ub_accentColor u);
     textColor := default (textColor d) (ub_textColor u);
     logoUrl := default (logoUrl d) (ub_logoUrl u);
     footerText := default (footerText d) (ub_footerText u);
     fontFamily := default (fontFamily d) (ub_fontFamily u) |}.

Definition mergeConfig (u : UserConfig) : Config :=
  {| cfg_rootFolder := default (cfg_rootFolder DEFAULT_CONFIG) (user_rootFolder u);
     cfg_outputDir := default (cfg_outputDir DEFAULT_CONFIG) (user_outputDir u);
     cfg_model := default (cfg_model DEFAULT_CONFIG) (user_model u);
     cfg_temperature :=
       default (cfg_temperature DEFAULT_CONFIG) (user_temperature u);
     cfg_maxTokens := default (cfg_maxTokens DEFAULT_CONFIG) (user_maxTokens u);
     cfg_maxRetries :=
       default (cfg_maxRetries DEFAULT_CONFIG) (user_maxRetries u);
     cfg_retryDelay :=
       default (cfg_retryDelay DEFAULT_CONFIG) (user_retryDelay u);
     cfg_generatePDFs :=
       default (cfg_generatePDFs DEFAULT_CONFIG) (user_generatePDFs u);
     cfg_branding :=
       match user_branding u with
       | Some b => merge_branding (cfg_branding DEFAULT_CONFIG) b
       | None => cfg_branding DEFAULT_CONFIG
       end;
     cfg_selectedSections := user_selectedSections u;
     cfg_chunkOverrides := user_chunkOverrides u |}.

(** [x || d] on a string and on a path *)
Definition nonempty_or {A} (d : list A) (x : option (list A)) : list A :=
  match x with
  | Some (a :: l) => a :: l
  | _ => d
  end.

Definition string_or (d : string) (x : option string) : string :=
  match x with
  | Some s => if String.eqb s "" then d else s
  | None => d
  end.

(** [{ ...config, ...getEnvConfig() }]: the environment's [model] and
    [outputDir] are always defined, so they replace the user's. *)
Definition with_env (env : Env) (u : UserConfig) : UserConfig :=
  {| user_rootFolder := user_rootFolder u;
     user_outputDir :=
       Some (nonempty_or (cfg_outputDir DEFAULT_CONFIG) (NEON_OUTPUT_DIR env));
     user_model := Some (string_or (cfg_model DEFAULT_CONFIG) (NEON_MODEL env));
     user_temperature := user_temperature u;
     user_maxTokens := user_maxTokens u;
     user_maxRetries := user_maxRetries u;
     user_retryDelay := user_retryDelay u;
     user_generatePDFs := user_generatePDFs u;
     user_branding := user_branding u;
     user_selectedSections := user_selectedSections u;
     user_chunkOverrides := user_chunkOverrides u |}.

(** ** The build coordinator ([index.js]) *)

Record SectionResult := {
  sectionId : string;
  sectionLabel : string;
  numChunks : nat;
  txtPath : path;
  pdfPath : option path;
  zipPath : path;
}.

Definition SEPARATOR : string := "

---

".

(** The options [processSection] passes to [generateChunk] for chunk [i]. *)
Definition process_chunk_options (section : Section_) (total : nat)
    (config : Config) (i : nat) : ChunkOptions :=
  {| co_model := cfg_model config;
     co_temperature := cfg_temperature config;
     co_maxTokens := None; co_section := section;
     co_chunkIndex := i; co_totalChunks := total;
     co_branding := cfg_branding config;
     co_maxRetries := Some (cfg_maxRetries config);
     co_retryDelay := Some (cfg_retryDelay config) |}.

(** The chunk loop of [processSection], entered at [i] with [remaining]
    iterations to go. *)
Fixpoint chunk_loop (client : Client) (section : Section_) (total : nat)
    (config : Config) (costTracker : loc) (remaining i : nat)
    (contents : list string) : M (list string) :=
  match remaining with
  | O => ret contents
  | S remaining' =>
      c <- generateChunk client (process_chunk_options section total config i) ;;
      let contents' := (contents ++ [chunk_content c])%list in
      let u := chunk_usage c in
      on_heap (fun h =>
        pair tt <$> addUsage costTracker
                      {| arg_promptTokens := Some (promptTokens u);
                         arg_completionTokens := Some (completionTokens u);
                         arg_totalTokens := Some (totalTokens u) |} h) ;;;
      cost <- on_heap (fun h => (fun s => (s, h)) <$> getFormattedCost costTracker h) ;;
      emit (EvProgressBar
              (label section ++ " - Chunk " ++ pretty (i + 1)%nat ++ "/"
               ++ pretty total) cost) ;;;
      chunk_loop client section total config costTracker remaining' (S i)
                 contents'
  end.

Definition processSection (client : Client) (section : Section_)
    (numChunks : nat) (config : Config) (outputDir : path)
    (costTracker : loc) : M SectionResult :=
  let sectionDir := path_join outputDir (id section) in
  ensureDirectory sectionDir ;;;
  contents <- chunk_loop client section numChunks config costTracker
                numChunks 0 [] ;;
  let combinedContent := Str.join SEPARATOR contents in
  let combinedTxtPath := path_join sectionDir (id section ++ ".txt") in
  writeFile combinedTxtPath (Text combinedContent) ;;;
  pdfPath <-
    (if cfg_generatePDFs config then
       pdfPaths <- generateSectionPdfs [combinedContent] sectionDir
                     (id section) (label section) ;;
       ret (head pdfPaths)
     else ret None) ;;
  zipPath <- createSectionZip
               {| sz_sectionId := id section;
                  sz_sectionDir := sectionDir;
                  sz_outputDir := outputDir;
                  sz_includeSourceFiles := Some false;
                  sz_includePdfs := Some (cfg_generatePDFs config) |} ;;
  ret {| sectionId := id section; sectionLabel := label section;
         numChunks := numChunks; txtPath := combinedTxtPath;
         pdfPath := pdfPath; zipPath := zipPath |}.

(** [chunkOverrides[sectionId] || section.defaultChunks] *)
Definition effective_chunks (chunkOverrides : list (string * nat))
    (section : Section_) : nat :=
  match assoc (id section) chunkOverrides with
  | Some (S n) => S n
  | _ => defaultChunks section
  end.

(** The first loop of [build]: the work list, an id that the catalog does
    not have being passed over. *)
Fixpoint section_work (selectedSections : list string)
    (chunkOverrides : list (string * nat)) : list (Section_ * nat) :=
  match selectedSections with
  | [] => []
  | sid :: rest =>
      match getSectionById sid with
      | Some section =>
          (section, effective_chunks chunkOverrides section)
            :: section_work rest chunkOverrides
      | None => section_work rest chunkOverrides
      end
  end.

(** The second loop of [build]; its [catch] logs and throws the error it
    caught. *)
Fixpoint process_all (client : Client) (work : list (Section_ * nat))
    (config : Config) (outputDir : path) (costTracker : loc)
    (results : list SectionResult) : M (list SectionResult) :=
  match work with
  | [] => ret results
  | (section, numChunks) :: rest =>
      r <- try_catch
             (processSection client section numChunks config outputDir
                             costTracker)
             (fun error => throw error) ;;
      process_all client rest config outputDir costTracker
                  (results ++ [r])%list
  end.

Record BuildResult := {
  br_outputDir : path;
  br_masterZipPath : path;
  br_sections : list SectionResult;
  br_totalSections : nat;
  br_totalChunks : nat;
  br_cost : loc;
}.

(** [build(config, apiKey)], run in the directory [cwd] with the
    environment [env]; [client] is the client that [createOpenAIClient]
    makes of the key.  Console output, the timer and the size of the output
    directory are outside the model. *)
Definition build (cwd : path) (env : Env) (client : Client)
    (config : UserConfig) (apiKey : option string) : M BuildResult :=
  let mergedConfig := mergeConfig (with_env env config) in
  (if String.eqb (default "" apiKey) "" then
     throw (Error_ "OpenAI API key is required. Set OPENAI_API_KEY environment variable.")
   else ret tt) ;;;
  let baseOutputDir := nonempty_or ["dist"] (Some (cfg_outputDir mergedConfig)) in
  let outputDir :=
    path_join (cwd ++ baseOutputDir)%list (cfg_rootFolder mergedConfig) in
  ensureDirectory outputDir ;;;
  let selectedSections :=
    default (map id SECTIONS) (cfg_selectedSections mergedConfig) in
  let chunkOverrides := default [] (cfg_chunkOverrides mergedConfig) in
  let sectionWork := section_work selectedSections chunkOverrides in
  let totalChunks := foldr (fun sw acc => (snd sw + acc)%nat) 0%nat sectionWork in
  costTracker <- on_heap (fun h =>
                   Some (createCostTracker (cfg_model mergedConfig) h)) ;;
  results <- process_all client sectionWork mergedConfig outputDir
               costTracker [] ;;
  let zipPaths := map zipPath results in
  let masterZipPath :=
    path_join outputDir (cfg_rootFolder mergedConfig ++ "_complete.zip") in
  createMasterZip zipPaths masterZipPath None None ;;;
  costSummary <- on_heap (getSummary costTracker) ;;
  ret {| br_outputDir := outputDir; br_masterZipPath := masterZipPath;
         br_sections := results;
         br_totalSections := List.length results;
         br_totalChunks := totalChunks;
         br_cost := costSummary |}.

(** A world in which nothing has run yet: the module's heap, an empty root
    directory, an empty trace. *)
Definition initial_world : World :=
  {| w_heap := module_heap; w_fs := Dir []; w_trace := [] |}.

(** ** Further functions of the modules *)

(** *** [sections.js] *)

(** [SECTIONS.map((section) => section.id)] *)
Definition getSectionIds : list string := map id SECTIONS.


(** *** [zip-packager.js] *)

(** [createZip()]: a new, empty archive. *)
Definition createZip : Zip := [].

Definition addFileToZip (zip : Zip) (filename : path) (c : content) : Zip :=
  zip_file filename c zip.

(** [zipDirectory(sourceDir, outputPath, { rootFolder, extensions,
    recursive })]; an absent or empty [rootFolder] is the empty prefix. *)
Definition zipDirectory (sourceDir outputPath : path)
    (rootFolder : option string) (extensions : option (list string))
    (recursive : option bool) : M path :=
  let rootFolder := default "" rootFolder in
  let recursive := default true recursive in
  let zip := createZip in
  zip <- (if String.eqb rootFolder "" then
            addDirectoryToZip zip sourceDir [] extensions (Some recursive)
          else
            addDirectoryToZip zip sourceDir [rootFolder] extensions
                              (Some recursive)) ;;
  writeZipToFile zip outputPath ;;;
  ret outputPath.

(** *** [file-system.js] *)

(** [readFile] and [exists] of [file-system.js]. *)
Definition readFile (filePath : path) : M content := fs_readFile filePath.

Definition exists_ (filePath : path) : M bool := fs_pathExists filePath.

(** The closure [processDir] of [listFiles], on the directory [n] found at
    [currentPath]: the entries in [readdir] order, a subdirectory entered
    only when [recursive], a file listed by its relative path when the
    extension filter lets it through. *)
Fixpoint processDir (extensions : option (list string)) (recursive : bool)
    (n : node) (currentPath relativePath : path) (files : list path)
    {struct n} : M (list path) :=
  match n with
  | File _ => throw (Error_ "ENOTDIR: not a directory")
  | Dir es =>
      emit (EvReadDir currentPath) ;;;
      for_each
        (fun entry files =>
           match entry with
           | (name, child) =>
               let fullPath := path_join currentPath name in
               let relPath := path_join relativePath name in
               match child with
               | Dir _ =>
                   if recursive then
                     processDir extensions recursive child fullPath relPath
                                files
                   else ret files
               | File _ =>
                   if negb (filtered_out extensions name)
                   then ret (files ++ [relPath])%list
                   else ret files
               end
           end)
        es files
  end.

Definition listFiles (dirPath : path) (recursive : option bool)
    (extensions : option (list string)) : M (list path) :=
  fs <- get_fs ;;
  match lookup_node dirPath fs with
  | Some n =>
      processDir extensions (default false recursive) n dirPath [] []
  | None => throw (Error_ "ENOENT: no such file or directory")
  end.

(** The class of the first [replace]: [<], [>], [:], the double quote, the
    slash, the backslash, [|], [?] and the star. *)
Definition is_invalid (c : ascii) : bool :=
  existsb (Ascii.eqb c)
          ["<"; ">"; ":"; ascii_of_nat 34; "/"; "\"; "|"; "?"; "*"]%char.

(** The class [\s], over the ASCII range: tab, line feed, vertical tab,
    form feed, carriage return and space. *)
Definition is_space (c : ascii) : bool :=
  let n := nat_of_ascii c in
  ((9 <=? n)%nat && (n <=? 13)%nat) || (n =? 32)%nat.

Definition is_underscore (c : ascii) : bool := Ascii.eqb c "_"%char.

(** [s.replace(/[...]/g, '_')]: every character of the class becomes an
    underscore. *)
Fixpoint replace_class (p : ascii -> bool) (s : string) : string :=
  match s with
  | EmptyString => EmptyString
  | String c s' => String (if p c then "_"%char else c) (replace_class p s')
  end.

(** [s.replace(/[...]+/g, '_')]: every maximal run of characters of the
    class becomes one underscore; [in_run] tells that the character before
    was of the class. *)
Fixpoint replace_runs (p : ascii -> bool) (in_run : bool) (s : string)
  : string :=
  match s with
  | EmptyString => EmptyString
  | String c s' =>
      if p c then
        if in_run then replace_runs p true s'
        else String "_"%char (replace_runs p true s')
      else String c (replace_runs p false s')
  end.

Fixpoint trimStart (s : string) : string :=
  match s with
  | EmptyString => EmptyString
  | String c s' => if is_space c then trimStart s' else s
  end.

Fixpoint trimEnd (s : string) : string :=
  match s with
  | EmptyString => EmptyString
  | String c s' =>
      match trimEnd s' with
      | EmptyString => if is_space c then EmptyString else String c EmptyString
      | t => String c t
      end
  end.

(** [s.trim()] *)
Definition trim (s : string) : string := trimEnd (trimStart s).

Definition safeFileName (name : string) : string :=
  trim (replace_runs is_underscore false
          (replace_runs is_space false (replace_class is_invalid name))).

(** *** [pdf-generator.js] *)

(** [s.replace(/c/g, r)] for one character [c] *)
Fixpoint replace_char (c : ascii) (r : string) (s : string) : string :=
  match s with
  | EmptyString => EmptyString
  | String a s' =>
      if Ascii.eqb a c then r ++ replace_char c r s'
      else String a (replace_char c r s')
  end.

(** [escapedContent] of [generateHtmlTemplate]: five replacements, one
    after the other. *)
Definition escapedContent (content : string) : string :=
  replace_char "'" "&#039;"
    (replace_char (ascii_of_nat 34) "&quot;"
       (replace_char ">" "&gt;"
          (replace_char "<" "&lt;"
             (replace_char "&" "&amp;" content)))).

(** ** Specification-side definitions

    The vocabulary in which the properties of Part II are stated. *)

(** *** Pricing *)

(** The resolution of a model name as the specification words it: the exact
    entry; else the entry with the longest key that is a prefix of the
    lower-cased name; else the default. *)
Definition longest_prefix_entry (m : string) : option (string * loc) :=
  foldr (fun kv best =>
           if Str.startsWith m (fst kv) then
             match best with
             | Some kv' =>
                 if (String.length (fst kv') <? String.length (fst kv))%nat
                 then Some kv else Some kv'
             | None => Some kv
             end
           else best)
        None MODEL_PRICING.

Definition pricingFor_spec (model : string) : loc :=
  match List.find (fun kv => String.eqb (fst kv) model) MODEL_PRICING with
  | Some (_, l) => l
  | None =>
      match longest_prefix_entry (Str.toLowerCase model) with
      | Some (_, l) => l
      | None => DEFAULT_PRICING
      end
  end.

(** [key] and the lower-cased [model] match when one is a prefix of the
    other. *)
Definition prefix_match (model key : string) : Prop :=
  String.prefix key (Str.toLowerCase model) = true
  \/ String.prefix (Str.toLowerCase model) key = true.

(** The three tiers of the resolution as the code has them. *)
Inductive resolves (model : string) : loc -> Prop :=
| resolves_exact l :
    In (model, l) MODEL_PRICING ->
    resolves model l
| resolves_first_match before key l after :
    (forall l', ~ In (model, l') MODEL_PRICING) ->
    MODEL_PRICING = (before ++ (key, l) :: after)%list ->
    prefix_match model key ->
    Forall (fun kv => ~ prefix_match model (fst kv)) before ->
    resolves model l
| resolves_default :
    (forall l', ~ In (model, l') MODEL_PRICING) ->
    Forall (fun kv => ~ prefix_match model (fst kv)) MODEL_PRICING ->
    resolves model DEFAULT_PRICING.


(** *** The tracker and its callers *)

(** [t] is a tracker of [h]: its closure and its usage object are there, and
    so is the pricing object of its model, if it has one. *)
Definition tracker_wf (t : loc) (h : heap) : Prop :=
  exists model totalUsage totalCost u,
    h !! t = Some (OTracker model totalUsage totalCost)
    /\ h !! totalUsage = Some (OUsage u)
    /\ forall l, getModelPricing model = PRef l -> (l < List.length h)%nat.

(** A call of a tracker method, and what the caller gets back (an object by
    its fields). *)
Inductive call : Type :=
| CallAddUsage (usage : UsageArg)
| CallGetTotalCost
| CallGetFormattedCost
| CallGetTotalUsage
| CallGetSummary.

Inductive answer : Type :=
| AnsUndefined
| AnsNumber (n : num)
| AnsString (s : string)
| AnsUsage (o : option obj)
| AnsSummary (v : option SummaryView)
| AnsTypeError.

Definition run_call (t : loc) (c : call) (h : heap) : answer * heap :=
  match c with
  | CallAddUsage u =>
      match addUsage t u h with
      | Some h' => (AnsUndefined, h')
      | None => (AnsTypeError, h)
      end
  | CallGetTotalCost =>
      (match getTotalCost t h with
       | Some n => AnsNumber n
       | None => AnsTypeError
       end, h)
  | CallGetFormattedCost =>
      (match getFormattedCost t h with
       | Some s => AnsString s
       | None => AnsTypeError
       end, h)
  | CallGetTotalUsage =>
      match getTotalUsage t h with
      | Some (r, h') => (AnsUsage (h' !! r), h')
      | None => (AnsTypeError, h)
      end
  | CallGetSummary =>
      match getSummary t h with
      | Some (s, h') => (AnsSummary (read_summary (Some (s, h'))), h')
      | None => (AnsTypeError, h)
      end
  end.

Fixpoint run_calls (t : loc) (cs : list call) (h : heap) : list answer :=
  match cs with
  | [] => []
  | c :: rest =>
      let '(a, h') := run_call t c h in
      a :: run_calls t rest h'
  end.

(** A sequence of assignments to objects: each replaces the object at a
    location by another. *)
Fixpoint mutate (ws : list (loc * obj)) (h : heap) : heap :=
  match ws with
  | [] => h
  | (l, o) :: rest => mutate rest (<[l := o]> h)
  end.

(** The locations a caller holds after [getSummary]: the summary, its usage
    object and its breakdown object (the pricing object is the module's). *)
Definition summary_objects (s : loc) (h : heap) : list loc :=
  match h !! s with
  | Some (OSummary _ _ usage _ _ breakdown) => [s; usage; breakdown]
  | _ => [s]
  end.

(** Two heaps that a tracker cannot tell apart: the same size, and the same
    objects at the closure, the usage object and the pricing object. *)
Definition footprint (t : loc) (h : heap) : list loc :=
  match h !! t with
  | Some (OTracker model totalUsage _) =>
      t :: totalUsage ::
        match getModelPricing model with
        | PRef l => [l]
        | PInherited _ => []
        end
  | _ => [t]
  end.

Definition agree (t : loc) (h h' : heap) : Prop :=
  List.length h = List.length h'
  /\ forall l, In l (footprint t h) -> h !! l = h' !! l.

Definition is_pricing (o : obj) : Prop :=
  match o with OPricing _ _ => True | _ => False end.

(** The usage after one more [addUsage]. *)
Definition usage_plus (u : Usage) (a : UsageArg) : Usage :=
  {| promptTokens := promptTokens u + or0 (arg_promptTokens a);
     completionTokens := completionTokens u + or0 (arg_completionTokens a);
     totalTokens := totalTokens u + or0 (arg_totalTokens a) |}.

(** *** Clients *)

(** What makes a call a failed attempt: a rejection, or a response without
    generated text. *)
Definition failure_of (o : outcome) : option JsError :=
  match o with
  | Rejected e => Some e
  | Resolved c =>
      match generated_text c with
      | None => Some (Error_ EMPTY_RESPONSE)
      | Some _ => None
      end
  end.


(** A client whose every call is a failed attempt, none of them an
    authentication failure. *)
Definition always_fails (client : Client) : Prop :=
  forall hist r, exists e, failure_of (client hist r) = Some e
                           /\ err_status e <> Some 401%Z.

(** A stub whose every call yields generated text. *)
Definition always_succeeds (client : Client) : Prop :=
  forall hist r, exists c text, client hist r = Resolved c
                                /\ generated_text c = Some text.

(** The failure of the call made after [k] more requests [r]. *)
Definition failure_after (client : Client) (hist : list Request) (r : Request)
    (k : nat) : option JsError :=
  failure_of (client (hist ++ replicate k r)%list r).

(** *** A section run *)

(** One delivered chunk: its index, the request, the text and the usage. *)
Record Delivery := {
  d_index : nat;
  d_request : Request;
  d_text : string;
  d_usage : Usage;
}.

(** What a stub delivers to [remaining] successive chunk requests from
    chunk [i] on, each call made after the requests before it. *)
Fixpoint deliveries (client : Client) (o : SectionOptions) (section : Section_)
    (hist : list Request) (i remaining : nat) : list Delivery :=
  match remaining with
  | O => []
  | S k =>
      let r := chunk_request (section_chunk_options o section i) in
      match client hist r with
      | Resolved c =>
          {| d_index := i; d_request := r;
             d_text := default "" (generated_text c);
             d_usage := extract_usage c |}
            :: deliveries client o section (hist ++ [r])%list (S i) k
      | Rejected _ => []
      end
  end.

(** The events of a section run with a progress callback: each request,
    then the callback for its chunk. *)
Definition delivery_events (d : Delivery) : list event :=
  [EvRequest (d_request d); EvProgress (d_index d) (d_text d) (d_usage d)].


Definition progress_indices (tr : list event) : list nat :=
  omap (fun e => match e with EvProgress i _ _ => Some i | _ => None end) tr.

(** *** Traces *)

(** An event of the attempts for one request [r]: that request, a wait or a
    warning. *)
Definition attempt_event (r : Request) (e : event) : Prop :=
  match e with
  | EvRequest r' => r' = r
  | EvSleep _ | EvWarn _ => True
  | _ => False
  end.

(** An event of the generation phase of a section: nothing there touches
    the disk. *)
Definition generation_event (e : event) : Prop :=
  match e with
  | EvRequest _ | EvSleep _ | EvWarn _ | EvProgressBar _ _ => True
  | _ => False
  end.

Definition read_event (e : event) : Prop :=
  match e with
  | EvReadDir _ | EvReadFile _ => True
  | _ => False
  end.


(** Every run of [m] takes a world to one related to it by [R]. *)
Definition respects (R : World -> World -> Prop) {A} (m : M A) : Prop :=
  forall w r w', m w = (r, w') -> R w w'.

(** [w'] is [w] with more events, all of them in [P]. *)
Definition extends_by (P : event -> Prop) (w w' : World) : Prop :=
  exists g, w_trace w' = (w_trace w ++ g)%list /\ Forall P g.

(** The same, and the file system is as it was. *)
Definition quietly (P : event -> Prop) (w w' : World) : Prop :=
  w_fs w' = w_fs w /\ extends_by P w w'.

(** The generation phase of [processSection], chunk by chunk from chunk [i]:
    the attempts for a chunk (all for that chunk's request, the text being
    what the client resolved one of them with), then the progress tick of
    that chunk, then the same for the next chunk. *)
Inductive phases (client : Client) (section : Section_) (total : nat)
    (config : Config) : nat -> list string -> list event -> Prop :=
| phases_done i : phases client section total config i [] []
| phases_chunk i text texts g task cost gs hist c :
    Forall (attempt_event
              (chunk_request (process_chunk_options section total config i))) g ->
    client hist (chunk_request (process_chunk_options section total config i))
    = Resolved c ->
    generated_text c = Some text ->
    phases client section total config (S i) texts gs ->
    phases client section total config i (text :: texts)
           (g ++ EvProgressBar task cost :: gs).


(** *** Archives *)

(** The content of the entry of a name in an archive. *)
Fixpoint zip_get (name : path) (zip : Zip) : option content :=
  match zip with
  | [] => None
  | (n, c) :: zip' => if bool_decide (n = name) then Some c else zip_get name zip'
  end.

(** *** The build *)


Definition known_section (sid : string) : bool :=
  bool_decide (is_Some (getSectionById sid)).

(** The configuration with another selection of sections. *)
Definition select_sections (sel : list string) (u : UserConfig) : UserConfig :=
  {| user_rootFolder := user_rootFolder u;
     user_outputDir := user_outputDir u;
     user_model := user_model u;
     user_temperature := user_temperature u;
     user_maxTokens := user_maxTokens u;
     user_maxRetries := user_maxRetries u;
     user_retryDelay := user_retryDelay u;
     user_generatePDFs := user_generatePDFs u;
     user_branding := user_branding u;
     user_selectedSections := Some sel;
     user_chunkOverrides := user_chunkOverrides u |}.

(** *** Retries *)

(** The waits of a trace, in order. *)
Definition sleeps_of (tr : list event) : list Z :=
  omap (fun e => match e with EvSleep ms => Some ms | _ => None end) tr.

(** A client that rejects every call as rate limited. *)
Definition always_rate_limited (client : Client) : Prop :=
  forall hist r, exists e, client hist r = Rejected e
                           /\ err_status e = Some 429%Z.

(** A client whose every call is a failed attempt that is neither an
    authentication failure nor a rate limit. *)
Definition always_errors (client : Client) : Prop :=
  forall hist r, exists e, failure_of (client hist r) = Some e
                           /\ err_status e <> Some 401%Z
                           /\ err_status e <> Some 429%Z.

(** *** Archives of directories *)

(** The entry [name] with content [c] stands for a file below [dirPath]: a
    file of the tree [fs] at [dirPath/rel], named [zipPath/rel] in the
    archive, that the extension filter lets through and, without
    [recursive], lies in [dirPath] itself. *)
Definition from_tree (extensions : option (list string)) (recursive : bool)
    (fs : node) (dirPath zipPath : path) (name : path) (c : content) : Prop :=
  exists rel,
    rel <> []
    /\ name = (zipPath ++ rel)%list
    /\ lookup_node (dirPath ++ rel)%list fs = Some (File c)
    /\ filtered_out extensions (basename rel) = false
    /\ (recursive = false -> List.length rel = 1%nat).

(** The extensions [createSectionZip] collects from its two flags. *)
Definition section_extensions (o : SectionZipOptions) : list string :=
  ((if default true (sz_includeSourceFiles o) then [".txt"] else [])
   ++ (if default true (sz_includePdfs o) then [".pdf"] else []))%list.

(** A tree as a file system has it: no name twice in a directory. *)
Fixpoint unique_names (n : node) : bool :=
  match n with
  | File _ => true
  | Dir es =>
      bool_decide (NoDup (map fst es))
      && forallb (fun e => match e with (_, child) => unique_names child end) es
  end.

(** The file [rel] of the tree [n] is one that [processDir] lists. *)
Definition listed (extensions : option (list string)) (recursive : bool)
    (n : node) (rel : path) : Prop :=
  rel <> []
  /\ (exists c, lookup_node rel n = Some (File c))
  /\ filtered_out extensions (basename rel) = false
  /\ (recursive = false -> List.length rel = 1%nat).

(** *** Names and markup *)

(** Every character of the string is in the class. *)
Fixpoint all_chars (p : ascii -> bool) (s : string) : bool :=
  match s with
  | EmptyString => true
  | String c s' => p c && all_chars p s'
  end.

(** The string has two underscores in a row. *)
Fixpoint double_underscore (s : string) : bool :=
  match s with
  | String a ((String b _) as t) =>
      (is_underscore a && is_underscore b) || double_underscore t
  | _ => false
  end.

(** A character a safe name may have. *)
Definition safe_char (c : ascii) : bool :=
  negb (is_invalid c) && negb (is_space c).

(** The entity of a character, or the character itself. *)
Definition escape_char (c : ascii) : string :=
  if Ascii.eqb c "&" then "&amp;"
  else if Ascii.eqb c "<" then "&lt;"
  else if Ascii.eqb c ">" then "&gt;"
  else if Ascii.eqb c (ascii_of_nat 34) then "&quot;"
  else if Ascii.eqb c "'" then "&#039;"
  else String c EmptyString.

(** The escaping done in one pass over the text. *)
Fixpoint escape_each (s : string) : string :=
  match s with
  | EmptyString => EmptyString
  | String c s' => escape_char c ++ escape_each s'
  end.

(** A character that is markup in HTML text or in an attribute value. *)
Definition is_markup (c : ascii) : bool :=
  existsb (Ascii.eqb c) ["<"; ">"; ascii_of_nat 34; "'"]%char.

(** *** The plan and the accounts of a build *)

(** The configuration with another model and another output directory. *)
Definition with_model_and_outputDir (m : option string) (d : option path)
    (u : UserConfig) : UserConfig :=
  {| user_rootFolder := user_rootFolder u;
     user_outputDir := d;
     user_model := m;
     user_temperature := user_temperature u;
     user_maxTokens := user_maxTokens u;
     user_maxRetries := user_maxRetries u;
     user_retryDelay := user_retryDelay u;
     user_generatePDFs := user_generatePDFs u;
     user_branding := user_branding u;
     user_selectedSections := user_selectedSections u;
     user_chunkOverrides := user_chunkOverrides u |}.

(** The total of the chunk counts of a work list, as [build] adds it up. *)
Definition planned_chunks (work : list (Section_ * nat)) : nat :=
  foldr (fun sw acc => (snd sw + acc)%nat) 0%nat work.




(** ** Sample inputs *)


Definition sample_tracker : loc := fst (createCostTracker "gpt-4" module_heap).

Definition sample_heap : heap := snd (createCostTracker "gpt-4" module_heap).

Definition sample_branding : Branding := cfg_branding DEFAULT_CONFIG.

Definition sample_section : Section_ :=
  {| id := "launch_emails";
     label := "Launch Email Sequences";
     defaultChunks := 2;
     description := "Customer launch + affiliate launch";
     promptTemplate := Some "Generate email sequence templates for product launches.
Include: pre-launch teasers, launch day emails, urgency/scarcity emails, and post-launch follow-ups.
Cover both customer-facing and affiliate/JV partner communications." |}.

Definition sample_chunk_options (maxRetries : option nat) : ChunkOptions :=
  {| co_model := "gpt-4"; co_temperature := 0.7; co_maxTokens := None;
     co_section := sample_section; co_chunkIndex := 0; co_totalChunks := 1;
     co_branding := sample_branding; co_maxRetries := maxRetries;
     co_retryDelay := None |}.

Definition completion_of (text : option string) (usage : option RawUsage)
  : Completion :=
  {| choices := [ {| choice_message := Some {| msg_content := text |} |} ];
     completion_usage := usage |}.

(** [{ choices: [{ message: { content: null } }] }] at every call *)
Definition empty_client : Client :=
  fun _ _ => Resolved (completion_of None None).

(** [Content chunk k] at the k-th call, with usage 100/50/150 *)
Definition counting_client : Client :=
  fun hist _ =>
    Resolved (completion_of
                (Some ("Content chunk " ++ pretty (S (List.length hist))))
                (Some {| prompt_tokens := Some 100%Z;
                         completion_tokens := Some 50%Z;
                         total_tokens := Some 150%Z |})).


Definition sample_section_options (sid : string) (n : nat) : SectionOptions :=
  {| so_sectionId := sid; so_numChunks := n; so_model := "gpt-4";
     so_temperature := 0.7; so_branding := sample_branding;
     so_onProgress := Some (fun _ _ _ => None);
     so_maxRetries := None; so_retryDelay := None |}.

Definition sample_env : Env := {| NEON_MODEL := None; NEON_OUTPUT_DIR := None |}.

(** One section, two chunks, no PDFs. *)
Definition sample_config (sel : list string) : UserConfig :=
  {| user_rootFolder := None; user_outputDir := None; user_model := None;
     user_temperature := None; user_maxTokens := None;
     user_maxRetries := None; user_retryDelay := None;
     user_generatePDFs := Some false; user_branding := None;
     user_selectedSections := Some sel;
     user_chunkOverrides := Some [("launch_emails", 2%nat)] |}.

Definition sample_merged : Config :=
  mergeConfig (with_env sample_env (sample_config ["launch_emails"])).

(** A world in which [build] has created its tracker, before any section. *)
Definition sample_world : World :=
  {| w_heap := sample_heap; w_fs := Dir []; w_trace := [] |}.

(** [processSection] for two chunks of one section, PDFs disabled. *)
Definition sample_run : result SectionResult * World :=
  processSection counting_client sample_section 2 sample_merged ["work"]
                 sample_tracker sample_world.

(** A rate limit at every call *)
Definition rate_limited_client : Client :=
  fun _ _ => Rejected {| err_status := Some 429%Z;
                         err_message := Some "Rate limit exceeded" |}.

(** [mockRejectedValueOnce(new Error('API Error'))], then text at every call *)
Definition flaky_client : Client :=
  fun hist r =>
    match hist with
    | [] => Rejected (Error_ "API Error")
    | _ => counting_client hist r
    end.

(** A callback that throws at chunk [k] *)
Definition throwing_callback (k : nat) : Callback :=
  fun i _ _ => if (i =? k)%nat then Some (Error_ "callback failed") else None.

(** A directory with text files, a PDF and a subdirectory. *)
Definition sample_tree : node :=
  Dir [("src",
        Dir [("a.txt", File (Text "A"));
             ("B.TXT", File (Text "B"));
             ("c.pdf", File (Pdf "C" "C"));
             ("sub", Dir [("d.txt", File (Text "D"))])])].

Definition sample_tree_world : World :=
  {| w_heap := []; w_fs := sample_tree; w_trace := [] |}.

(** An output directory with two section archives and a README. *)
Definition sample_archives : World :=
  {| w_heap := [];
     w_fs :=
       Dir [("out",
             Dir [("a.zip", File (ZipData [(["a"; "a.pdf"], Pdf "A" "A")]));
                  ("b.zip", File (ZipData []));
                  ("README.md", File (Text "Read me"))])];
     w_trace := [] |}.

(* ================================================================== *)
(** * Part II: properties                                              *)
(* ================================================================== *)

(** ** The model against the repository's tests *)

Example test_exact_pricing : getModelPricing "gpt-4" = PRef 4%nat.
Proof. reflexivity. Qed.

Example test_default_pricing :
  getModelPricing "unknown-model-xyz" = PRef DEFAULT_PRICING
  /\ module_heap !! DEFAULT_PRICING = Some (OPricing (Fin 0.03) (Fin 0.06)).
Proof. split; reflexivity. Qed.

Example test_prefix_pricing :
  getModelPricing "gpt-4-turbo-2024-01-01" = PRef 0%nat.
Proof. reflexivity. Qed.

Example test_calculateCost_gpt4 :
  num_eq (calculateCost module_heap
            {| promptTokens := 1000; completionTokens := 500;
               totalTokens := 1500 |} "gpt-4") (Fin 0.06).
Proof. vm_compute. reflexivity. Qed.

Example test_calculateCost_mini :
  num_eq (calculateCost module_heap
            {| promptTokens := 10000; completionTokens := 5000;
               totalTokens := 15000 |} "gpt-4o-mini") (Fin 0.0045).
Proof. vm_compute. reflexivity. Qed.

Example test_formatCost :
  formatCost (Fin 1.5) = "$1.50" /\ formatCost (Fin 0.05) = "$0.05"
  /\ formatCost (Fin 10.99) = "$10.99" /\ formatCost (Fin 0.0045) = "$0.0045"
  /\ formatCost (Fin 0.001) = "$0.0010" /\ formatCost (Fin 0) = "$0.0000"
  /\ formatCost (Fin 0.00001) = "$0.0000".
Proof. repeat split; vm_compute; reflexivity. Qed.

Example test_new_tracker :
  getTotalCost sample_tracker sample_heap = Some (Fin 0)
  /\ getFormattedCost sample_tracker sample_heap = Some "$0.0000"
  /\ tracker_usage sample_tracker sample_heap = Some usage_zero.
Proof. repeat split; reflexivity. Qed.

Example test_extname :
  Str.extname "chunk_01.TXT" = ".TXT" /\ Str.extname "archive.tar.gz" = ".gz"
  /\ Str.extname ".hidden" = "" /\ Str.extname "noext" = ""
  /\ Str.extname "trailing." = "." /\ Str.extname ".." = "".
Proof. repeat split; reflexivity. Qed.

Example test_empty_response :
  fst (generateChunk empty_client (sample_chunk_options (Some 1%nat))
                     initial_world)
  = Throw (Error_ "Failed to generate content after 1 attempts: Empty response from OpenAI API").
Proof. reflexivity. Qed.

(** ** The cost calculator *)

Lemma find_split {A} (f : A -> bool) (l : list A) (x : A) :
  List.find f l = Some x ->
  exists before after,
    l = (before ++ x :: after)%list /\ f x = true
    /\ Forall (fun y => f y = false) before.
Proof.
  induction l as [|a l IH]; simpl; [discriminate|].
  destruct (f a) eqn:Ha.
  - intros [= ->]. exists [], l. repeat split; auto.
  - intros H. destruct (IH H) as (b & c & -> & Hx & Hb).
    exists (a :: b), c. repeat split; auto.
Qed.

Lemma find_none_Forall {A} (f : A -> bool) (l : list A) :
  List.find f l = None -> Forall (fun y => f y = false) l.
Proof.
  induction l as [|a l IH]; simpl; [constructor|].
  destruct (f a) eqn:Ha; [discriminate|]. intros H. constructor; auto.
Qed.

Lemma startsWith_match (model key : string) :
  Str.startsWith (Str.toLowerCase model) key
  || Str.startsWith key (Str.toLowerCase model) = true
  <-> prefix_match model key.
Proof.
  unfold prefix_match, Str.startsWith. rewrite orb_true_iff. tauto.
Qed.

(** Every pricing object of the module holds two numbers, the output price
    at least the input price. *)
Lemma module_prices (l : loc) :
  (l <= DEFAULT_PRICING)%nat ->
  exists i o, module_heap !! l = Some (OPricing (Fin i) (Fin o)) /\ (i <= o)%Q.
Proof.
  unfold DEFAULT_PRICING. simpl List.length. intros Hl.
  do 18 (destruct l as [|l];
         [eexists _, _; split; [reflexivity | unfold Qle; simpl; lia] |]).
  lia.
Qed.

Lemma table_locs (k : string) (l : loc) :
  In (k, l) MODEL_PRICING -> (l <= DEFAULT_PRICING)%nat.
Proof.
  unfold MODEL_PRICING, DEFAULT_PRICING. simpl.
  intros H. repeat (destruct H as [[= <- <-]|H]; [lia|]). destruct H.
Qed.

Lemma own_entry_None (model : string) :
  List.find (fun kv => String.eqb (fst kv) model) MODEL_PRICING = None ->
  forall l, ~ In (model, l) MODEL_PRICING.
Proof.
  intros H l Hin. apply find_none_Forall in H.
  rewrite Forall_forall in H. apply list_elem_of_In in Hin.
  specialize (H _ Hin). simpl in H. rewrite String.eqb_refl in H. discriminate.
Qed.

Lemma not_inherited (model : string) :
  ~ In model ObjectPrototypeKeys ->
  existsb (String.eqb model) ObjectPrototypeKeys = false.
Proof.
  intros H. destruct (existsb _ _) eqn:E; [|reflexivity].
  apply existsb_exists in E as (k & Hk & Heq).
  apply String.eqb_eq in Heq. subst. contradiction.
Qed.

Lemma getModelPricing_tiers (model : string) :
  ~ In model ObjectPrototypeKeys ->
  exists l i o,
    getModelPricing model = PRef l
    /\ resolves model l
    /\ module_heap !! l = Some (OPricing (Fin i) (Fin o))
    /\ (i <= o)%Q.
Proof.
  intros Hproto. unfold getModelPricing, MODEL_PRICING_get.
  destruct (List.find (fun kv => String.eqb (fst kv) model) MODEL_PRICING)
    as [[k l]|] eqn:Hexact.
  - pose proof (find_some _ _ Hexact) as [Hin Hk]. simpl in Hk.
    apply String.eqb_eq in Hk. subst k.
    destruct (module_prices l) as (i & o & Hl & Hio);
      [eapply table_locs; eauto|].
    exists l, i, o. repeat split; auto. by apply resolves_exact.
  - rewrite (not_inherited _ Hproto).
    pose proof (own_entry_None _ Hexact) as Hnone.
    destruct (List.find
                (fun kv => Str.startsWith (Str.toLowerCase model) (fst kv)
                           || Str.startsWith (fst kv) (Str.toLowerCase model))
                MODEL_PRICING) as [[k l]|] eqn:Hfirst.
    + destruct (find_split _ _ _ Hfirst) as (b & a & Htab & Hm & Hb).
      simpl in Hm. apply startsWith_match in Hm.
      destruct (module_prices l) as (i & o & Hl & Hio).
      { apply (table_locs k). rewrite Htab. apply in_elt. }
      exists l, i, o. repeat split; auto.
      eapply resolves_first_match; eauto.
      eapply Forall_impl; [exact Hb|]. intros kv Hkv Hpm.
      apply startsWith_match in Hpm. simpl in Hkv. congruence.
    + destruct (module_prices DEFAULT_PRICING) as (i & o & Hl & Hio); [lia|].
      exists DEFAULT_PRICING, i, o. repeat split; auto.
      apply resolves_default; auto.
      apply find_none_Forall in Hfirst.
      eapply Forall_impl; [exact Hfirst|]. intros kv Hkv Hpm.
      apply startsWith_match in Hpm. simpl in Hkv. congruence.
Qed.

Lemma first_match_unique {A} (P : A -> Prop) (b1 b2 a1 a2 : list A) (x1 x2 : A) :
  (b1 ++ x1 :: a1 = b2 ++ x2 :: a2)%list ->
  P x1 -> P x2 ->
  Forall (fun y => ~ P y) b1 -> Forall (fun y => ~ P y) b2 ->
  x1 = x2.
Proof.
  revert b2. induction b1 as [|y b1 IH]; intros [|z b2]; simpl;
    intros Heq H1 H2 Hb1 Hb2; inversion Heq; subst.
  - reflexivity.
  - inversion Hb2; subst. contradiction.
  - inversion Hb1; subst. contradiction.
  - inversion Hb1; inversion Hb2; subst. eapply IH; eauto.
Qed.

Lemma table_functional (k : string) (l l' : loc) :
  In (k, l) MODEL_PRICING -> In (k, l') MODEL_PRICING -> l = l'.
Proof.
  assert (Hnd : NoDup (map fst MODEL_PRICING)) by (apply (bool_decide_unpack _); vm_compute; exact I).
  revert Hnd. generalize MODEL_PRICING as T.
  induction T as [|[k0 l0] T IH]; simpl; [tauto|].
  intros Hnd [H1|H1] [H2|H2]; inversion Hnd as [|? ? Hnot Hnd']; subst.
  - congruence.
  - inversion H1; subst. exfalso. apply Hnot.
    apply list_elem_of_In. apply (in_map fst) in H2. exact H2.
  - inversion H2; subst. exfalso. apply Hnot.
    apply list_elem_of_In. apply (in_map fst) in H1. exact H1.
  - auto.
Qed.

Lemma resolves_functional (model : string) (l l' : loc) :
  resolves model l -> resolves model l' -> l = l'.
Proof.
  intros H1 H2.
  destruct H1 as [l Hin | b k l a Hno Htab Hm Hb | Hno Hall];
    destruct H2 as [l' Hin' | b' k' l' a' Hno' Htab' Hm' Hb' | Hno' Hall'].
  - eapply table_functional; eauto.
  - exfalso. eapply Hno'; eauto.
  - exfalso. eapply Hno'; eauto.
  - exfalso. eapply Hno; eauto.
  - assert (E : (k, l) = (k', l')).
    { eapply (first_match_unique (fun kv => prefix_match model (fst kv)));
        [rewrite <- Htab; exact Htab' | | | |]; eauto. }
    congruence.
  - exfalso. rewrite Htab in Hall'. apply Forall_app in Hall' as [_ Hall'].
    inversion Hall'; subst. auto.
  - exfalso. eapply Hno; eauto.
  - exfalso. rewrite Htab' in Hall. apply Forall_app in Hall as [_ Hall].
    inversion Hall; subst. auto.
  - reflexivity.
Qed.

(** C2 (as amended). [getModelPricing] is a function of the model name, and
    for every name that is not a property inherited from [Object.prototype]
    it returns a pricing object of the module, with two numbers of which the
    output price is at least the input price.  The object is the one that
    the three tiers determine, and they determine one only: the entry of
    that exact name; else the first entry, in the order of the table, whose
    key is a prefix of the lower-cased name or has the lower-cased name as a
    prefix; else the default pricing. *)
Theorem getModelPricing_three_tiers (model : string) :
  ~ In model ObjectPrototypeKeys ->
  exists l i o,
    getModelPricing model = PRef l
    /\ resolves model l
    /\ (forall l', resolves model l' -> l' = l)
    /\ module_heap !! l = Some (OPricing (Fin i) (Fin o))
    /\ (i <= o)%Q.
Proof.
  intros Hproto.
  destruct (getModelPricing_tiers model Hproto) as (l & i & o & Hg & Hr & Hl & Hio).
  exists l, i, o. repeat split; auto.
  intros l' Hr'. eapply resolves_functional; eauto.
Qed.

Lemma getModelPricing_three_tiers_witness :
  ~ In "gpt-4o-2024-08-06" ObjectPrototypeKeys
  /\ exists l i o,
      getModelPricing "gpt-4o-2024-08-06" = PRef l
      /\ resolves "gpt-4o-2024-08-06" l
      /\ (forall l', resolves "gpt-4o-2024-08-06" l' -> l' = l)
      /\ module_heap !! l = Some (OPricing (Fin i) (Fin o))
      /\ (i <= o)%Q.
Proof.
  assert (H : ~ In "gpt-4o-2024-08-06" ObjectPrototypeKeys).
  { simpl. intros H. repeat (destruct H as [H|H]; [discriminate|]). exact H. }
  split; [exact H|].
  apply (getModelPricing_three_tiers "gpt-4o-2024-08-06"). exact H.
Defined.

(** C2, counterexample. For [gpt-4o-2024-08-06] the longest key that is a
    prefix of the name is [gpt-4o], but the code returns the pricing of
    [gpt-4], the first key in table order that matches; and for
    [constructor] the code returns a member inherited from
    [Object.prototype], which is no pricing object. *)
Lemma getModelPricing_not_longest_prefix :
  getModelPricing "gpt-4o-2024-08-06"
  <> PRef (pricingFor_spec "gpt-4o-2024-08-06")
  /\ pricing_input module_heap (getModelPricing "gpt-4o-2024-08-06") = Fin 0.03
  /\ pricing_input module_heap (PRef (pricingFor_spec "gpt-4o-2024-08-06"))
     = Fin 0.005
  /\ forall l, getModelPricing "constructor" <> PRef l.
Proof.
  split; [vm_compute; discriminate|].
  split; [reflexivity|]. split; [reflexivity|].
  intros l. vm_compute. discriminate.
Qed.

(** *** The tracker *)

(** Replacing an object that is not a pricing object by another such object
    leaves every price as it was. *)
Lemma pricing_input_insert (h : heap) (l0 : loc) (o0 o : obj) (p : pval) :
  h !! l0 = Some o0 -> ~ is_pricing o0 -> ~ is_pricing o ->
  pricing_input (<[l0 := o]> h) p = pricing_input h p.
Proof.
  intros H0 Hn0 Hn. destruct p as [l|]; simpl; [|reflexivity].
  destruct (decide (l0 = l)) as [<-|Hne].
  - rewrite list_lookup_insert_eq by (eapply lookup_lt_Some; eauto).
    rewrite H0. destruct o, o0; simpl in *; tauto.
  - by rewrite list_lookup_insert_ne.
Qed.

Lemma pricing_output_insert (h : heap) (l0 : loc) (o0 o : obj) (p : pval) :
  h !! l0 = Some o0 -> ~ is_pricing o0 -> ~ is_pricing o ->
  pricing_output (<[l0 := o]> h) p = pricing_output h p.
Proof.
  intros H0 Hn0 Hn. destruct p as [l|]; simpl; [|reflexivity].
  destruct (decide (l0 = l)) as [<-|Hne].
  - rewrite list_lookup_insert_eq by (eapply lookup_lt_Some; eauto).
    rewrite H0. destruct o, o0; simpl in *; tauto.
  - by rewrite list_lookup_insert_ne.
Qed.

Lemma calculateCost_insert (h : heap) (l0 : loc) (o0 o : obj) (u : Usage)
    (model : string) :
  h !! l0 = Some o0 -> ~ is_pricing o0 -> ~ is_pricing o ->
  calculateCost (<[l0 := o]> h) u model = calculateCost h u model.
Proof.
  intros. unfold calculateCost.
  by erewrite pricing_input_insert, pricing_output_insert.
Qed.

(** One [addUsage] on a tracker: it succeeds, adds the argument to the usage
    object, and leaves in [totalCost] the cost of the new usage. *)
Lemma addUsage_step (t totalUsage : loc) (model : string) (c : num) (u : Usage)
    (a : UsageArg) (h : heap) :
  h !! t = Some (OTracker model totalUsage c) ->
  h !! totalUsage = Some (OUsage u) ->
  exists h',
    addUsage t a h = Some h'
    /\ h' !! t = Some (OTracker model totalUsage
                                (calculateCost h' (usage_plus u a) model))
    /\ h' !! totalUsage = Some (OUsage (usage_plus u a))
    /\ List.length h' = List.length h.
Proof.
  intros Ht Hu.
  assert (Hne : totalUsage <> t) by congruence.
  unfold addUsage. rewrite Ht, Hu. fold (usage_plus u a).
  eexists. split; [reflexivity|].
  assert (Ht1 : <[totalUsage := OUsage (usage_plus u a)]> h !! t
                = Some (OTracker model totalUsage c))
    by (by rewrite list_lookup_insert_ne).
  repeat split.
  - rewrite list_lookup_insert_eq.
    + f_equal. f_equal. symmetry.
      eapply calculateCost_insert; [exact Ht1 | |]; simpl; tauto.
    + rewrite length_insert. eapply lookup_lt_Some; eauto.
  - rewrite list_lookup_insert_ne by congruence.
    rewrite list_lookup_insert_eq; [reflexivity|].
    eapply lookup_lt_Some; eauto.
  - by rewrite !length_insert.
Qed.





Lemma createCostTracker_cells (model : string) (h0 : heap) :
  let t := fst (createCostTracker model h0) in
  let h := snd (createCostTracker model h0) in
  t = S (List.length h0)
  /\ h !! t = Some (OTracker model (List.length h0) (Fin 0))
  /\ h !! List.length h0 = Some (OUsage usage_zero)
  /\ List.length h = S (S (List.length h0))
  /\ forall l, (l < List.length h0)%nat -> h !! l = h0 !! l.
Proof.
  unfold createCostTracker, alloc. simpl. repeat split.
  - by rewrite length_app, Nat.add_1_r.
  - apply list_lookup_middle. by rewrite length_app, Nat.add_1_r.
  - rewrite lookup_app_l by (rewrite length_app; simpl; lia).
    by apply list_lookup_middle.
  - rewrite !length_app. simpl. lia.
  - intros l Hl. rewrite lookup_app_l by (rewrite length_app; simpl; lia).
    by rewrite lookup_app_l.
Qed.






(** *** What a tracker reads *)

Lemma footprint_has_tracker (t : loc) (h : heap) : In t (footprint t h).
Proof. unfold footprint. destruct (h !! t) as [[]|]; simpl; auto. Qed.

Lemma agree_footprint (t : loc) (h h' : heap) :
  agree t h h' -> footprint t h' = footprint t h.
Proof.
  intros [_ H]. unfold footprint.
  by rewrite <- (H t (footprint_has_tracker t h)).
Qed.

Lemma agree_refl (t : loc) (h : heap) : agree t h h.
Proof. split; auto. Qed.

Lemma agree_trans (t : loc) (h1 h2 h3 : heap) :
  agree t h1 h2 -> agree t h2 h3 -> agree t h1 h3.
Proof.
  intros H12 H23. pose proof (agree_footprint _ _ _ H12) as Hf.
  destruct H12 as [L12 H12], H23 as [L23 H23]. split; [congruence|].
  intros l Hl. rewrite H12 by exact Hl. apply H23. by rewrite Hf.
Qed.

Lemma same_insert (h h' : heap) (i l : loc) (o : obj) :
  List.length h = List.length h' -> h !! l = h' !! l ->
  <[i := o]> h !! l = <[i := o]> h' !! l.
Proof. intros HL H. rewrite !list_lookup_insert, HL, H. reflexivity. Qed.

Lemma same_app (h h' k : heap) (l : loc) :
  List.length h = List.length h' -> h !! l = h' !! l ->
  (h ++ k)%list !! l = (h' ++ k)%list !! l.
Proof. intros HL H. rewrite !lookup_app, HL, H. reflexivity. Qed.

(** An assignment to an object that the tracker does not read. *)
Lemma agree_insert (t l : loc) (o : obj) (h : heap) :
  ~ In l (footprint t h) -> agree t h (<[l := o]> h).
Proof.
  intros Hl. split; [by rewrite length_insert|].
  intros l' Hl'. rewrite list_lookup_insert_ne; [reflexivity|]. congruence.
Qed.

Lemma agree_mutate (t : loc) (ws : list (loc * obj)) :
  forall h, Forall (fun w => ~ In (fst w) (footprint t h)) ws ->
            agree t h (mutate ws h).
Proof.
  induction ws as [|[l o] ws IH]; intros h Hws; simpl; [apply agree_refl|].
  inversion Hws as [|? ? Hl Hws']; subst. simpl in Hl.
  pose proof (agree_insert t l o h Hl) as Hstep.
  eapply agree_trans; [exact Hstep|]. apply IH.
  by rewrite (agree_footprint _ _ _ Hstep).
Qed.

Lemma footprint_tracker (t : loc) (h1 h2 : heap) (model : string) (lu : loc)
    (c1 c2 : num) :
  h1 !! t = Some (OTracker model lu c1) ->
  h2 !! t = Some (OTracker model lu c2) ->
  footprint t h2 = footprint t h1.
Proof. intros H1 H2. unfold footprint. by rewrite H1, H2. Qed.

Lemma agree_insert_both (t i : loc) (o : obj) (h h' : heap) :
  agree t h h' ->
  footprint t (<[i := o]> h) = footprint t h ->
  agree t (<[i := o]> h) (<[i := o]> h').
Proof.
  intros [HL H] Hf. split; [by rewrite !length_insert|].
  intros l Hl. rewrite Hf in Hl. by apply same_insert; auto.
Qed.

Lemma agree_app_both (t : loc) (k : heap) (h h' : heap) :
  agree t h h' ->
  footprint t (h ++ k)%list = footprint t h ->
  agree t (h ++ k)%list (h' ++ k)%list.
Proof.
  intros [HL H] Hf. split; [by rewrite !length_app, HL|].
  intros l Hl. rewrite Hf in Hl. by apply same_app; auto.
Qed.

Lemma agree_prices (t : loc) (h h' : heap) (model : string) (lu : loc)
    (c : num) :
  agree t h h' ->
  h !! t = Some (OTracker model lu c) ->
  pricing_input h (getModelPricing model)
  = pricing_input h' (getModelPricing model)
  /\ pricing_output h (getModelPricing model)
     = pricing_output h' (getModelPricing model).
Proof.
  intros [HL H] Ht. unfold footprint in H. rewrite Ht in H.
  destruct (getModelPricing model) as [l|]; simpl; [|done].
  rewrite <- (H l) by (simpl; auto). done.
Qed.

Lemma footprint_app (t : loc) (h k : heap) (o : obj) :
  h !! t = Some o -> footprint t (h ++ k)%list = footprint t h.
Proof.
  intros Ht. unfold footprint.
  rewrite lookup_app_l by (eapply lookup_lt_Some; eauto). reflexivity.
Qed.

(** Heaps that agree on what the tracker reads give the same answer to a
    call, and agree afterwards. *)
Lemma run_call_agree (t : loc) (c : call) (h h' : heap) :
  agree t h h' ->
  fst (run_call t c h) = fst (run_call t c h')
  /\ agree t (snd (run_call t c h)) (snd (run_call t c h')).
Proof.
  intros Hag. pose proof Hag as [HL H].
  pose proof (H t (footprint_has_tracker t h)) as Ht.
  destruct (h !! t) as [ot|] eqn:Eh;
    [|destruct c; simpl;
      unfold addUsage, getTotalCost, getFormattedCost, getTotalCost,
        getTotalUsage, tracker_usage, getSummary;
      rewrite <- Ht, Eh; simpl; auto].
  destruct ot as [| | | | model lu cost];
    try (destruct c; simpl;
         unfold addUsage, getTotalCost, getFormattedCost, getTotalCost,
           getTotalUsage, tracker_usage, getSummary;
         rewrite <- Ht, Eh; simpl; auto; fail).
  assert (Hlu : h !! lu = h' !! lu).
  { apply H. unfold footprint. rewrite Eh. simpl. auto. }
  destruct (h !! lu) as [ou|] eqn:Eu;
    [|destruct c; simpl;
      unfold addUsage, getTotalCost, getFormattedCost, getTotalCost,
        getTotalUsage, tracker_usage, getSummary;
      rewrite <- Ht, Eh, <- ?Hlu, ?Eu; simpl; auto].
  destruct ou as [| u | | |];
    try (destruct c; simpl;
         unfold addUsage, getTotalCost, getFormattedCost, getTotalCost,
           getTotalUsage, tracker_usage, getSummary;
         rewrite <- Ht, Eh, <- ?Hlu, ?Eu; simpl; auto; fail).
  assert (Hne : lu <> t) by congruence.
  destruct (agree_prices _ _ _ _ _ _ Hag Eh) as [Hpi Hpo].
  destruct c as [a| | | |].
  - (* addUsage *)
    simpl. unfold addUsage. rewrite <- Ht, Eh, <- Hlu, Eu. simpl.
    split; [reflexivity|]. fold (usage_plus u a).
    assert (Hag1 : agree t (<[lu := OUsage (usage_plus u a)]> h)
                           (<[lu := OUsage (usage_plus u a)]> h')).
    { apply agree_insert_both; [exact Hag|].
      unfold footprint. by rewrite list_lookup_insert_ne. }
    assert (Et1 : <[lu := OUsage (usage_plus u a)]> h !! t
                  = Some (OTracker model lu cost))
      by (by rewrite list_lookup_insert_ne).
    destruct (agree_prices _ _ _ _ _ _ Hag1 Et1) as [Hpi1 Hpo1].
    unfold calculateCost. rewrite <- Hpi1, <- Hpo1.
    apply agree_insert_both; [exact Hag1|].
    eapply footprint_tracker; [exact Et1|].
    apply list_lookup_insert_eq. rewrite length_insert.
    eapply lookup_lt_Some; eauto.
  - simpl. unfold getTotalCost. rewrite <- Ht, Eh. auto.
  - simpl. unfold getFormattedCost, getTotalCost. rewrite <- Ht, Eh. auto.
  - (* getTotalUsage *)
    simpl. unfold getTotalUsage, tracker_usage, alloc.
    rewrite <- Ht, Eh, <- Hlu, Eu. simpl. split.
    + f_equal. rewrite !list_lookup_middle; auto.
    + apply agree_app_both; [exact Hag|]. eapply footprint_app; eauto.
  - (* getSummary *)
    unfold run_call, getSummary, alloc.
    rewrite <- Ht, Eh, <- Hlu, Eu, <- Hpi, <- Hpo, <- !app_assoc, !length_app,
      <- HL.
    cbn [fst snd List.length app].
    set (b := OBreakdown _ _). set (s := OSummary _ _ _ _ _ _).
    assert (Hag2 : agree t (h ++ [OUsage u; b; s])%list
                           (h' ++ [OUsage u; b; s])%list).
    { apply agree_app_both; [exact Hag|]. eapply footprint_app; eauto. }
    split; [|exact Hag2].
    assert (Et2 : (h ++ [OUsage u; b; s])%list !! t
                  = Some (OTracker model lu cost)).
    { rewrite lookup_app_l; [exact Eh|]. eapply lookup_lt_Some; eauto. }
    destruct (agree_prices _ _ _ _ _ _ Hag2 Et2) as [Hpi2 Hpo2].
    assert (Hhi : forall i, (List.length h <= i)%nat ->
                            (h' ++ [OUsage u; b; s])%list !! i
                            = (h ++ [OUsage u; b; s])%list !! i).
    { intros i Hi. rewrite !lookup_app_r by lia. rewrite <- HL. reflexivity. }
    f_equal. unfold read_summary.
    rewrite (Hhi (List.length h + (1 + 1))%nat) by lia.
    rewrite lookup_app_r by lia.
    replace (List.length h + (1 + 1) - List.length h)%nat with 2%nat by lia.
    subst s. cbn [lookup list_lookup].
    rewrite <- Hpi2, <- Hpo2, !Hhi by lia. reflexivity.
Qed.

Lemma run_calls_agree (t : loc) (cs : list call) :
  forall h h', agree t h h' -> run_calls t cs h = run_calls t cs h'.
Proof.
  induction cs as [|c cs IH]; intros h h' Hag; simpl; [reflexivity|].
  destruct (run_call_agree t c h h' Hag) as [Ha Hag'].
  destruct (run_call t c h) as [a h2], (run_call t c h') as [a' h2'].
  simpl in *. subst a'. f_equal. by apply IH.
Qed.

Lemma footprint_bound (t : loc) (h : heap) :
  tracker_wf t h -> forall l, In l (footprint t h) -> (l < List.length h)%nat.
Proof.
  intros (model & lu & c & u & Ht & Hu & Hp) l. unfold footprint. rewrite Ht.
  simpl. intros [<-|[<-|Hl]].
  - eapply lookup_lt_Some; eauto.
  - eapply lookup_lt_Some; eauto.
  - destruct (getModelPricing model) as [pl|] eqn:E; simpl in Hl; [|tauto].
    destruct Hl as [<-|[]]. by apply Hp.
Qed.

(** Assignments to objects allocated after the tracker's own leave every
    later answer as it would have been. *)
Lemma fresh_objects_unread (t : loc) (h k : heap) (ws : list (loc * obj))
    (cs : list call) :
  tracker_wf t h ->
  Forall (fun w => (List.length h <= fst w)%nat) ws ->
  run_calls t cs (mutate ws (h ++ k)%list) = run_calls t cs (h ++ k)%list.
Proof.
  intros Hwf Hws. symmetry. apply run_calls_agree. apply agree_mutate.
  pose proof Hwf as (model & lu & c & u & Ht & _).
  rewrite (footprint_app t h k _ Ht).
  eapply Forall_impl; [exact Hws|]. intros [l o] Hl Hin. simpl in *.
  apply (footprint_bound _ _ Hwf) in Hin. lia.
Qed.

(** C9 (as amended). The object returned by [getTotalUsage], and the summary
    returned by [getSummary] together with its [usage] and [breakdown]
    objects, are new objects: after any assignments to them, every later
    call of [addUsage], [getTotalCost], [getFormattedCost], [getTotalUsage]
    and [getSummary] answers as it would have without the assignments.
    (The summary's [pricing] is not among these objects.) *)
Theorem returned_objects_are_copies (t : loc) (h : heap) :
  tracker_wf t h ->
  (forall r h1 ws cs,
      getTotalUsage t h = Some (r, h1) ->
      Forall (fun w => fst w = r) ws ->
      run_calls t cs (mutate ws h1) = run_calls t cs h1)
  /\ (forall s h1 ws cs,
         getSummary t h = Some (s, h1) ->
         Forall (fun w => In (fst w) (summary_objects s h1)) ws ->
         run_calls t cs (mutate ws h1) = run_calls t cs h1).
Proof.
  intros Hwf. pose proof Hwf as (model & lu & c & u & Ht & Hu & Hp). split.
  - intros r h1 ws cs Hget Hws. unfold getTotalUsage, tracker_usage, alloc in Hget.
    rewrite Ht, Hu in Hget. injection Hget as <- <-.
    apply fresh_objects_unread; [exact Hwf|].
    eapply Forall_impl; [exact Hws|]. intros w ->. lia.
  - intros s h1 ws cs Hget Hws. unfold getSummary, alloc in Hget.
    rewrite Ht, Hu in Hget. injection Hget as <- <-.
    rewrite <- !app_assoc in *. cbn [app] in *.
    apply fresh_objects_unread; [exact Hwf|].
    eapply Forall_impl; [exact Hws|]. intros w Hw.
    unfold summary_objects in Hw. rewrite !length_app in Hw.
    cbn [List.length] in Hw.
    rewrite lookup_app_r in Hw by lia.
    match type of Hw with
    | context [(?n - ?m)%nat] => replace (n - m)%nat with 2%nat in Hw by lia
    end.
    cbn [lookup list_lookup] in Hw. simpl in Hw.
    destruct Hw as [<-|[<-|[<-|[]]]]; lia.
Qed.

Lemma sample_tracker_wf : tracker_wf sample_tracker sample_heap.
Proof.
  exists "gpt-4", 18%nat, (Fin 0), usage_zero.
  split; [reflexivity|]. split; [reflexivity|].
  intros l. vm_compute. intros [= <-]. lia.
Qed.

Lemma returned_objects_are_copies_witness :
  tracker_wf sample_tracker sample_heap
  /\ (forall r h1 ws cs,
         getTotalUsage sample_tracker sample_heap = Some (r, h1) ->
         Forall (fun w => fst w = r) ws ->
         run_calls sample_tracker cs (mutate ws h1)
         = run_calls sample_tracker cs h1)
  /\ (forall s h1 ws cs,
         getSummary sample_tracker sample_heap = Some (s, h1) ->
         Forall (fun w => In (fst w) (summary_objects s h1)) ws ->
         run_calls sample_tracker cs (mutate ws h1)
         = run_calls sample_tracker cs h1).
Proof.
  split; [exact sample_tracker_wf|].
  apply (returned_objects_are_copies sample_tracker sample_heap).
  exact sample_tracker_wf.
Defined.

(** C9, counterexample. The [pricing] of a summary is the pricing object of
    the module itself: after an assignment to it through the summary (here
    both prices set to 0), the tracker's next [addUsage] computes another
    cost ([$0.0000] where it would have been [$0.06]). *)
Lemma summary_pricing_is_shared :
  exists s h1 usage cost formatted breakdown,
    getSummary sample_tracker sample_heap = Some (s, h1)
    /\ h1 !! s = Some (OSummary "gpt-4" (PRef 4%nat) usage cost formatted
                                breakdown)
    /\ run_calls sample_tracker
         [CallAddUsage {| arg_promptTokens := Some 1000%Z;
                          arg_completionTokens := Some 500%Z;
                          arg_totalTokens := Some 1500%Z |};
          CallGetFormattedCost]
         (mutate [(4%nat, OPricing (Fin 0) (Fin 0))] h1)
       <> run_calls sample_tracker
            [CallAddUsage {| arg_promptTokens := Some 1000%Z;
                             arg_completionTokens := Some 500%Z;
                             arg_totalTokens := Some 1500%Z |};
             CallGetFormattedCost] h1.
Proof.
  do 6 eexists. split; [reflexivity|]. split; [reflexivity|].
  vm_compute. discriminate.
Qed.

(** ** The content generator *)

Lemma requests_of_app (tr tr' : list event) :
  requests_of (tr ++ tr') = (requests_of tr ++ requests_of tr')%list.
Proof. unfold requests_of. apply omap_app. Qed.

Lemma bind_ok {A B} (m : M A) (k : A -> M B) (w w' : World) (a : A) :
  m w = (Ok a, w') -> bind m k w = k a w'.
Proof. intros H. unfold bind. by rewrite H. Qed.

Lemma bind_throw {A B} (m : M A) (k : A -> M B) (w w' : World) (e : JsError) :
  m w = (Throw e, w') -> bind m k w = (Throw e, w').
Proof. intros H. unfold bind. by rewrite H. Qed.

(** The [try] block of one attempt, when the call is a failed attempt. *)
Lemma try_block_fails (client : Client) (o : ChunkOptions) (w : World)
    (e : JsError) :
  failure_of (client (requests_of (w_trace w)) (chunk_request o)) = Some e ->
  bind (create client (chunk_request o))
       (fun completion =>
          match generated_text completion with
          | None => throw (Error_ EMPTY_RESPONSE)
          | Some text =>
              ret {| chunk_content := text;
                     chunk_usage := extract_usage completion |}
          end) w
  = (Throw e, log (EvRequest (chunk_request o)) w).
Proof.
  unfold failure_of, bind, create.
  destruct (client _ _) as [c|e']; [|by intros [= ->]].
  destruct (generated_text c); [discriminate|]. by intros [= <-].
Qed.

(** C10. With [maxRetries = 0] the loop body never runs: [generateChunk]
    throws the exhaustion error for 0 attempts with [Unknown error] as the
    underlying message, and the world is as before: the client was not
    invoked. *)
Theorem generateChunk_zero_retries (client : Client) (o : ChunkOptions)
    (w : World) :
  co_maxRetries o = Some 0%nat ->
  generateChunk client o w
  = (Throw (Error_ "Failed to generate content after 0 attempts: Unknown error"),
     w).
Proof. intros H. unfold generateChunk. rewrite H. reflexivity. Qed.

Lemma generateChunk_zero_retries_witness :
  co_maxRetries (sample_chunk_options (Some 0%nat)) = Some 0%nat
  /\ generateChunk empty_client (sample_chunk_options (Some 0%nat)) initial_world
     = (Throw (Error_ "Failed to generate content after 0 attempts: Unknown error"),
        initial_world).
Proof.
  split; [reflexivity|].
  apply (generateChunk_zero_retries empty_client
           (sample_chunk_options (Some 0%nat)) initial_world).
  reflexivity.
Defined.

(** One failed attempt that is not an authentication failure: the loop goes
    on to the next attempt, one request later, with that failure as the last
    error; the heap and the file system are as before. *)
Lemma attempt_fails (client : Client) (o : ChunkOptions) (maxRetries : nat)
    (retryDelay : Z) (remaining attempt : nat) (lastError : option JsError)
    (w : World) (e : JsError) :
  failure_of (client (requests_of (w_trace w)) (chunk_request o)) = Some e ->
  err_status e <> Some 401%Z ->
  exists w1,
    attempts client o maxRetries retryDelay (S remaining) attempt lastError w
    = attempts client o maxRetries retryDelay remaining (S attempt) (Some e) w1
    /\ requests_of (w_trace w1)
       = (requests_of (w_trace w) ++ [chunk_request o])%list
    /\ w_heap w1 = w_heap w /\ w_fs w1 = w_fs w
    /\ exists tr, w_trace w1 = (w_trace w ++ EvRequest (chunk_request o) :: tr)%list
                  /\ requests_of tr = [].
Proof.
  intros Hf Hs. cbn [attempts]. unfold try_catch at 1.
  rewrite (try_block_fails _ _ _ _ Hf).
  rewrite bool_decide_eq_false_2 by exact Hs.
  set (w0 := log (EvRequest (chunk_request o)) w).
  assert (Hr0 : requests_of (w_trace w0)
                = (requests_of (w_trace w) ++ [chunk_request o])%list)
    by (unfold w0, log; simpl; by rewrite requests_of_app).
  destruct (bool_decide (err_status e = Some 429%Z)).
  - eexists. split; [reflexivity|]. unfold log. simpl.
    rewrite !requests_of_app. simpl. rewrite !app_nil_r.
    repeat split; auto.
    eexists. rewrite <- !app_assoc. simpl. split; reflexivity.
  - destruct (attempt <? maxRetries)%nat.
    + eexists. split; [reflexivity|]. unfold log. simpl.
      rewrite !requests_of_app. simpl. rewrite !app_nil_r.
      repeat split; auto.
      eexists. rewrite <- !app_assoc. simpl. split; reflexivity.
    + exists w0. split; [reflexivity|]. repeat split; auto.
      exists []. split; reflexivity.
Qed.

(** When every call is a failed attempt (no authentication failure), the
    loop runs through its remaining iterations, one request each, and throws
    the exhaustion error with the last failure. *)
Lemma attempts_all_fail (client : Client) (o : ChunkOptions) (maxRetries : nat)
    (retryDelay : Z) :
  always_fails client ->
  forall (remaining attempt : nat) (lastError : option JsError) (w : World),
  exists w',
    attempts client o maxRetries retryDelay remaining attempt lastError w
    = (Throw (exhausted maxRetries
                (match remaining with
                 | O => lastError
                 | S k => failure_after client (requests_of (w_trace w))
                                        (chunk_request o) k
                 end)), w')
    /\ requests_of (w_trace w')
       = (requests_of (w_trace w) ++ replicate remaining (chunk_request o))%list
    /\ w_heap w' = w_heap w /\ w_fs w' = w_fs w.
Proof.
  intros Hfail. induction remaining as [|k IH]; intros attempt lastError w.
  - exists w. simpl. rewrite app_nil_r. auto.
  - destruct (Hfail (requests_of (w_trace w)) (chunk_request o)) as (e & He & Hs).
    destruct (attempt_fails client o maxRetries retryDelay k attempt lastError
                w e He Hs) as (w1 & Hstep & Hreq & Hh & Hfs & _).
    destruct (IH (S attempt) (Some e) w1) as (w' & Hrun & Hreq' & Hh' & Hfs').
    exists w'. rewrite Hstep, Hrun, Hreq', Hreq, <- app_assoc. simpl.
    split; [|split; [reflexivity | split; congruence]].
    f_equal. f_equal. destruct k as [|k']; [|unfold failure_after].
    + unfold failure_after. simpl. rewrite app_nil_r. by rewrite He.
    + rewrite <- app_assoc. reflexivity.
Qed.






(** An attempt that fails with an authentication failure ends the loop at
    once, whatever attempts remain. *)
Lemma attempt_unauthorized (client : Client) (o : ChunkOptions)
    (maxRetries : nat) (retryDelay : Z) (remaining attempt : nat)
    (lastError : option JsError) (w : World) (e : JsError) :
  client (requests_of (w_trace w)) (chunk_request o) = Rejected e ->
  err_status e = Some 401%Z ->
  attempts client o maxRetries retryDelay (S remaining) attempt lastError w
  = (Throw (Error_ "Invalid OpenAI API key"),
     log (EvRequest (chunk_request o)) w).
Proof.
  intros Hc Hs. cbn [attempts]. unfold try_catch.
  rewrite (try_block_fails client o w e) by (unfold failure_of; by rewrite Hc).
  by rewrite bool_decide_eq_true_2.
Qed.

(** Failed attempts, then an authentication failure at the call after [k]
    requests: the loop ends there. *)
Lemma attempts_until_unauthorized (client : Client) (o : ChunkOptions)
    (maxRetries : nat) (retryDelay : Z) (e : JsError) :
  err_status e = Some 401%Z ->
  forall (k remaining attempt : nat) (lastError : option JsError) (w : World),
    (forall j, (j < k)%nat ->
               exists e', failure_after client (requests_of (w_trace w))
                                        (chunk_request o) j = Some e'
                          /\ err_status e' <> Some 401%Z) ->
    client (requests_of (w_trace w) ++ replicate k (chunk_request o))%list
           (chunk_request o) = Rejected e ->
    exists tr,
      attempts client o maxRetries retryDelay (S (k + remaining)) attempt
               lastError w
      = (Throw (Error_ "Invalid OpenAI API key"),
         {| w_heap := w_heap w; w_fs := w_fs w;
            w_trace := (w_trace w ++ tr ++ [EvRequest (chunk_request o)])%list |})
      /\ requests_of tr = replicate k (chunk_request o).
Proof.
  intros Hs. induction k as [|k IH]; intros remaining attempt lastError w Hprev Hc.
  - simpl in Hc. rewrite app_nil_r in Hc. exists [].
    rewrite (attempt_unauthorized _ _ _ _ _ _ _ _ _ Hc Hs). auto.
  - destruct (Hprev 0%nat) as (e0 & He0 & Hs0); [lia|].
    unfold failure_after in He0. simpl in He0. rewrite app_nil_r in He0.
    destruct (attempt_fails client o maxRetries retryDelay (S (k + remaining))
                attempt lastError w e0 He0 Hs0)
      as (w1 & Hstep & Hreq & Hh & Hfs & tr1 & Htr1 & Hq1).
    destruct (IH remaining (S attempt) (Some e0) w1) as (tr & Hrun & Hq).
    + intros j Hj. destruct (Hprev (S j)) as (e' & He' & Hs'); [lia|].
      exists e'. split; [|exact Hs']. unfold failure_after in *.
      rewrite Hreq, <- app_assoc. exact He'.
    + rewrite Hreq, <- app_assoc. exact Hc.
    + exists (EvRequest (chunk_request o) :: tr1 ++ tr)%list.
      replace (S k + remaining)%nat with (S (k + remaining)) by lia.
      rewrite Hstep, Hrun, Hh, Hfs, Htr1.
      split.
      * f_equal. f_equal. rewrite <- !app_assoc. simpl.
        rewrite <- !app_assoc. reflexivity.
      * simpl. rewrite requests_of_app, Hq1, Hq. reflexivity.
Qed.

(** A first attempt that yields text: [generateChunk] returns it with the
    usage of the response, after that one request. *)
Lemma generateChunk_first_success (client : Client) (o : ChunkOptions)
    (w : World) (c : Completion) (text : string) :
  (1 <= default 3%nat (co_maxRetries o))%nat ->
  client (requests_of (w_trace w)) (chunk_request o) = Resolved c ->
  generated_text c = Some text ->
  generateChunk client o w
  = (Ok {| chunk_content := text; chunk_usage := extract_usage c |},
     log (EvRequest (chunk_request o)) w).
Proof.
  intros Hn Hc Ht. unfold generateChunk.
  destruct (default 3%nat (co_maxRetries o)) as [|n]; [lia|].
  cbn [attempts]. unfold try_catch, bind, create. by rewrite Hc, Ht.
Qed.




Lemma progress_indices_deliveries (ds : list Delivery) :
  progress_indices (List.concat (map delivery_events ds)) = map d_index ds.
Proof.
  induction ds as [|d ds IH]; [reflexivity|].
  simpl. unfold progress_indices in *. simpl. by rewrite IH.
Qed.


Lemma counting_client_succeeds : always_succeeds counting_client.
Proof. intros hist r. eexists _, _. split; reflexivity. Qed.


Example generateSection_three_chunks :
  exists w',
    generateSection counting_client (sample_section_options "launch_emails" 3)
                    initial_world
    = (Ok {| out_chunks := ["Content chunk 1"; "Content chunk 2";
                            "Content chunk 3"];
             out_totalUsage := {| promptTokens := 300; completionTokens := 150;
                                  totalTokens := 450 |} |}, w')
    /\ progress_indices (w_trace w') = [0; 1; 2]%nat.
Proof. eexists. split; vm_compute; reflexivity. Qed.

(** ** Runs and their traces *)

Section Respects.

Variable R : World -> World -> Prop.
Hypothesis R_refl : forall w, R w w.
Hypothesis R_trans : forall w1 w2 w3, R w1 w2 -> R w2 w3 -> R w1 w3.

Lemma respects_ret {A} (a : A) : respects R (ret a).
Proof. intros w r w' [= _ <-]. apply R_refl. Qed.

Lemma respects_throw {A} (e : JsError) : respects R (@throw A e).
Proof. intros w r w' [= _ <-]. apply R_refl. Qed.

Lemma respects_bind {A B} (m : M A) (k : A -> M B) :
  respects R m -> (forall a, respects R (k a)) -> respects R (bind m k).
Proof.
  intros Hm Hk w r w'. unfold bind.
  destruct (m w) as [[a|e] w1] eqn:E.
  - intros H. eapply R_trans; [eapply Hm; eauto | eapply Hk; eauto].
  - intros [= _ <-]. eapply Hm; eauto.
Qed.

Lemma respects_try_catch {A} (m : M A) (handler : JsError -> M A) :
  respects R m -> (forall e, respects R (handler e)) ->
  respects R (try_catch m handler).
Proof.
  intros Hm Hh w r w'. unfold try_catch.
  destruct (m w) as [[a|e] w1] eqn:E.
  - intros [= _ <-]. eapply Hm; eauto.
  - intros H. eapply R_trans; [eapply Hm; eauto | eapply Hh; eauto].
Qed.

Lemma respects_get_fs : respects R get_fs.
Proof. intros w r w' [= _ <-]. apply R_refl. Qed.

Lemma respects_for_each {A B} (f : A -> B -> M B) (xs : list A) :
  Forall (fun x => forall acc, respects R (f x acc)) xs ->
  forall acc, respects R (for_each f xs acc).
Proof.
  induction 1 as [|x xs Hx Hxs IH]; intros acc; simpl.
  - apply respects_ret.
  - apply respects_bind; [apply Hx | apply IH].
Qed.

End Respects.

Lemma extends_by_refl (P : event -> Prop) (w : World) : extends_by P w w.
Proof. exists []. by rewrite app_nil_r. Qed.

Lemma extends_by_trans (P : event -> Prop) (w1 w2 w3 : World) :
  extends_by P w1 w2 -> extends_by P w2 w3 -> extends_by P w1 w3.
Proof.
  intros (g1 & H1 & F1) (g2 & H2 & F2). exists (g1 ++ g2)%list.
  rewrite H2, H1, app_assoc. split; [reflexivity | by apply Forall_app].
Qed.

Lemma quietly_refl (P : event -> Prop) (w : World) : quietly P w w.
Proof. split; [reflexivity | apply extends_by_refl]. Qed.

Lemma quietly_trans (P : event -> Prop) (w1 w2 w3 : World) :
  quietly P w1 w2 -> quietly P w2 w3 -> quietly P w1 w3.
Proof.
  intros [F1 E1] [F2 E2]. split; [congruence|].
  eapply extends_by_trans; eauto.
Qed.

Lemma quietly_emit (P : event -> Prop) (e : event) :
  P e -> respects (quietly P) (emit e).
Proof.
  intros He w r w' [= _ <-]. split; [reflexivity|].
  exists [e]. split; [reflexivity | by constructor].
Qed.

Lemma quietly_on_heap (P : event -> Prop) {A} (f : heap -> option (A * heap)) :
  respects (quietly P) (on_heap f).
Proof.
  intros w r w'. unfold on_heap. destruct (f (w_heap w)) as [[a h']|].
  - intros [= _ <-]. split; [reflexivity|]. exists []. simpl.
    by rewrite app_nil_r.
  - intros [= _ <-]. apply quietly_refl.
Qed.

Lemma quietly_create (client : Client) (r : Request) :
  respects (quietly (attempt_event r)) (create client r).
Proof.
  intros w res w'. unfold create.
  destruct (client _ _); intros [= _ <-]; (split; [reflexivity|]);
    exists [EvRequest r]; (split; [reflexivity|]); by constructor.
Qed.

Create HintDb quiet.
#[local] Hint Resolve quietly_refl quietly_trans extends_by_refl extends_by_trans
  : quiet.

Ltac quiet_step :=
  first
    [ apply respects_ret; auto with quiet
    | apply respects_throw; auto with quiet
    | apply respects_get_fs; auto with quiet
    | apply quietly_on_heap
    | apply quietly_create
    | apply quietly_emit; simpl; auto
    | apply respects_bind; [solve [eauto with quiet] | | intros ?]
    | apply respects_try_catch; [solve [eauto with quiet] | | intros ?] ].

(** The attempts of [generateChunk] touch nothing on disk; their events are
    requests for that chunk, waits and warnings. *)
Lemma attempts_quiet (client : Client) (o : ChunkOptions) (maxRetries : nat)
    (retryDelay : Z) :
  forall remaining attempt lastError,
    respects (quietly (attempt_event (chunk_request o)))
             (attempts client o maxRetries retryDelay remaining attempt
                       lastError).
Proof.
  induction remaining as [|k IH]; intros attempt lastError; cbn [attempts].
  - quiet_step.
  - quiet_step.
    + quiet_step; [quiet_step|]. destruct (generated_text a); quiet_step.
    + destruct (bool_decide _); [quiet_step|].
      destruct (bool_decide _).
      * unfold console_warn, sleep. repeat quiet_step. apply IH.
      * quiet_step; [|apply IH].
        destruct (_ <? _)%nat; unfold console_warn, sleep; repeat quiet_step.
Qed.

Lemma generateChunk_quiet (client : Client) (o : ChunkOptions) :
  respects (quietly (attempt_event (chunk_request o))) (generateChunk client o).
Proof. apply attempts_quiet. Qed.

(** A chunk that [generateChunk] returns is text the client resolved one of
    its calls with. *)
Lemma attempts_ok_yields (client : Client) (o : ChunkOptions) (maxRetries : nat)
    (retryDelay : Z) :
  forall remaining attempt lastError w chunk w',
    attempts client o maxRetries retryDelay remaining attempt lastError w
    = (Ok chunk, w') ->
    exists hist c,
      client hist (chunk_request o) = Resolved c
      /\ generated_text c = Some (chunk_content chunk).
Proof.
  induction remaining as [|k IH]; intros attempt lastError w chunk w';
    cbn [attempts]; [discriminate|].
  unfold try_catch, bind at 1, create.
  destruct (client (requests_of (w_trace w)) (chunk_request o)) as [c|e] eqn:Hc.
  - destruct (generated_text c) as [text|] eqn:Ht.
    + intros [= <- _]. exists (requests_of (w_trace w)), c. auto.
    + unfold throw. simpl.
      destruct (_ <? _)%nat; unfold bind, console_warn, sleep, emit, ret;
        apply IH.
  - destruct (bool_decide _); [discriminate|].
    destruct (bool_decide _).
    + unfold bind, console_warn, sleep, emit. apply IH.
    + destruct (_ <? _)%nat; unfold bind, console_warn, sleep, emit, ret;
        apply IH.
Qed.

Lemma generation_of_attempt (r : Request) (e : event) :
  attempt_event r e -> generation_event e.
Proof. destruct e; simpl; tauto. Qed.

(** The chunk loop of [processSection]: when it returns, it has added one
    text per iteration, the file system is as it was, and the trace has
    grown by the phases of these chunks. *)
Lemma chunk_loop_phases (client : Client) (section : Section_) (total : nat)
    (config : Config) (costTracker : loc) :
  forall remaining i contents w contents' w',
    chunk_loop client section total config costTracker remaining i contents w
    = (Ok contents', w') ->
    w_fs w' = w_fs w
    /\ exists texts g,
        contents' = (contents ++ texts)%list
        /\ List.length texts = remaining
        /\ w_trace w' = (w_trace w ++ g)%list
        /\ Forall generation_event g
        /\ phases client section total config i texts g.
Proof.
  induction remaining as [|k IH]; intros i contents w contents' w'.
  - intros [= <- <-]. split; [reflexivity|]. exists [], [].
    rewrite !app_nil_r. repeat split; auto. constructor.
  - cbn [chunk_loop]. unfold bind at 1.
    destruct (generateChunk client (process_chunk_options section total config i) w)
      as [[chunk|e] w1] eqn:Hgen; [|discriminate].
    destruct (generateChunk_quiet client _ _ _ _ Hgen) as [Hfs1 (g1 & Hg1 & HF1)].
    destruct (attempts_ok_yields _ _ _ _ _ _ _ _ _ _ Hgen) as (hist & c & Hc & Ht).
    unfold bind at 1.
    destruct (on_heap _ w1) as [[[]|e] w2] eqn:Hadd; [|discriminate].
    destruct (quietly_on_heap (fun _ => False) _ _ _ _ Hadd)
      as [Hfs2 (g2 & Hg2 & HF2)].
    unfold bind at 1.
    destruct (on_heap _ w2) as [[cost|e] w3] eqn:Hcost; [|discriminate].
    destruct (quietly_on_heap (fun _ => False) _ _ _ _ Hcost)
      as [Hfs3 (g3 & Hg3 & HF3)].
    assert (g2 = []) as -> by (destruct g2 as [|x ?]; [done | by inversion HF2]).
    assert (g3 = []) as -> by (destruct g3 as [|x ?]; [done | by inversion HF3]).
    rewrite app_nil_r in Hg2, Hg3.
    unfold bind at 1, emit.
    intros Hrest. apply IH in Hrest as [Hfs4 (texts & g & -> & Hlen & Hg & HF & Hph)].
    split; [simpl in Hfs4; congruence|].
    exists (chunk_content chunk :: texts),
           (g1 ++ EvProgressBar
                    (label section ++ " - Chunk " ++ pretty (i + 1)%nat ++ "/"
                     ++ pretty total) cost :: g)%list.
    split; [by rewrite <- app_assoc|]. split; [simpl; by rewrite Hlen|].
    split.
    { rewrite Hg. unfold log. simpl. rewrite Hg3, Hg2, Hg1, <- !app_assoc.
      reflexivity. }
    split.
    { apply Forall_app. split.
      - eapply Forall_impl; [exact HF1|]. apply generation_of_attempt.
      - constructor; [exact I | exact HF]. }
    eapply phases_chunk; eauto.
Qed.

(** *** The packaging steps *)







Lemma node_ind_nested (P : node -> Prop) :
  (forall c, P (File c)) ->
  (forall es, Forall (fun e => P (snd e)) es -> P (Dir es)) ->
  forall n, P n.
Proof.
  intros Hfile Hdir. fix IH 1. intros [c|es]; [apply Hfile|].
  apply Hdir. induction es as [|[k v] es IHes]; constructor; [apply IH | exact IHes].
Qed.









Lemma append_inv (s a b : string) : s ++ a = s ++ b -> a = b.
Proof. induction s as [|ch s IH]; simpl; [auto|]. intros [= H]. auto. Qed.

Lemma path_join_inv (dir : path) (a b : string) :
  path_join dir a = path_join dir b -> a = b.
Proof. unfold path_join. intros H. apply app_inv_head in H. congruence. Qed.






(** *** What the section archive holds *)

Lemma assoc_set_same {A} (k : string) (v : A) (l : list (string * A)) :
  assoc k (assoc_set k v l) = Some v.
Proof.
  induction l as [|[k' v'] l IH]; simpl.
  - by rewrite String.eqb_refl.
  - destruct (String.eqb k' k) eqn:E; simpl; rewrite E; auto.
Qed.

Lemma write_node_lookup (p : path) (c : content) :
  forall n n', write_node p c n = Some n' -> lookup_node p n' = Some (File c).
Proof.
  induction p as [|x p IH]; intros n n'; [by destruct n|].
  destruct n as [c0|es]; [by destruct p|].
  destruct p as [|y p].
  - cbn [write_node]. destruct (assoc x es) as [[|]|]; intros H;
      inversion H; subst; cbn [lookup_node]; by rewrite assoc_set_same.
  - change (write_node (x :: y :: p) c (Dir es))
      with (match assoc x es with
            | Some child =>
                match write_node (y :: p) c child with
                | Some child' => Some (Dir (assoc_set x child' es))
                | None => None
                end
            | None => None
            end).
    destruct (assoc x es) as [child|]; [|discriminate].
    destruct (write_node (y :: p) c child) as [child'|] eqn:E; [|discriminate].
    intros [= <-]. cbn [lookup_node]. rewrite assoc_set_same.
    eapply IH; eauto.
Qed.

Lemma fs_writeFile_lookup (p : path) (c : content) (w w' : World) :
  fs_writeFile p c w = (Ok tt, w') -> lookup_node p (w_fs w') = Some (File c).
Proof.
  unfold fs_writeFile, bind, get_fs, emit, put_fs. simpl.
  destruct (write_node p c (w_fs w)) as [fs'|] eqn:E; intros [= <-].
  simpl. eapply write_node_lookup; eauto.
Qed.

Lemma writeFile_lookup (p : path) (c : content) (w w' : World) :
  writeFile p c w = (Ok tt, w') -> lookup_node p (w_fs w') = Some (File c).
Proof.
  unfold writeFile, bind at 1.
  destruct (fs_ensureDir (dirname p) w) as [[[]|e] w1]; [|discriminate].
  apply fs_writeFile_lookup.
Qed.

Lemma lookup_node_app (p : path) (x : string) (v : node) :
  forall n, lookup_node (path_join p x) n = Some v ->
            exists es, lookup_node p n = Some (Dir es) /\ assoc x es = Some v.
Proof.
  unfold path_join. induction p as [|y p IH]; intros n; simpl.
  - destruct n as [c|es]; [discriminate|].
    destruct (assoc x es) as [child|] eqn:E; [|discriminate].
    intros [= <-]. eauto.
  - destruct n as [c|es]; [discriminate|].
    destruct (assoc y es) as [child|]; [apply IH | discriminate].
Qed.

Lemma zip_get_file (name name' : path) (c : content) (zip : Zip) :
  zip_get name' (zip_file name c zip)
  = if bool_decide (name = name') then Some c else zip_get name' zip.
Proof.
  induction zip as [|[n c0] zip IH]; simpl; [reflexivity|].
  destruct (decide (n = name)) as [->|Hne].
  - rewrite bool_decide_eq_true_2 by reflexivity. simpl.
    destruct (bool_decide (name = name')); reflexivity.
  - rewrite (bool_decide_eq_false_2 (n = name)) by exact Hne. simpl. rewrite IH.
    destruct (decide (n = name')) as [->|Hne'].
    + rewrite bool_decide_eq_true_2 by reflexivity.
      rewrite bool_decide_eq_false_2 by congruence. reflexivity.
    + rewrite (bool_decide_eq_false_2 (n = name')) by exact Hne'. reflexivity.
Qed.

Lemma zip_get_In (name : path) (c : content) (zip : Zip) :
  zip_get name zip = Some c -> In (name, c) zip.
Proof.
  induction zip as [|[n c0] zip IH]; simpl; [discriminate|].
  destruct (bool_decide (n = name)) eqn:E.
  - apply bool_decide_eq_true_1 in E. intros [= ->]. left. by subst.
  - auto.
Qed.

Lemma assoc_In {A} (k : string) (v : A) (l : list (string * A)) :
  assoc k l = Some v -> In (k, v) l.
Proof.
  induction l as [|[k' v'] l IH]; simpl; [discriminate|].
  destruct (String.eqb k' k) eqn:E; [|auto].
  apply String.eqb_eq in E. intros [= ->]. left. by subst.
Qed.

Lemma fs_readFile_ok (p : path) (w w' : World) (c : content) :
  fs_readFile p w = (Ok c, w') ->
  lookup_node p (w_fs w) = Some (File c) /\ w_fs w' = w_fs w.
Proof.
  unfold fs_readFile, bind, emit, get_fs, log. simpl.
  destruct (lookup_node p (w_fs w)) as [[c0|es]|]; intros [= <- <-]; auto.
Qed.

(** The unfiltered, non-recursive walk of a directory: every name that is a
    file of the directory ends in the archive with the content of that
    file. *)
Lemma walk_adds_files (dirPath zipPath : path) :
  forall (es : list (string * node)) (zip : Zip) (w : World) (zip' : Zip)
         (w' : World),
    for_each
      (fun entry zip =>
         match entry with
         | (file, child) =>
             match child with
             | Dir _ => ret zip
             | File _ =>
                 c <- fs_readFile (path_join dirPath file) ;;
                 ret (zip_file (path_join zipPath file) c zip)
             end
         end) es zip w = (Ok zip', w') ->
    w_fs w' = w_fs w
    /\ forall name c,
        lookup_node (path_join dirPath name) (w_fs w) = Some (File c) ->
        zip_get (path_join zipPath name) zip = Some c
        \/ (exists c0, In (name, File c0) es) ->
        zip_get (path_join zipPath name) zip' = Some c.
Proof.
  induction es as [|[file child] es IH]; intros zip w zip' w'.
  - intros [= <- <-]. split; [reflexivity|].
    intros name c _ [H|(c0 & [])]. exact H.
  - cbn [for_each]. destruct child as [c1|sub].
    + unfold bind at 1. unfold bind at 1.
      destruct (fs_readFile (path_join dirPath file) w) as [[c2|e] w1] eqn:Er;
        [|discriminate].
      destruct (fs_readFile_ok _ _ _ _ Er) as [Hl Hfs]. unfold ret at 1.
      intros Hrest. apply IH in Hrest as [Hfs' Hall].
      split; [congruence|]. intros name c Hname Hor.
      apply Hall; [by rewrite Hfs|]. rewrite zip_get_file.
      destruct (decide (file = name)) as [->|Hne].
      * left. rewrite bool_decide_eq_true_2 by reflexivity. congruence.
      * rewrite bool_decide_eq_false_2
          by (intros H; apply path_join_inv in H; contradiction).
        destruct Hor as [H|(c0 & [H|H])]; [by left | congruence | right; eauto].
    + unfold bind at 1, ret at 1. intros Hrest.
      apply IH in Hrest as [Hfs' Hall]. split; [exact Hfs'|].
      intros name c Hname Hor. apply Hall; [exact Hname|].
      destruct Hor as [H|(c0 & [H|H])]; [by left | discriminate | right; eauto].
Qed.

(** With both flags false [createSectionZip] filters nothing: every file of
    the section directory is in the archive it writes. *)
Lemma createSectionZip_unfiltered (o : SectionZipOptions) (w w' : World)
    (out : path) (name : string) (c : content) :
  sz_includeSourceFiles o = Some false ->
  sz_includePdfs o = Some false ->
  createSectionZip o w = (Ok out, w') ->
  lookup_node (path_join (sz_sectionDir o) name) (w_fs w) = Some (File c) ->
  exists zip,
    lookup_node out (w_fs w') = Some (File (ZipData zip))
    /\ In ([sz_sectionId o; name], c) zip.
Proof.
  intros Hsrc Hpdf Hrun Hfile. unfold createSectionZip in Hrun.
  rewrite Hsrc, Hpdf in Hrun. cbn [default app List.length Nat.ltb Nat.leb] in Hrun.
  unfold addDirectoryToZip in Hrun. unfold bind at 1 in Hrun.
  unfold bind at 1, get_fs in Hrun.
  destruct (lookup_node_app _ _ _ _ Hfile) as (es & Hdir & Hname).
  rewrite Hdir in Hrun. cbn [addTree default] in Hrun.
  unfold bind at 1, emit in Hrun.
  match type of Hrun with
  | context [for_each ?f es [] ?w0] =>
      destruct (for_each f es [] w0) as [[zip|e] w1] eqn:Ewalk;
        [|discriminate]
  end.
  destruct (walk_adds_files _ _ _ _ _ _ _ Ewalk) as [Hfs Hall].
  unfold bind at 1, writeZipToFile, generateZipBuffer in Hrun.
  unfold bind at 1 in Hrun.
  destruct (fs_ensureDir _ w1) as [[[]|e] w2]; [|discriminate].
  destruct (fs_writeFile _ (ZipData zip) w2) as [[[]|e] w3] eqn:Ew;
    [|discriminate].
  unfold ret in Hrun. injection Hrun as <- <-.
  exists zip. split; [by apply (fs_writeFile_lookup _ _ _ _ Ew)|].
  apply zip_get_In. apply (Hall name c); [exact Hfile|].
  right. exists c. by apply assoc_In.
Qed.

(** Every run of [processSection] with [generatePDFs = false] that returns
    has written a section archive that holds the combined text file. *)
Lemma section_archive_holds_combined_text (client : Client)
    (section : Section_) (n : nat) (config : Config) (outputDir : path)
    (costTracker : loc) (w : World) (res : SectionResult) (w' : World) :
  cfg_generatePDFs config = false ->
  processSection client section n config outputDir costTracker w = (Ok res, w') ->
  exists texts zip,
    List.length texts = n
    /\ lookup_node (zipPath res) (w_fs w') = Some (File (ZipData zip))
    /\ In ([id section; id section ++ ".txt"],
           Text (Str.join SEPARATOR texts)) zip.
Proof.
  intros Hpdf Hrun. unfold processSection in Hrun. rewrite Hpdf in Hrun.
  unfold bind at 1 in Hrun. unfold ensureDirectory in Hrun.
  destruct (fs_ensureDir _ w) as [[[]|e] w1]; [|discriminate].
  unfold bind at 1 in Hrun.
  destruct (chunk_loop client section n config costTracker n 0 [] w1)
    as [[contents|e] w2] eqn:E2; [|discriminate].
  destruct (chunk_loop_phases _ _ _ _ _ _ _ _ _ _ _ E2)
    as [_ (texts & gen & -> & Hlen & _)].
  simpl app in Hrun. unfold bind at 1 in Hrun.
  destruct (writeFile _ (Text (Str.join SEPARATOR texts)) w2)
    as [[[]|e] w3] eqn:E3; [|discriminate].
  apply writeFile_lookup in E3.
  unfold bind at 1, ret at 1 in Hrun. unfold bind at 1 in Hrun.
  match type of Hrun with
  | context [createSectionZip ?o w3] =>
      destruct (createSectionZip o w3) as [[out|e] w4] eqn:E4; [|discriminate];
      destruct (createSectionZip_unfiltered o w3 w4 out (id section ++ ".txt")
                  (Text (Str.join SEPARATOR texts)) eq_refl eq_refl E4 E3)
        as (zip & Hzip & Hin)
  end.
  unfold ret in Hrun. injection Hrun as <- <-.
  exists texts, zip. auto.
Qed.

(** C1, the code at the failing input. With [includeSourceFiles = false] and
    [includePdfs = false] the list of extensions is empty, which
    [createSectionZip] passes on as "no filter": the archive then holds
    every file of the section directory.  In the end-to-end run with
    [generatePDFs = false] the section archive holds the combined text
    file. *)
Theorem section_zip_holds_text :
  lookup_node ["work"; "launch_emails.zip"] (w_fs (snd sample_run))
  = Some (File (ZipData
                  [(["launch_emails"; "launch_emails.txt"],
                    Text (Str.join SEPARATOR
                            ["Content chunk 1"; "Content chunk 2"]))]))
  /\ fst (createSectionZip
            {| sz_sectionId := "test_section";
               sz_sectionDir := ["section"]; sz_outputDir := [];
               sz_includeSourceFiles := Some false;
               sz_includePdfs := Some false |}
            {| w_heap := []; w_trace := [];
               w_fs := Dir [("section",
                             Dir [("chunk_01.txt", File (Text "Chunk 1"));
                                  ("chunk_01.pdf", File (Pdf "" "PDF 1"))])] |})
     = Ok ["test_section.zip"]
  /\ lookup_node ["test_section.zip"]
       (w_fs (snd (createSectionZip
            {| sz_sectionId := "test_section";
               sz_sectionDir := ["section"]; sz_outputDir := [];
               sz_includeSourceFiles := Some false;
               sz_includePdfs := Some false |}
            {| w_heap := []; w_trace := [];
               w_fs := Dir [("section",
                             Dir [("chunk_01.txt", File (Text "Chunk 1"));
                                  ("chunk_01.pdf", File (Pdf "" "PDF 1"))])] |})))
     = Some (File (ZipData
                     [(["test_section"; "chunk_01.txt"], Text "Chunk 1");
                      (["test_section"; "chunk_01.pdf"], Pdf "" "PDF 1")])).
Proof. repeat split; vm_compute; reflexivity. Qed.

(** *** The coordinator *)

Lemma section_work_known (sel : list string) (co : list (string * nat)) :
  section_work (List.filter known_section sel) co = section_work sel co.
Proof.
  induction sel as [|sid sel IH]; [reflexivity|].
  cbn [List.filter section_work]. unfold known_section at 1.
  destruct (getSectionById sid) as [section|] eqn:E.
  - rewrite bool_decide_eq_true_2 by eauto.
    cbn [section_work]. rewrite E. by rewrite IH.
  - rewrite bool_decide_eq_false_2 by (by intros []).
    exact IH.
Qed.

Lemma bind_ext {A B} (m : M A) (k k' : A -> M B) (w : World) :
  (forall a w1, k a w1 = k' a w1) -> bind m k w = bind m k' w.
Proof. intros H. unfold bind. destruct (m w) as [[a|e] w1]; auto. Qed.

Lemma bind_cong {A B} (m m' : M A) (k k' : A -> M B) (w : World) :
  m w = m' w -> (forall a w1, k a w1 = k' a w1) -> bind m k w = bind m' k' w.
Proof. intros Hm H. unfold bind. rewrite Hm. destruct (m' w) as [[a|e] w1]; auto. Qed.

(** [processSection] reads of the configuration only the generation
    settings and [generatePDFs]: another selection of sections changes
    nothing in it. *)
Lemma process_all_selection (client : Client) (outputDir : path)
    (costTracker : loc) (rootFolder : string) (out : path) (model : string)
    (temperature : Q) (maxTokens maxRetries : nat) (retryDelay : Z)
    (generatePDFs : bool) (branding : Branding)
    (sel sel' : option (list string)) (co : option (list (string * nat))) :
  forall work results w,
    process_all client work
      {| cfg_rootFolder := rootFolder; cfg_outputDir := out;
         cfg_model := model; cfg_temperature := temperature;
         cfg_maxTokens := maxTokens; cfg_maxRetries := maxRetries;
         cfg_retryDelay := retryDelay; cfg_generatePDFs := generatePDFs;
         cfg_branding := branding; cfg_selectedSections := sel;
         cfg_chunkOverrides := co |} outputDir costTracker results w
    = process_all client work
        {| cfg_rootFolder := rootFolder; cfg_outputDir := out;
           cfg_model := model; cfg_temperature := temperature;
           cfg_maxTokens := maxTokens; cfg_maxRetries := maxRetries;
           cfg_retryDelay := retryDelay; cfg_generatePDFs := generatePDFs;
           cfg_branding := branding; cfg_selectedSections := sel';
           cfg_chunkOverrides := co |} outputDir costTracker results w.
Proof.
  set (c := {| cfg_selectedSections := sel |}).
  set (c' := {| cfg_selectedSections := sel' |}).
  assert (Hloop : forall section total remaining i contents w,
             chunk_loop client section total c costTracker remaining i contents w
             = chunk_loop client section total c' costTracker remaining i
                          contents w).
  { intros section total. induction remaining as [|k IH]; intros i contents w;
      [reflexivity|].
    cbn [chunk_loop].
    change (process_chunk_options section total c i)
      with (process_chunk_options section total c' i).
    apply bind_ext. intros a w1. apply bind_ext. intros _ w2.
    apply bind_ext. intros cost w3. apply bind_ext. intros _ w4. apply IH. }
  assert (Hsec : forall section n w,
             processSection client section n c outputDir costTracker w
             = processSection client section n c' outputDir costTracker w).
  { intros section n w. unfold processSection. apply bind_ext. intros _ w1.
    apply bind_cong; [apply Hloop | reflexivity]. }
  induction work as [|[section n] work IH]; intros results w; [reflexivity|].
  cbn [process_all]. apply bind_cong; [|intros; apply IH].
  unfold try_catch. by rewrite Hsec.
Qed.

(** C5 (as amended). [generateSection] called with an id that the catalog
    does not have throws [Unknown section ID: <id>] at once: the world is
    as before, no request was made.  [build] raises no error for such an id:
    it passes over it when it lists its work, so the run is the run of the
    configuration without the unknown ids, and nothing is requested or
    written for them. *)
Theorem unknown_section_id (client : Client) (o : SectionOptions)
    (cwd : path) (env : Env) (config : UserConfig) (apiKey : option string)
    (sel : list string) (w : World) :
  getSectionById (so_sectionId o) = None ->
  user_selectedSections config = Some sel ->
  generateSection client o w
  = (Throw (Error_ ("Unknown section ID: " ++ so_sectionId o)), w)
  /\ build cwd env client config apiKey w
     = build cwd env client (select_sections (List.filter known_section sel) config)
             apiKey w.
Proof.
  intros Hnone Hsel. split.
  - unfold generateSection. by rewrite Hnone.
  - destruct config as [c1 c2 c3 c4 c5 c6 c7 c8 c9 c10 c11].
    simpl in Hsel. subst.
    unfold build, mergeConfig, with_env, select_sections.
    cbn [user_rootFolder user_outputDir user_model user_temperature
         user_maxTokens user_maxRetries user_retryDelay user_generatePDFs
         user_branding user_selectedSections user_chunkOverrides
         cfg_rootFolder cfg_outputDir cfg_model cfg_temperature cfg_maxTokens
         cfg_maxRetries cfg_retryDelay cfg_generatePDFs cfg_branding
         cfg_selectedSections cfg_chunkOverrides].
    change (default (map id SECTIONS) (Some (List.filter known_section sel)))
      with (List.filter known_section sel).
    change (default (map id SECTIONS) (Some sel)) with sel.
    rewrite section_work_known.
    apply bind_ext. intros _ w1. apply bind_ext. intros _ w2.
    apply bind_ext. intros costTracker w3.
    apply bind_cong; [|reflexivity].
    apply process_all_selection.
Qed.

Lemma unknown_section_id_witness :
  getSectionById
    (so_sectionId (sample_section_options "unknown_section_xyz" 1)) = None
  /\ generateSection counting_client
       (sample_section_options "unknown_section_xyz" 1) initial_world
     = (Throw (Error_ ("Unknown section ID: "
                       ++ so_sectionId
                            (sample_section_options "unknown_section_xyz" 1))),
        initial_world)
  /\ build ["work"] sample_env counting_client
           (sample_config ["unknown_section_xyz"; "launch_emails"])
           (Some "sk-test") initial_world
     = build ["work"] sample_env counting_client
             (select_sections
                (List.filter known_section
                             ["unknown_section_xyz"; "launch_emails"])
                (sample_config ["unknown_section_xyz"; "launch_emails"]))
             (Some "sk-test") initial_world.
Proof.
  split; [reflexivity|].
  apply (unknown_section_id counting_client
           (sample_section_options "unknown_section_xyz" 1) ["work"] sample_env
           (sample_config ["unknown_section_xyz"; "launch_emails"])
           (Some "sk-test") ["unknown_section_xyz"; "launch_emails"]
           initial_world); reflexivity.
Defined.

(** C5, counterexample. A configuration that names [unknown_section_xyz]
    does not make the run fail: [build] returns, having processed the other
    section. *)
Lemma build_passes_over_unknown_section :
  getSectionById "unknown_section_xyz" = None
  /\ exists r w',
      build ["work"] sample_env counting_client
            (sample_config ["unknown_section_xyz"; "launch_emails"])
            (Some "sk-test") initial_world = (Ok r, w')
      /\ map sectionId (br_sections r) = ["launch_emails"]
      /\ List.length (requests_of (w_trace w')) = 2%nat.
Proof.
  split; [reflexivity|].
  destruct (build ["work"] sample_env counting_client
              (sample_config ["unknown_section_xyz"; "launch_emails"])
              (Some "sk-test") initial_world) as [[r|e] w'] eqn:Hrun;
    vm_compute in Hrun; [|discriminate].
  injection Hrun as <- <-. eexists _, _. split; [reflexivity|].
  split; reflexivity.
Qed.










(* ================================================================== *)
(** * Part III: further properties                                    *)
(* ================================================================== *)

(** ** More on the cost calculator *)


(** X2. A model named like a property that every object inherits
    ([constructor], [toString], [__proto__], ...) passes the exact lookup
    of [getModelPricing] ([MODEL_PRICING[model]] is truthy) and gets an
    object without prices: the cost a tracker of such a model computes at
    the first [addUsage] is [NaN], and its formatted cost is [$NaN]. *)
Theorem inherited_name_costs_NaN (model : string) (a : UsageArg) (h0 : heap) :
  In model ObjectPrototypeKeys ->
  exists h',
    addUsage (fst (createCostTracker model h0)) a
             (snd (createCostTracker model h0)) = Some h'
    /\ getTotalCost (fst (createCostTracker model h0)) h' = Some NaN
    /\ getFormattedCost (fst (createCostTracker model h0)) h' = Some "$NaN".
Proof.
  intros Hin.
  destruct (createCostTracker_cells model h0) as (Et & Ht & Hu & Hlen & Hold).
  set (t := fst (createCostTracker model h0)) in *.
  set (h := snd (createCostTracker model h0)) in *.
  destruct (addUsage_step _ _ _ _ _ a _ Ht Hu) as (h' & Hadd & Ht' & _).
  exists h'. split; [exact Hadd|].
  assert (Hnan : forall h1 u, calculateCost h1 u model = NaN).
  { intros h1 u. unfold calculateCost.
    assert (Hp : exists n, getModelPricing model = PInherited n).
    { simpl in Hin.
      repeat (destruct Hin as [<-|Hin]; [eexists; reflexivity|]).
      destruct Hin. }
    destruct Hp as [n ->]. reflexivity. }
  unfold getFormattedCost, getTotalCost. rewrite Ht', Hnan. split; reflexivity.
Qed.

Lemma inherited_name_costs_NaN_witness :
  In "constructor" ObjectPrototypeKeys
  /\ exists h',
      addUsage (fst (createCostTracker "constructor" module_heap))
               {| arg_promptTokens := Some 1000%Z;
                  arg_completionTokens := Some 500%Z;
                  arg_totalTokens := Some 1500%Z |}
               (snd (createCostTracker "constructor" module_heap)) = Some h'
      /\ getTotalCost (fst (createCostTracker "constructor" module_heap)) h'
         = Some NaN
      /\ getFormattedCost (fst (createCostTracker "constructor" module_heap)) h'
         = Some "$NaN".
Proof.
  split; [simpl; tauto|].
  apply (inherited_name_costs_NaN "constructor" _ module_heap). simpl. tauto.
Defined.




(** X4. The prefix test of [getModelPricing] runs in both directions and
    the first match wins: a name that is no key of the table and whose
    lower-cased form is a prefix of the first key, [gpt-4-turbo] (the empty
    name, [GPT], [GPT-4]), gets the first entry, so that [GPT-4] is priced
    as [gpt-4-turbo] and not as [gpt-4]. *)
Theorem prefix_of_first_key (model : string) :
  MODEL_PRICING_get model = None ->
  String.prefix (Str.toLowerCase model) "gpt-4-turbo" = true ->
  getModelPricing model = PRef 0%nat
  /\ forall u, calculateCost module_heap u model
               = calculateCost module_heap u "gpt-4-turbo".
Proof.
  intros Hget Hpre.
  assert (H : getModelPricing model = PRef 0%nat).
  { unfold getModelPricing. rewrite Hget.
    change MODEL_PRICING
      with (("gpt-4-turbo", 0%nat) :: tail MODEL_PRICING).
    cbn [List.find fst]. unfold Str.startsWith at 2. rewrite Hpre.
    by rewrite orb_true_r. }
  split; [exact H|]. intros u. unfold calculateCost. by rewrite H.
Qed.

Lemma prefix_of_first_key_witness :
  MODEL_PRICING_get "GPT-4" = None
  /\ String.prefix (Str.toLowerCase "GPT-4") "gpt-4-turbo" = true
  /\ getModelPricing "GPT-4" = PRef 0%nat
  /\ forall u, calculateCost module_heap u "GPT-4"
               = calculateCost module_heap u "gpt-4-turbo".
Proof.
  split; [reflexivity|]. split; [reflexivity|].
  apply (prefix_of_first_key "GPT-4"); reflexivity.
Defined.

(** ** More on the content generator *)

(** Failed attempts, then text at the call after [k] requests: the loop
    returns that text. *)
Lemma attempts_until_success (client : Client) (o : ChunkOptions)
    (maxRetries : nat) (retryDelay : Z) (c : Completion) (text : string) :
  generated_text c = Some text ->
  forall (k remaining attempt : nat) (lastError : option JsError) (w : World),
    (forall j, (j < k)%nat ->
               exists e', failure_after client (requests_of (w_trace w))
                                        (chunk_request o) j = Some e'
                          /\ err_status e' <> Some 401%Z) ->
    client (requests_of (w_trace w) ++ replicate k (chunk_request o))%list
           (chunk_request o) = Resolved c ->
    exists w',
      attempts client o maxRetries retryDelay (S (k + remaining)) attempt
               lastError w
      = (Ok {| chunk_content := text; chunk_usage := extract_usage c |}, w')
      /\ requests_of (w_trace w')
         = (requests_of (w_trace w) ++ replicate (S k) (chunk_request o))%list
      /\ w_heap w' = w_heap w /\ w_fs w' = w_fs w.
Proof.
  intros Ht. induction k as [|k IH]; intros remaining attempt lastError w Hprev Hc.
  - simpl in Hc. rewrite app_nil_r in Hc.
    exists (log (EvRequest (chunk_request o)) w).
    cbn [attempts Nat.add]. unfold try_catch, bind, create. rewrite Hc, Ht.
    unfold ret, log. simpl. rewrite requests_of_app. auto.
  - destruct (Hprev 0%nat) as (e0 & He0 & Hs0); [lia|].
    unfold failure_after in He0. simpl in He0. rewrite app_nil_r in He0.
    destruct (attempt_fails client o maxRetries retryDelay (S (k + remaining))
                attempt lastError w e0 He0 Hs0)
      as (w1 & Hstep & Hreq & Hh & Hfs & _).
    destruct (IH remaining (S attempt) (Some e0) w1) as (w' & Hrun & Hq & Hh' & Hfs').
    + intros j Hj. destruct (Hprev (S j)) as (e' & He' & Hs'); [lia|].
      exists e'. split; [|exact Hs']. unfold failure_after in *.
      rewrite Hreq, <- app_assoc. exact He'.
    + rewrite Hreq, <- app_assoc. exact Hc.
    + exists w'. replace (S k + remaining)%nat with (S (k + remaining)) by lia.
      rewrite Hstep, Hrun, Hq, Hreq, <- app_assoc.
      split; [reflexivity|]. split; [reflexivity|]. split; congruence.
Qed.

(** X5. [generateChunk] retries: when the first [k] calls fail (none with an
    authentication failure), [k] is below [maxRetries] and the next call
    yields text, the result is that text with the usage of that response,
    after [k + 1] requests. *)
Theorem generateChunk_retries_until_success (client : Client)
    (o : ChunkOptions) (w : World) (k : nat) (c : Completion) (text : string) :
  (k < default 3%nat (co_maxRetries o))%nat ->
  (forall j, (j < k)%nat ->
             exists e, failure_after client (requests_of (w_trace w))
                                     (chunk_request o) j = Some e
                       /\ err_status e <> Some 401%Z) ->
  client (requests_of (w_trace w) ++ replicate k (chunk_request o))%list
         (chunk_request o) = Resolved c ->
  generated_text c = Some text ->
  exists w',
    generateChunk client o w
    = (Ok {| chunk_content := text; chunk_usage := extract_usage c |}, w')
    /\ requests_of (w_trace w')
       = (requests_of (w_trace w) ++ replicate (S k) (chunk_request o))%list
    /\ w_heap w' = w_heap w /\ w_fs w' = w_fs w.
Proof.
  intros Hk Hprev Hc Ht. unfold generateChunk.
  set (n := default 3%nat (co_maxRetries o)) in *.
  destruct (attempts_until_success client o n (default 1000%Z (co_retryDelay o))
              c text Ht k (n - S k)%nat 1%nat None w Hprev Hc)
    as (w' & Hrun & Hrest).
  replace (S (k + (n - S k)))%nat with n in Hrun by lia.
  exists w'. split; [exact Hrun | exact Hrest].
Qed.

Lemma generateChunk_retries_until_success_witness :
  (1 < default 3%nat (co_maxRetries (sample_chunk_options None)))%nat
  /\ exists w',
      generateChunk flaky_client (sample_chunk_options None) initial_world
      = (Ok {| chunk_content := "Content chunk 2";
               chunk_usage := {| promptTokens := 100; completionTokens := 50;
                                 totalTokens := 150 |} |}, w')
      /\ requests_of (w_trace w')
         = (requests_of (w_trace initial_world)
            ++ replicate 2 (chunk_request (sample_chunk_options None)))%list
      /\ w_heap w' = w_heap initial_world /\ w_fs w' = w_fs initial_world.
Proof.
  split; [simpl; lia|].
  apply (generateChunk_retries_until_success flaky_client
           (sample_chunk_options None) initial_world 1
           (completion_of (Some "Content chunk 2")
              (Some {| prompt_tokens := Some 100%Z;
                       completion_tokens := Some 50%Z;
                       total_tokens := Some 150%Z |}))
           "Content chunk 2").
  - simpl. lia.
  - intros j Hj. exists (Error_ "API Error").
    assert (j = 0%nat) as -> by lia. split; [reflexivity | discriminate].
  - reflexivity.
  - reflexivity.
Defined.

Lemma sleeps_of_app (tr tr' : list event) :
  sleeps_of (tr ++ tr') = (sleeps_of tr ++ sleeps_of tr')%list.
Proof. unfold sleeps_of. apply omap_app. Qed.

(** The waits of the loop when every call is rate limited: one after every
    attempt, the last one included. *)
Lemma attempts_rate_limited (client : Client) (o : ChunkOptions)
    (maxRetries : nat) (retryDelay : Z) :
  always_rate_limited client ->
  forall (remaining attempt : nat) (lastError : option JsError) (w : World),
  exists e w',
    attempts client o maxRetries retryDelay remaining attempt lastError w
    = (Throw e, w')
    /\ sleeps_of (w_trace w')
       = (sleeps_of (w_trace w)
          ++ map (fun a => retryDelay * Z.of_nat a * 2)%Z (seq attempt remaining))%list.
Proof.
  intros Hrl. induction remaining as [|k IH]; intros attempt lastError w.
  - eexists _, w. simpl. rewrite app_nil_r. split; reflexivity.
  - destruct (Hrl (requests_of (w_trace w)) (chunk_request o)) as (e & He & Hs).
    cbn [attempts]. unfold try_catch at 1.
    rewrite (try_block_fails client o w e) by (unfold failure_of; by rewrite He).
    rewrite bool_decide_eq_false_2 by (rewrite Hs; discriminate).
    rewrite bool_decide_eq_true_2 by exact Hs.
    unfold bind at 1, console_warn, emit at 1. unfold bind at 1, sleep, emit at 1.
    match goal with
    | |- context [attempts _ _ _ _ k (S attempt) (Some e) ?w1] =>
        destruct (IH (S attempt) (Some e) w1) as (e' & w' & Hrun & Hsl)
    end.
    exists e', w'. split; [exact Hrun|]. rewrite Hsl. unfold log. simpl.
    rewrite !sleeps_of_app. simpl. rewrite !app_nil_r, <- app_assoc. reflexivity.
Qed.

(** X6. A rate-limited attempt is followed by a wait of [retryDelay *
    attempt * 2] ms, also when it was the last attempt: against a client
    that is rate limited at every call [generateChunk] makes [maxRetries]
    requests, waits after each of them (the last wait is for nothing), and
    throws. *)
Theorem generateChunk_rate_limit_waits (client : Client) (o : ChunkOptions)
    (w : World) :
  always_rate_limited client ->
  exists e w',
    generateChunk client o w = (Throw e, w')
    /\ sleeps_of (w_trace w')
       = (sleeps_of (w_trace w)
          ++ map (fun a => default 1000%Z (co_retryDelay o) * Z.of_nat a * 2)%Z
                 (seq 1 (default 3%nat (co_maxRetries o))))%list
    /\ requests_of (w_trace w')
       = (requests_of (w_trace w)
          ++ replicate (default 3%nat (co_maxRetries o)) (chunk_request o))%list.
Proof.
  intros Hrl. unfold generateChunk.
  destruct (attempts_rate_limited client o (default 3%nat (co_maxRetries o))
              (default 1000%Z (co_retryDelay o)) Hrl
              (default 3%nat (co_maxRetries o)) 1%nat None w)
    as (e & w' & Hrun & Hsl).
  assert (Hfail : always_fails client).
  { intros hist r. destruct (Hrl hist r) as (e0 & He0 & Hs0).
    exists e0. unfold failure_of. rewrite He0. split; [reflexivity|].
    rewrite Hs0. discriminate. }
  destruct (attempts_all_fail client o (default 3%nat (co_maxRetries o))
              (default 1000%Z (co_retryDelay o)) Hfail
              (default 3%nat (co_maxRetries o)) 1%nat None w)
    as (w'' & Hrun' & Hreq & _).
  rewrite Hrun in Hrun'. injection Hrun' as _ <-.
  exists e, w'. auto.
Qed.

Lemma rate_limited_client_is : always_rate_limited rate_limited_client.
Proof. intros hist r. eexists. split; reflexivity. Qed.

Lemma generateChunk_rate_limit_waits_witness :
  always_rate_limited rate_limited_client
  /\ exists e w',
      generateChunk rate_limited_client (sample_chunk_options None) initial_world
      = (Throw e, w')
      /\ sleeps_of (w_trace w')
         = (sleeps_of (w_trace initial_world)
            ++ map (fun a => default 1000%Z
                               (co_retryDelay (sample_chunk_options None))
                             * Z.of_nat a * 2)%Z
                   (seq 1 (default 3%nat
                             (co_maxRetries (sample_chunk_options None)))))%list
      /\ requests_of (w_trace w')
         = (requests_of (w_trace initial_world)
            ++ replicate (default 3%nat (co_maxRetries (sample_chunk_options None)))
                         (chunk_request (sample_chunk_options None)))%list.
Proof.
  split; [exact rate_limited_client_is|].
  apply (generateChunk_rate_limit_waits rate_limited_client
           (sample_chunk_options None) initial_world).
  exact rate_limited_client_is.
Defined.

(** The waits of the loop when every call fails otherwise: one after every
    attempt but the last. *)
Lemma attempts_backoff (client : Client) (o : ChunkOptions)
    (maxRetries : nat) (retryDelay : Z) :
  always_errors client ->
  forall (remaining attempt : nat) (lastError : option JsError) (w : World),
  (attempt + remaining = S maxRetries)%nat ->
  exists e w',
    attempts client o maxRetries retryDelay remaining attempt lastError w
    = (Throw e, w')
    /\ sleeps_of (w_trace w')
       = (sleeps_of (w_trace w)
          ++ map (fun a => retryDelay * Z.of_nat a)%Z
                 (seq attempt (remaining - 1)))%list.
Proof.
  intros Herr. induction remaining as [|k IH]; intros attempt lastError w Hsum.
  - eexists _, w. simpl. rewrite app_nil_r. split; reflexivity.
  - destruct (Herr (requests_of (w_trace w)) (chunk_request o))
      as (e & He & Hs1 & Hs9).
    cbn [attempts]. unfold try_catch at 1.
    rewrite (try_block_fails client o w e He).
    rewrite bool_decide_eq_false_2 by exact Hs1.
    rewrite bool_decide_eq_false_2 by exact Hs9.
    destruct k as [|k'].
    + assert (Hlt : (attempt <? maxRetries)%nat = false)
        by (apply Nat.ltb_ge; lia).
      rewrite Hlt. unfold bind at 1, ret at 1. cbn [attempts].
      eexists _, _. split; [reflexivity|]. unfold log. simpl.
      rewrite sleeps_of_app. simpl. by rewrite !app_nil_r.
    + assert (Hlt : (attempt <? maxRetries)%nat = true)
        by (apply Nat.ltb_lt; lia).
      rewrite Hlt. unfold bind at 1. unfold bind at 1, console_warn, emit at 1.
      unfold sleep, emit at 1.
      match goal with
      | |- context [attempts _ _ _ _ (S k') (S attempt) (Some e) ?w1] =>
          destruct (IH (S attempt) (Some e) w1) as (e' & w' & Hrun & Hsl);
            [lia|]
      end.
      exists e', w'. split; [exact Hrun|]. rewrite Hsl. unfold log. simpl.
      rewrite !sleeps_of_app. simpl. rewrite !app_nil_r, <- app_assoc.
      rewrite Nat.sub_0_r. reflexivity.
Qed.

(** X7. Linear backoff: against a client whose every call fails (no
    authentication failure, no rate limit) [generateChunk] makes
    [maxRetries] requests, waits [retryDelay * attempt] ms after every
    attempt but the last, and nothing after the last one. *)
Theorem generateChunk_backoff (client : Client) (o : ChunkOptions) (w : World) :
  always_errors client ->
  exists e w',
    generateChunk client o w = (Throw e, w')
    /\ sleeps_of (w_trace w')
       = (sleeps_of (w_trace w)
          ++ map (fun a => default 1000%Z (co_retryDelay o) * Z.of_nat a)%Z
                 (seq 1 (default 3%nat (co_maxRetries o) - 1)))%list
    /\ requests_of (w_trace w')
       = (requests_of (w_trace w)
          ++ replicate (default 3%nat (co_maxRetries o)) (chunk_request o))%list.
Proof.
  intros Herr. unfold generateChunk.
  destruct (attempts_backoff client o (default 3%nat (co_maxRetries o))
              (default 1000%Z (co_retryDelay o)) Herr
              (default 3%nat (co_maxRetries o)) 1%nat None w)
    as (e & w' & Hrun & Hsl); [lia|].
  assert (Hfail : always_fails client).
  { intros hist r. destruct (Herr hist r) as (e0 & He0 & Hs0 & _). eauto. }
  destruct (attempts_all_fail client o (default 3%nat (co_maxRetries o))
              (default 1000%Z (co_retryDelay o)) Hfail
              (default 3%nat (co_maxRetries o)) 1%nat None w)
    as (w'' & Hrun' & Hreq & _).
  rewrite Hrun in Hrun'. injection Hrun' as _ <-.
  exists e, w'. auto.
Qed.

Lemma empty_client_always_errors : always_errors empty_client.
Proof.
  intros hist r. exists (Error_ EMPTY_RESPONSE).
  split; [reflexivity|]. split; discriminate.
Qed.

Lemma generateChunk_backoff_witness :
  always_errors empty_client
  /\ exists e w',
      generateChunk empty_client (sample_chunk_options None) initial_world
      = (Throw e, w')
      /\ sleeps_of (w_trace w')
         = (sleeps_of (w_trace initial_world)
            ++ map (fun a => default 1000%Z
                               (co_retryDelay (sample_chunk_options None))
                             * Z.of_nat a)%Z
                   (seq 1 (default 3%nat
                             (co_maxRetries (sample_chunk_options None)) - 1)))%list
      /\ requests_of (w_trace w')
         = (requests_of (w_trace initial_world)
            ++ replicate (default 3%nat (co_maxRetries (sample_chunk_options None)))
                         (chunk_request (sample_chunk_options None)))%list.
Proof.
  split; [exact empty_client_always_errors|].
  apply (generateChunk_backoff empty_client (sample_chunk_options None)
           initial_world).
  exact empty_client_always_errors.
Defined.

(** The loop of [generateSection] with a callback that throws at chunk [k]:
    the chunks up to [k] are requested and reported, then the loop ends with
    what the callback threw. *)
Lemma section_loop_callback_throws (client : Client) (o : SectionOptions)
    (section : Section_) (cb : Callback) (k : nat) (e : JsError) :
  (1 <= default 3%nat (so_maxRetries o))%nat ->
  so_onProgress o = Some cb ->
  (forall i text u, (i < k)%nat -> cb i text u = None) ->
  (forall text u, cb k text u = Some e) ->
  always_succeeds client ->
  forall (d i remaining : nat) (chunks : list string) (total : Usage) (w : World),
    (i + d = k)%nat -> (d < remaining)%nat ->
    section_loop client o section remaining i chunks total w
    = (Throw e,
       {| w_heap := w_heap w; w_fs := w_fs w;
          w_trace :=
            (w_trace w
             ++ List.concat
                  (map delivery_events
                       (deliveries client o section (requests_of (w_trace w))
                                   i (S d))))%list |}).
Proof.
  intros Hn Hcb Hret Hthrow Hok.
  induction d as [|d IH]; intros i remaining chunks total w Hik Hrem;
    (destruct remaining as [|rem]; [lia|]);
    cbn [deliveries section_loop];
    fold (section_chunk_options o section i);
    set (r := chunk_request (section_chunk_options o section i));
    destruct (Hok (requests_of (w_trace w)) r) as (c & text & Hc & Ht);
    rewrite Hc;
    rewrite (bind_ok _ _ _ _ _
               (generateChunk_first_success client
                  (section_chunk_options o section i) w c text Hn Hc Ht));
    cbn [chunk_content chunk_usage]; rewrite Hcb; unfold call_onProgress.
  - assert (i = k) by lia. subst i. rewrite Hthrow.
    unfold bind, emit, throw, log. simpl. rewrite Ht. simpl.
    rewrite <- ?app_assoc. reflexivity.
  - rewrite Hret by lia.
    unfold bind at 1. unfold bind at 1. unfold emit, ret.
    set (w1 := log (EvProgress i text (extract_usage c)) (log (EvRequest r) w)).
    assert (Hreq1 : requests_of (w_trace w1)
                    = (requests_of (w_trace w) ++ [r])%list).
    { unfold w1, log. simpl. rewrite !requests_of_app. simpl.
      by rewrite app_nil_r. }
    rewrite (IH (S i) rem _ _ w1) by lia. rewrite Hreq1.
    subst w1 r. unfold log. simpl. rewrite Ht. simpl.
    rewrite <- !app_assoc. reflexivity.
Qed.

Lemma deliveries_length (client : Client) (o : SectionOptions)
    (section : Section_) :
  always_succeeds client ->
  forall (n i : nat) (hist : list Request),
    List.length (deliveries client o section hist i n) = n.
Proof.
  intros Hok. induction n as [|n IH]; intros i hist; [reflexivity|].
  cbn [deliveries].
  destruct (Hok hist (chunk_request (section_chunk_options o section i)))
    as (c & text & -> & _).
  simpl. by rewrite IH.
Qed.

Lemma deliveries_indices (client : Client) (o : SectionOptions)
    (section : Section_) :
  always_succeeds client ->
  forall (n i : nat) (hist : list Request),
    map d_index (deliveries client o section hist i n) = seq i n.
Proof.
  intros Hok. induction n as [|n IH]; intros i hist; [reflexivity|].
  cbn [deliveries].
  destruct (Hok hist (chunk_request (section_chunk_options o section i)))
    as (c & text & -> & _).
  simpl. by rewrite IH.
Qed.

Lemma requests_of_deliveries (ds : list Delivery) :
  requests_of (List.concat (map delivery_events ds)) = map d_request ds.
Proof. induction ds as [|d ds IH]; [reflexivity|]. simpl. by rewrite <- IH. Qed.

(** X8. An [onProgress] that throws ends [generateSection]: when the callback
    throws at chunk [k], the chunks 0..k have been requested and reported in
    order, no later chunk is requested, and [generateSection] throws what
    the callback threw; the chunks generated so far are not returned. *)
Theorem generateSection_callback_throws (client : Client) (o : SectionOptions)
    (section : Section_) (cb : Callback) (k : nat) (e : JsError) (w : World) :
  getSectionById (so_sectionId o) = Some section ->
  (1 <= default 3%nat (so_maxRetries o))%nat ->
  so_onProgress o = Some cb ->
  (forall i text u, (i < k)%nat -> cb i text u = None) ->
  (forall text u, cb k text u = Some e) ->
  always_succeeds client ->
  (k < so_numChunks o)%nat ->
  exists w',
    generateSection client o w = (Throw e, w')
    /\ List.length (requests_of (w_trace w'))
       = (List.length (requests_of (w_trace w)) + S k)%nat
    /\ progress_indices (w_trace w')
       = (progress_indices (w_trace w) ++ seq 0 (S k))%list
    /\ w_fs w' = w_fs w.
Proof.
  intros Hsec Hn Hcb Hret Hthrow Hok Hk.
  unfold generateSection. rewrite Hsec.
  rewrite (section_loop_callback_throws client o section cb k e Hn Hcb Hret
             Hthrow Hok k 0 (so_numChunks o) [] usage_zero w) by lia.
  eexists. split; [reflexivity|]. cbn [w_trace w_fs].
  set (ds := deliveries client o section (requests_of (w_trace w)) 0 (S k)).
  split; [|split; [|reflexivity]].
  - rewrite requests_of_app, length_app, requests_of_deliveries, length_map.
    unfold ds. by rewrite deliveries_length.
  - unfold progress_indices at 1. rewrite omap_app.
    fold (progress_indices (w_trace w)).
    fold (progress_indices (List.concat (map delivery_events ds))).
    rewrite progress_indices_deliveries. f_equal.
    unfold ds. by rewrite deliveries_indices.
Qed.

Lemma generateSection_callback_throws_witness :
  getSectionById (so_sectionId (sample_section_options "launch_emails" 3))
  = Some sample_section
  /\ (1 < 3)%nat
  /\ exists w',
      generateSection counting_client
        {| so_sectionId := "launch_emails"; so_numChunks := 3;
           so_model := "gpt-4"; so_temperature := 0.7;
           so_branding := sample_branding;
           so_onProgress := Some (throwing_callback 1);
           so_maxRetries := None; so_retryDelay := None |} initial_world
      = (Throw (Error_ "callback failed"), w')
      /\ List.length (requests_of (w_trace w'))
         = (List.length (requests_of (w_trace initial_world)) + 2)%nat
      /\ progress_indices (w_trace w')
         = (progress_indices (w_trace initial_world) ++ seq 0 2)%list
      /\ w_fs w' = w_fs initial_world.
Proof.
  split; [reflexivity|]. split; [lia|].
  apply (generateSection_callback_throws counting_client
           {| so_sectionId := "launch_emails"; so_numChunks := 3;
              so_model := "gpt-4"; so_temperature := 0.7;
              so_branding := sample_branding;
              so_onProgress := Some (throwing_callback 1);
              so_maxRetries := None; so_retryDelay := None |}
           sample_section (throwing_callback 1) 1 (Error_ "callback failed")
           initial_world).
  - reflexivity.
  - simpl. lia.
  - reflexivity.
  - intros i text u Hi. unfold throwing_callback.
    assert (i = 0%nat) as -> by lia. reflexivity.
  - reflexivity.
  - exact counting_client_succeeds.
  - simpl. lia.
Defined.

(** The attempts leave the heap as it is. *)
Lemma attempts_same_heap (client : Client) (o : ChunkOptions)
    (maxRetries : nat) (retryDelay : Z) :
  forall remaining attempt lastError w r w',
    attempts client o maxRetries retryDelay remaining attempt lastError w
    = (r, w') ->
    w_heap w' = w_heap w.
Proof.
  induction remaining as [|k IH]; intros attempt lastError w r w';
    cbn [attempts].
  - by intros [= _ <-].
  - unfold try_catch, bind at 1, create.
    destruct (client _ _) as [c|e].
    + destruct (generated_text c).
      * by intros [= _ <-].
      * unfold throw. simpl.
        destruct (_ <? _)%nat; unfold bind, console_warn, sleep, emit, ret;
          intros H; apply IH in H; exact H.
    + destruct (bool_decide _); [by intros [= _ <-]|].
      destruct (bool_decide _).
      * unfold bind, console_warn, sleep, emit. intros H. apply IH in H. exact H.
      * destruct (_ <? _)%nat; unfold bind, console_warn, sleep, emit, ret;
          intros H; apply IH in H; exact H.
Qed.

(** The loop makes at most one request per remaining iteration. *)
Lemma attempts_bound (client : Client) (o : ChunkOptions) (maxRetries : nat)
    (retryDelay : Z) :
  forall remaining attempt lastError w,
    (List.length
       (requests_of
          (w_trace (snd (attempts client o maxRetries retryDelay remaining
                                  attempt lastError w))))
     <= List.length (requests_of (w_trace w)) + remaining)%nat.
Proof.
  induction remaining as [|k IH]; intros attempt lastError w; cbn [attempts].
  - simpl. lia.
  - assert (Hlog : forall w0 : World,
               List.length (requests_of (w_trace (log (EvRequest (chunk_request o)) w0)))
               = S (List.length (requests_of (w_trace w0)))).
    { intros w0. unfold log. simpl. rewrite requests_of_app, length_app.
      simpl. lia. }
    unfold try_catch, bind at 1, create.
    destruct (client _ _) as [c|e].
    + destruct (generated_text c).
      * unfold ret. cbn [snd]. rewrite Hlog. lia.
      * unfold throw. simpl.
        destruct (_ <? _)%nat; unfold bind, console_warn, sleep, emit, ret;
          (etransitivity; [apply IH|]); unfold log; simpl;
          rewrite !requests_of_app, !length_app; simpl; lia.
    + destruct (bool_decide _); [unfold throw; cbn [snd]; rewrite Hlog; lia|].
      destruct (bool_decide _).
      * unfold bind, console_warn, sleep, emit.
        (etransitivity; [apply IH|]); unfold log; simpl;
          rewrite !requests_of_app, !length_app; simpl; lia.
      * destruct (_ <? _)%nat; unfold bind, console_warn, sleep, emit, ret;
          (etransitivity; [apply IH|]); unfold log; simpl;
          rewrite !requests_of_app, !length_app; simpl; lia.
Qed.

(** X9. What [generateChunk] does, whatever the client answers and whether it
    returns or throws: it changes nothing on disk and nothing of the
    tracker; every event is a request for this chunk (always the same
    request), a wait or a warning; and it makes at most [maxRetries]
    requests. *)
Theorem generateChunk_footprint (client : Client) (o : ChunkOptions)
    (w : World) :
  w_fs (snd (generateChunk client o w)) = w_fs w
  /\ w_heap (snd (generateChunk client o w)) = w_heap w
  /\ (exists g,
         w_trace (snd (generateChunk client o w)) = (w_trace w ++ g)%list
         /\ Forall (attempt_event (chunk_request o)) g)
  /\ (List.length (requests_of (w_trace (snd (generateChunk client o w))))
      <= List.length (requests_of (w_trace w))
         + default 3%nat (co_maxRetries o))%nat.
Proof.
  destruct (generateChunk client o w) as [r w'] eqn:Hrun. cbn [snd].
  destruct (generateChunk_quiet client o _ _ _ Hrun) as [Hfs Hg].
  split; [exact Hfs|].
  split; [exact (attempts_same_heap _ _ _ _ _ _ _ _ _ _ Hrun)|].
  split; [exact Hg|].
  pose proof (attempts_bound client o (default 3%nat (co_maxRetries o))
                (default 1000%Z (co_retryDelay o))
                (default 3%nat (co_maxRetries o)) 1%nat None w) as Hb.
  unfold generateChunk in Hrun. rewrite Hrun in Hb. exact Hb.
Qed.

(** ** Archives of directories *)

(** An invariant of the accumulator and the world is kept by a loop whose
    every step keeps it. *)
Lemma for_each_inv {A B} (f : A -> B -> M B) (I : B -> World -> Prop)
    (xs : list A) :
  (forall x acc w acc' w',
      In x xs -> I acc w -> f x acc w = (Ok acc', w') -> I acc' w') ->
  forall acc w acc' w',
    I acc w -> for_each f xs acc w = (Ok acc', w') -> I acc' w'.
Proof.
  induction xs as [|x xs IH]; intros Hstep acc w acc' w' HI.
  - intros [= <- <-]. exact HI.
  - cbn [for_each]. unfold bind at 1.
    destruct (f x acc w) as [[acc1|e] w1] eqn:E; [|discriminate].
    apply IH.
    + intros y a v a' v' Hy. apply Hstep. by right.
    + eapply Hstep; [by left | exact HI | exact E].
Qed.

Lemma In_zip_file (name n : path) (c c0 : content) (zip : Zip) :
  In (name, c) (zip_file n c0 zip) -> (name = n /\ c = c0) \/ In (name, c) zip.
Proof.
  induction zip as [|[n1 c1] zip IH]; simpl.
  - intros [[= <- <-]|[]]. by left.
  - destruct (bool_decide (n1 = n)) eqn:E.
    + apply bool_decide_eq_true_1 in E. subst n1.
      intros [[= <- <-]|H]; [by left | right; by right].
    + intros [H|H]; [right; by left|].
      destruct (IH H) as [?|?]; [by left | right; by right].
Qed.

Lemma basename_path_join (dir : path) (name : string) :
  basename (path_join dir name) = name.
Proof. unfold basename, path_join. apply last_last. Qed.

Lemma basename_cons (x : string) (rel : path) :
  rel <> [] -> basename (x :: rel) = basename rel.
Proof. destruct rel; [congruence | reflexivity]. Qed.

(** Soundness of the walk: it leaves the file system as it is, and every
    entry of the archive it returns was there before or stands for a file
    below the directory. *)
Lemma addTree_sound (extensions : option (list string)) (recursive : bool)
    (n : node) :
  forall (dirPath zipPath : path) (zip : Zip) (w : World) (zip' : Zip)
         (w' : World),
    addTree extensions recursive n dirPath zipPath zip w = (Ok zip', w') ->
    w_fs w' = w_fs w
    /\ forall name c,
        In (name, c) zip' ->
        In (name, c) zip
        \/ from_tree extensions recursive (w_fs w) dirPath zipPath name c.
Proof.
  induction n as [c0|es IH] using node_ind_nested;
    intros dirPath zipPath zip w zip' w'; cbn [addTree]; [discriminate|].
  unfold bind at 1, emit at 1. intros Hrun.
  set (I := fun (z : Zip) (v : World) =>
              w_fs v = w_fs w
              /\ forall name c,
                  In (name, c) z ->
                  In (name, c) zip
                  \/ from_tree extensions recursive (w_fs w) dirPath zipPath
                               name c).
  refine (for_each_inv _ I es _ _ _ _ _ _ Hrun); [|split; [reflexivity | auto]].
  clear Hrun zip' w'. rewrite Forall_forall in IH.
  intros [file child] acc v acc' v' Hin [Hfs Hacc] Hstep.
  destruct child as [c1|sub].
  - destruct (filtered_out extensions file) eqn:Ef.
    + injection Hstep as <- <-. split; assumption.
    + unfold bind at 1 in Hstep.
      destruct (fs_readFile (path_join dirPath file) v) as [[c2|e] v1] eqn:Er;
        [|discriminate].
      injection Hstep as <- <-.
      destruct (fs_readFile_ok _ _ _ _ Er) as [Hl Hfs1].
      split; [congruence|]. intros name c Hc.
      apply In_zip_file in Hc as [[-> ->]|Hc]; [|by apply Hacc].
      right. exists [file]. rewrite Hfs in Hl.
      repeat split; auto; try discriminate.
  - destruct recursive eqn:Erec.
    + specialize (IH _ (proj2 (list_elem_of_In _ _) Hin)). simpl in IH.
      destruct (IH _ _ _ _ _ _ Hstep) as [Hfs1 Hsub].
      split; [congruence|]. intros name c Hc.
      destruct (Hsub _ _ Hc) as [Hold|(rel & Hne & -> & Hl & Hf & Hr)];
        [by apply Hacc|].
      right. exists (file :: rel). unfold path_join in *.
      rewrite <- !app_assoc in *. simpl in Hl. rewrite Hfs in Hl.
      split; [discriminate|]. split; [reflexivity|]. split; [exact Hl|].
      split; [by rewrite basename_cons | discriminate].
    + injection Hstep as <- <-. split; assumption.
Qed.
Lemma zip_file_keeps (name n : path) (c : content) (zip : Zip) :
  is_Some (zip_get name zip) -> is_Some (zip_get name (zip_file n c zip)).
Proof.
  intros H. rewrite zip_get_file. destruct (bool_decide (n = name)); eauto.
Qed.

Lemma zip_file_has (n : path) (c : content) (zip : Zip) :
  is_Some (zip_get n (zip_file n c zip)).
Proof. rewrite zip_get_file, bool_decide_eq_true_2 by reflexivity. eauto. Qed.

(** The walk removes no entry. *)
Lemma addTree_mono (extensions : option (list string)) (recursive : bool)
    (n : node) :
  forall (dirPath zipPath : path) (zip : Zip) (w : World) (zip' : Zip)
         (w' : World) (name : path),
    addTree extensions recursive n dirPath zipPath zip w = (Ok zip', w') ->
    is_Some (zip_get name zip) -> is_Some (zip_get name zip').
Proof.
  induction n as [c0|es IH] using node_ind_nested;
    intros dirPath zipPath zip w zip' w' name; cbn [addTree]; [discriminate|].
  unfold bind at 1, emit at 1. intros Hrun Hz.
  refine (for_each_inv _ (fun z _ => is_Some (zip_get name z)) es _ _ _ _ _ Hz Hrun).
  rewrite Forall_forall in IH.
  intros [file child] acc v acc' v' Hin Hacc Hstep. cbv beta in *.
  destruct child as [c1|sub].
  - destruct (filtered_out extensions file).
    + by injection Hstep as <- <-.
    + unfold bind at 1 in Hstep.
      destruct (fs_readFile (path_join dirPath file) v) as [[c2|e] v1];
        [|discriminate].
      injection Hstep as <- <-. by apply zip_file_keeps.
  - destruct recursive.
    + specialize (IH _ (proj2 (list_elem_of_In _ _) Hin)). simpl in IH.
      eapply IH; [exact Hstep | exact Hacc].
    + by injection Hstep as <- <-.
Qed.

(** A loop reaches what the step of one of its elements establishes and the
    other steps keep. *)
Lemma for_each_reach {A B} (f : A -> B -> M B) (J : World -> Prop)
    (P : B -> Prop) (x : A) (xs : list A) :
  In x xs ->
  (forall y acc w acc' w',
      In y xs -> J w -> f y acc w = (Ok acc', w') -> J w' /\ (P acc -> P acc')) ->
  (forall acc w acc' w', J w -> f x acc w = (Ok acc', w') -> P acc') ->
  forall acc w acc' w',
    J w -> for_each f xs acc w = (Ok acc', w') -> P acc'.
Proof.
  intros Hin Hkeep Hx. induction xs as [|y xs IH]; [destruct Hin|].
  intros acc w acc' w' HJ. cbn [for_each]. unfold bind at 1.
  destruct (f y acc w) as [[acc1|e] w1] eqn:E; [|discriminate].
  destruct (Hkeep y acc w acc1 w1 (or_introl eq_refl) HJ E) as [HJ1 Hk1].
  destruct Hin as [->|Hin].
  - intros Hrest.
    assert (HP1 : P acc1) by exact (Hx _ _ _ _ HJ E).
    refine (proj2 (for_each_inv f (fun z v => J v /\ P z) xs _ _ _ _ _ _ Hrest));
      [|by split].
    intros z a v a' v' Hz [HJv HPa] Hf.
    destruct (Hkeep z a v a' v' (or_intror Hz) HJv Hf). auto.
  - apply IH; auto. intros z a v a' v' Hz. apply Hkeep. by right.
Qed.

Lemma lookup_node_path_join (p : path) (x : string) (es : list (string * node))
    (child : node) :
  forall n, lookup_node p n = Some (Dir es) -> assoc x es = Some child ->
            lookup_node (path_join p x) n = Some child.
Proof.
  unfold path_join. induction p as [|y p IH]; intros n; simpl.
  - intros [= ->] ->. by destruct child.
  - destruct n as [c|es']; [discriminate|].
    destruct (assoc y es') as [ch|]; [apply IH | discriminate].
Qed.

Lemma lookup_node_append (p q : path) :
  forall n, lookup_node (p ++ q)%list n
            = match lookup_node p n with
              | Some m => lookup_node q m
              | None => None
              end.
Proof.
  induction p as [|y p IH]; intros n; simpl; [reflexivity|].
  destruct n as [c|es]; [reflexivity|].
  destruct (assoc y es) as [ch|]; [apply IH | reflexivity].
Qed.

(** Completeness of the walk: every file below the directory that the
    filter lets through (and, without [recursive], lies in the directory
    itself) has an entry in the archive returned. *)
Lemma addTree_complete (extensions : option (list string)) (recursive : bool)
    (n : node) :
  forall (dirPath zipPath : path) (zip : Zip) (w : World) (zip' : Zip)
         (w' : World) (rel : path) (c : content),
    addTree extensions recursive n dirPath zipPath zip w = (Ok zip', w') ->
    lookup_node dirPath (w_fs w) = Some n ->
    rel <> [] ->
    lookup_node rel n = Some (File c) ->
    filtered_out extensions (basename rel) = false ->
    (recursive = false -> List.length rel = 1%nat) ->
    is_Some (zip_get (zipPath ++ rel)%list zip').
Proof.
  induction n as [c0|es IH] using node_ind_nested;
    intros dirPath zipPath zip w zip' w' rel c; cbn [addTree]; [discriminate|].
  unfold bind at 1, emit at 1. intros Hrun Hdir Hne Hl Hf Hr.
  destruct rel as [|x rel]; [congruence|]. cbn [lookup_node] in Hl.
  destruct (assoc x es) as [child|] eqn:Ex; [|discriminate].
  pose proof (assoc_In _ _ _ Ex) as Hin.
  rewrite Forall_forall in IH.
  refine (for_each_reach _ (fun v => w_fs v = w_fs w)
            (fun z => is_Some (zip_get (zipPath ++ x :: rel)%list z))
            (x, child) es Hin _ _ _ (log (EvReadDir dirPath) w) _ _ eq_refl
            Hrun).
  - clear Hrun. intros [file ch] acc v acc' v' Hy Hfs Hstep.
    destruct ch as [c1|sub].
    + destruct (filtered_out extensions file).
      * injection Hstep as <- <-. auto.
      * unfold bind at 1 in Hstep.
        destruct (fs_readFile (path_join dirPath file) v) as [[c2|e] v1] eqn:Er;
          [|discriminate].
        injection Hstep as <- <-.
        destruct (fs_readFile_ok _ _ _ _ Er) as [_ Hfs1].
        split; [congruence | apply zip_file_keeps].
    + destruct recursive.
      * split; [|eapply addTree_mono; eauto].
        destruct (addTree_sound _ _ _ _ _ _ _ _ _ Hstep) as [Hfs1 _]. congruence.
      * injection Hstep as <- <-. auto.
  - clear Hrun. intros acc v acc' v' Hfs Hstep.
    destruct rel as [|y rel].
    + cbn [lookup_node] in Hl. injection Hl as ->.
      change (basename [x]) with x in Hf. rewrite Hf in Hstep.
      unfold bind at 1 in Hstep.
      destruct (fs_readFile (path_join dirPath x) v) as [[c2|e] v1];
        [|discriminate].
      injection Hstep as <- <-. apply zip_file_has.
    + destruct child as [c1|sub]; [discriminate|].
      destruct recursive; [|specialize (Hr eq_refl); simpl in Hr; lia].
      specialize (IH _ (proj2 (list_elem_of_In _ _) Hin)). simpl in IH.
      replace (zipPath ++ x :: y :: rel)%list
        with (path_join zipPath x ++ y :: rel)%list
        by (unfold path_join; by rewrite <- app_assoc).
      apply (IH _ _ _ _ _ _ (y :: rel) c Hstep).
      * rewrite Hfs. eapply lookup_node_path_join; eauto.
      * discriminate.
      * exact Hl.
      * by rewrite basename_cons in Hf.
      * discriminate.
Qed.

Lemma fs_readFile_reads (p : path) :
  respects (quietly read_event) (fs_readFile p).
Proof.
  intros w r w'. unfold fs_readFile, bind, emit, get_fs, log. simpl.
  destruct (lookup_node p (w_fs w)) as [[c|es]|]; intros [= _ <-];
    (split; [reflexivity|]); exists [EvReadFile p];
    (split; [reflexivity | by repeat constructor]).
Qed.

(** The walk reads: it makes no request and writes nothing. *)
Lemma addTree_reads (extensions : option (list string)) (recursive : bool)
    (n : node) :
  forall dirPath zipPath zip,
    respects (quietly read_event)
             (addTree extensions recursive n dirPath zipPath zip).
Proof.
  induction n as [c|es IH] using node_ind_nested; intros dirPath zipPath zip;
    cbn [addTree]; [quiet_step|].
  quiet_step; [quiet_step|].
  apply respects_for_each; [auto with quiet | eauto with quiet |].
  rewrite Forall_forall in IH. apply Forall_forall.
  intros [file child] Hin acc. pose proof (IH _ Hin) as Hchild. simpl in Hchild.
  destruct child as [c|sub].
  - destruct (filtered_out _ _); [quiet_step|].
    quiet_step; [apply fs_readFile_reads | quiet_step].
  - destruct recursive; [apply Hchild | quiet_step].
Qed.

Lemma addDirectoryToZip_reads (zip : Zip) (dirPath zipPath : path)
    (extensions : option (list string)) (recursive : option bool) :
  respects (quietly read_event)
           (addDirectoryToZip zip dirPath zipPath extensions recursive).
Proof.
  unfold addDirectoryToZip. quiet_step; [quiet_step|].
  destruct (lookup_node _ _); [apply addTree_reads | quiet_step].
Qed.

(** The walk from an empty archive is sound and complete. *)
Lemma addDirectoryToZip_entries (dirPath zipPath : path)
    (extensions : option (list string)) (recursive : option bool)
    (w : World) (zip : Zip) (w' : World) :
  addDirectoryToZip [] dirPath zipPath extensions recursive w = (Ok zip, w') ->
  w_fs w' = w_fs w
  /\ forall name c,
      zip_get name zip = Some c
      <-> from_tree extensions (default true recursive) (w_fs w) dirPath zipPath
                    name c.
Proof.
  unfold addDirectoryToZip, bind at 1, get_fs.
  destruct (lookup_node dirPath (w_fs w)) as [n|] eqn:Edir; [|discriminate].
  intros Hrun.
  destruct (addTree_sound _ _ _ _ _ _ _ _ _ Hrun) as [Hfs Hsound].
  split; [exact Hfs|]. intros name c. split.
  - intros Hget. apply zip_get_In in Hget.
    destruct (Hsound _ _ Hget) as [[]|H]. exact H.
  - intros (rel & Hne & -> & Hl & Hf & Hr).
    assert (Hrel : lookup_node rel n = Some (File c))
      by (rewrite lookup_node_append, Edir in Hl; exact Hl).
    destruct (addTree_complete _ _ _ _ _ _ _ _ _ _ _ Hrun Edir Hne Hrel Hf Hr)
      as [c' Hc'].
    rewrite Hc'. f_equal.
    destruct (Hsound _ _ (zip_get_In _ _ _ Hc'))
      as [[]|(rel' & _ & Heq & Hl' & _)].
    apply app_inv_head in Heq. subst rel'. congruence.
Qed.

(** X10. [addDirectoryToZip] on an empty archive: the archive it returns
    holds exactly the files below the directory that pass the extension
    filter (all of them, or those of the directory itself without
    [recursive]), each under its relative path behind [zipPath] and with the
    content it has on disk.  All it does is read: the file system is as it
    was, and its events are reads of directories and of files. *)
Theorem addDirectoryToZip_exact (dirPath zipPath : path)
    (extensions : option (list string)) (recursive : option bool)
    (w : World) (zip : Zip) (w' : World) :
  addDirectoryToZip [] dirPath zipPath extensions recursive w = (Ok zip, w') ->
  w_fs w' = w_fs w
  /\ (exists g, w_trace w' = (w_trace w ++ g)%list /\ Forall read_event g)
  /\ forall name c,
      zip_get name zip = Some c
      <-> from_tree extensions (default true recursive) (w_fs w) dirPath zipPath
                    name c.
Proof.
  intros Hrun.
  destruct (addDirectoryToZip_entries _ _ _ _ _ _ _ Hrun) as [Hfs Hex].
  destruct (addDirectoryToZip_reads _ _ _ _ _ _ _ _ Hrun) as [_ Hreads].
  split; [exact Hfs|]. split; [exact Hreads | exact Hex].
Qed.
Lemma addDirectoryToZip_exact_witness :
  addDirectoryToZip [] ["src"] ["root"] (Some [".txt"]) None sample_tree_world
  = (Ok [(["root"; "a.txt"], Text "A"); (["root"; "B.TXT"], Text "B");
         (["root"; "sub"; "d.txt"], Text "D")],
     {| w_heap := []; w_fs := sample_tree;
        w_trace := [EvReadDir ["src"]; EvReadFile ["src"; "a.txt"];
                    EvReadFile ["src"; "B.TXT"]; EvReadDir ["src"; "sub"];
                    EvReadFile ["src"; "sub"; "d.txt"]] |})
  /\ (exists g,
         [EvReadDir ["src"]; EvReadFile ["src"; "a.txt"];
          EvReadFile ["src"; "B.TXT"]; EvReadDir ["src"; "sub"];
          EvReadFile ["src"; "sub"; "d.txt"]]
         = (w_trace sample_tree_world ++ g)%list
         /\ Forall read_event g)
  /\ forall name c,
      zip_get name [(["root"; "a.txt"], Text "A"); (["root"; "B.TXT"], Text "B");
                    (["root"; "sub"; "d.txt"], Text "D")] = Some c
      <-> from_tree (Some [".txt"]) true sample_tree ["src"] ["root"] name c.
Proof.
  split; [reflexivity|].
  apply (addDirectoryToZip_exact ["src"] ["root"] (Some [".txt"]) None
           sample_tree_world _ _ eq_refl).
Defined.

Lemma lower_ascii_idem (c : ascii) :
  Str.lower_ascii (Str.lower_ascii c) = Str.lower_ascii c.
Proof. destruct c as [[] [] [] [] [] [] [] []]; reflexivity. Qed.

Lemma toLowerCase_idem (s : string) :
  Str.toLowerCase (Str.toLowerCase s) = Str.toLowerCase s.
Proof.
  induction s as [|c s IH]; [reflexivity|]. simpl.
  by rewrite lower_ascii_idem, IH.
Qed.

(** A filter none of whose entries is in lower case lets no file through. *)
Lemma filter_never_matches (exts : list string) (file : string) :
  Forall (fun e => Str.toLowerCase e <> e) exts ->
  filtered_out (Some exts) file = true.
Proof.
  intros H. unfold filtered_out. apply negb_true_iff.
  apply not_true_is_false. intros Hex. apply existsb_exists in Hex.
  destruct Hex as (e & Hin & He). apply String.eqb_eq in He.
  rewrite Forall_forall in H. apply (H e); [by apply list_elem_of_In|].
  rewrite <- He. apply toLowerCase_idem.
Qed.

Lemma addTree_nothing (exts : list string) (recursive : bool) (n : node) :
  Forall (fun e => Str.toLowerCase e <> e) exts ->
  forall (dirPath zipPath : path) (zip : Zip) (w : World) (zip' : Zip)
         (w' : World),
    addTree (Some exts) recursive n dirPath zipPath zip w = (Ok zip', w') ->
    zip' = zip.
Proof.
  intros Hexts.
  induction n as [c0|es IH] using node_ind_nested;
    intros dirPath zipPath zip w zip' w'; cbn [addTree]; [discriminate|].
  unfold bind at 1, emit at 1. intros Hrun.
  refine (for_each_inv _ (fun z _ => z = zip) es _ _ _ _ _ eq_refl Hrun).
  rewrite Forall_forall in IH.
  intros [file child] acc v acc' v' Hin Hacc Hstep. cbv beta in *. subst acc.
  destruct child as [c1|sub].
  - rewrite (filter_never_matches exts file Hexts) in Hstep.
    by injection Hstep as <- <-.
  - destruct recursive.
    + specialize (IH _ (proj2 (list_elem_of_In _ _) Hin)). simpl in IH.
      eapply IH; exact Hstep.
    + by injection Hstep as <- <-.
Qed.

(** X11. The extension filter is case-insensitive on one side only: the
    extension of a file is lower-cased, an entry of the filter is compared
    as it is.  With a filter none of whose entries is in lower case
    [addDirectoryToZip] adds nothing. *)
Theorem addDirectoryToZip_upper_case_filter (zip : Zip) (dirPath zipPath : path)
    (exts : list string) (recursive : option bool) (w : World) (zip' : Zip)
    (w' : World) :
  Forall (fun e => Str.toLowerCase e <> e) exts ->
  addDirectoryToZip zip dirPath zipPath (Some exts) recursive w = (Ok zip', w') ->
  zip' = zip.
Proof.
  intros Hexts. unfold addDirectoryToZip, bind at 1, get_fs.
  destruct (lookup_node dirPath (w_fs w)) as [n|]; [|discriminate].
  by apply addTree_nothing.
Qed.

Lemma addDirectoryToZip_upper_case_filter_witness :
  Forall (fun e => Str.toLowerCase e <> e) [".TXT"]
  /\ exists zip' w',
      addDirectoryToZip [(["kept.md"], Text "kept")] ["src"] [] (Some [".TXT"])
                        None sample_tree_world = (Ok zip', w')
      /\ zip' = [(["kept.md"], Text "kept")].
Proof.
  split; [repeat constructor; discriminate|].
  eexists _, _. split; [reflexivity|].
  apply (addDirectoryToZip_upper_case_filter [(["kept.md"], Text "kept")]
           ["src"] [] [".TXT"] None sample_tree_world _
           (snd (addDirectoryToZip [(["kept.md"], Text "kept")] ["src"] []
                                   (Some [".TXT"]) None sample_tree_world))).
  - repeat constructor; discriminate.
  - reflexivity.
Defined.

(** X12. [zipDirectory]: the file it writes at [outputPath] is an archive that
    holds exactly the files below [sourceDir] that pass the filter, each
    under its relative path behind the root folder (if one is given), with
    the content it had on disk. *)
Theorem zipDirectory_archives_the_tree (sourceDir outputPath : path)
    (rootFolder : option string) (extensions : option (list string))
    (recursive : option bool) (w : World) (out : path) (w' : World) :
  zipDirectory sourceDir outputPath rootFolder extensions recursive w
  = (Ok out, w') ->
  out = outputPath
  /\ exists zip,
      lookup_node outputPath (w_fs w') = Some (File (ZipData zip))
      /\ forall name c,
          zip_get name zip = Some c
          <-> from_tree extensions (default true recursive) (w_fs w) sourceDir
                        (if String.eqb (default "" rootFolder) "" then []
                         else [default "" rootFolder])
                        name c.
Proof.
  unfold zipDirectory. unfold bind at 1. unfold createZip. intros Hrun.
  assert (Hwalk : exists zip w1,
             addDirectoryToZip [] sourceDir
               (if String.eqb (default "" rootFolder) "" then []
                else [default "" rootFolder])
               extensions (Some (default true recursive)) w = (Ok zip, w1)
             /\ bind (writeZipToFile zip outputPath) (fun _ => ret outputPath) w1
                = (Ok out, w')).
  { destruct (String.eqb (default "" rootFolder) "");
      match type of Hrun with
      | context [addDirectoryToZip ?a ?b ?c ?d ?e w] =>
          destruct (addDirectoryToZip a b c d e w) as [[zip|e0] w1] eqn:E;
            [eauto | discriminate]
      end. }
  destruct Hwalk as (zip & w1 & Hwalk & Hwrite). clear Hrun.
  destruct (addDirectoryToZip_entries _ _ _ _ _ _ _ Hwalk) as [Hfs Hex].
  unfold bind at 1, writeZipToFile, generateZipBuffer in Hwrite.
  unfold bind at 1 in Hwrite.
  destruct (fs_ensureDir _ w1) as [[[]|e] w2]; [|discriminate].
  destruct (fs_writeFile _ (ZipData zip) w2) as [[[]|e] w3] eqn:Ew;
    [|discriminate].
  injection Hwrite as <- <-. split; [reflexivity|].
  exists zip. split; [by apply (fs_writeFile_lookup _ _ _ _ Ew)|].
  exact Hex.
Qed.

Lemma zipDirectory_archives_the_tree_witness :
  zipDirectory ["src"] ["out"; "all.zip"] (Some "root") None None
               sample_tree_world
  = (Ok ["out"; "all.zip"],
     snd (zipDirectory ["src"] ["out"; "all.zip"] (Some "root") None None
                       sample_tree_world))
  /\ ["out"; "all.zip"] = ["out"; "all.zip"]
  /\ exists zip,
      lookup_node ["out"; "all.zip"]
        (w_fs (snd (zipDirectory ["src"] ["out"; "all.zip"] (Some "root") None
                                 None sample_tree_world)))
      = Some (File (ZipData zip))
      /\ forall name c,
          zip_get name zip = Some c
          <-> from_tree None true sample_tree ["src"] ["root"] name c.
Proof.
  split; [reflexivity|].
  apply (zipDirectory_archives_the_tree ["src"] ["out"; "all.zip"] (Some "root")
           None None sample_tree_world). reflexivity.
Defined.
(** X13. With at least one of its two flags set, [createSectionZip] writes an
    archive that holds exactly the files of the section directory itself
    (no subdirectory is entered) whose lower-cased extension is one of the
    chosen ones, each named [sectionId/file], with the content it has on
    disk. *)
Theorem createSectionZip_filtered (o : SectionZipOptions) (w : World)
    (out : path) (w' : World) :
  section_extensions o <> [] ->
  createSectionZip o w = (Ok out, w') ->
  out = path_join (sz_outputDir o) (sz_sectionId o ++ ".zip")
  /\ exists zip,
      lookup_node out (w_fs w') = Some (File (ZipData zip))
      /\ forall name c,
          zip_get name zip = Some c
          <-> from_tree (Some (section_extensions o)) false (w_fs w)
                        (sz_sectionDir o) [sz_sectionId o] name c.
Proof.
  intros Hne. unfold createSectionZip. fold (section_extensions o).
  assert (Hlen : (0 <? List.length (section_extensions o))%nat = true).
  { apply Nat.ltb_lt. destruct (section_extensions o); [congruence | simpl; lia]. }
  rewrite Hlen. unfold bind at 1.
  destruct (addDirectoryToZip [] (sz_sectionDir o) [sz_sectionId o]
              (Some (section_extensions o)) (Some false) w)
    as [[zip|e] w1] eqn:Ewalk; [|discriminate].
  destruct (addDirectoryToZip_entries _ _ _ _ _ _ _ Ewalk) as [Hfs Hex].
  unfold bind at 1, writeZipToFile, generateZipBuffer. unfold bind at 1.
  destruct (fs_ensureDir _ w1) as [[[]|e] w2]; [|discriminate].
  destruct (fs_writeFile _ (ZipData zip) w2) as [[[]|e] w3] eqn:Ew;
    [|discriminate].
  intros [= <- <-]. split; [reflexivity|].
  exists zip. split; [by apply (fs_writeFile_lookup _ _ _ _ Ew) | exact Hex].
Qed.

Lemma createSectionZip_filtered_witness :
  section_extensions
    {| sz_sectionId := "core"; sz_sectionDir := ["src"]; sz_outputDir := ["out"];
       sz_includeSourceFiles := Some false; sz_includePdfs := None |} <> []
  /\ createSectionZip
       {| sz_sectionId := "core"; sz_sectionDir := ["src"];
          sz_outputDir := ["out"]; sz_includeSourceFiles := Some false;
          sz_includePdfs := None |} sample_tree_world
     = (Ok ["out"; "core.zip"],
        snd (createSectionZip
               {| sz_sectionId := "core"; sz_sectionDir := ["src"];
                  sz_outputDir := ["out"]; sz_includeSourceFiles := Some false;
                  sz_includePdfs := None |} sample_tree_world))
  /\ lookup_node ["out"; "core.zip"]
       (w_fs (snd (createSectionZip
               {| sz_sectionId := "core"; sz_sectionDir := ["src"];
                  sz_outputDir := ["out"]; sz_includeSourceFiles := Some false;
                  sz_includePdfs := None |} sample_tree_world)))
     = Some (File (ZipData [(["core"; "c.pdf"], Pdf "C" "C")]))
  /\ (["out"; "core.zip"] = path_join ["out"] ("core" ++ ".zip")
      /\ exists zip,
          lookup_node ["out"; "core.zip"]
            (w_fs (snd (createSectionZip
               {| sz_sectionId := "core"; sz_sectionDir := ["src"];
                  sz_outputDir := ["out"]; sz_includeSourceFiles := Some false;
                  sz_includePdfs := None |} sample_tree_world)))
          = Some (File (ZipData zip))
          /\ forall name c,
              zip_get name zip = Some c
              <-> from_tree (Some [".pdf"]) false sample_tree ["src"] ["core"]
                            name c).
Proof.
  split; [discriminate|]. split; [reflexivity|]. split; [reflexivity|].
  apply (createSectionZip_filtered
           {| sz_sectionId := "core"; sz_sectionDir := ["src"];
              sz_outputDir := ["out"]; sz_includeSourceFiles := Some false;
              sz_includePdfs := None |} sample_tree_world).
  - discriminate.
  - reflexivity.
Defined.

(** ** The master archive *)

Lemma add_section_zips_sound (paths : list path) :
  forall (zip : Zip) (w : World) (zip' : Zip) (w' : World),
    add_section_zips paths zip w = (Ok zip', w') ->
    w_fs w' = w_fs w
    /\ (forall name c,
           In (name, c) zip' ->
           In (name, c) zip
           \/ exists p, In p paths /\ name = [basename p]
                        /\ lookup_node p (w_fs w) = Some (File c))
    /\ (forall name, is_Some (zip_get name zip) -> is_Some (zip_get name zip'))
    /\ (forall p, In p paths -> is_Some (zip_get [basename p] zip')).
Proof.
  induction paths as [|p paths IH]; intros zip w zip' w'.
  - intros [= <- <-]. repeat split; auto. intros p [].
  - cbn [add_section_zips]. unfold bind at 1.
    destruct (fs_readFile p w) as [[c0|e] w1] eqn:Er; [|discriminate].
    destruct (fs_readFile_ok _ _ _ _ Er) as [Hl Hfs1].
    intros Hrest. destruct (IH _ _ _ _ Hrest) as (Hfs & Hsound & Hmono & Hall).
    split; [congruence|]. split; [|split].
    + intros name c Hin. destruct (Hsound _ _ Hin) as [Hz|(q & Hq & -> & Hlq)].
      * apply In_zip_file in Hz as [[-> ->]|Hz]; [|by left].
        right. exists p. split; [by left | auto].
      * right. exists q. rewrite Hfs1 in Hlq. split; [by right | auto].
    + intros name Hz. apply Hmono. by apply zip_file_keeps.
    + intros q [<-|Hq]; [|by apply Hall].
      apply Hmono. apply zip_file_has.
Qed.

Lemma add_optional_sound (p : option path) (name0 : string) (zip : Zip)
    (w : World) (zip' : Zip) (w' : World) :
  add_optional p name0 zip w = (Ok zip', w') ->
  w_fs w' = w_fs w
  /\ (forall name c,
         In (name, c) zip' ->
         In (name, c) zip
         \/ exists p', p = Some p' /\ name = [name0]
                       /\ lookup_node p' (w_fs w) = Some (File c))
  /\ (forall name, is_Some (zip_get name zip) -> is_Some (zip_get name zip')).
Proof.
  unfold add_optional. destruct p as [p'|]; [|intros [= <- <-]; auto].
  unfold bind at 1, fs_pathExists, bind at 1, get_fs, ret at 1.
  destruct (bool_decide (is_Some (lookup_node p' (w_fs w)))).
  - unfold bind at 1.
    destruct (fs_readFile p' w) as [[c0|e] w1] eqn:Er; [|discriminate].
    destruct (fs_readFile_ok _ _ _ _ Er) as [Hl Hfs1].
    intros [= <- <-]. split; [exact Hfs1|]. split.
    + intros name c Hin. apply In_zip_file in Hin as [[-> ->]|Hin]; [|by left].
      right. eauto.
    + intros name. apply zip_file_keeps.
  - intros [= <- <-]. auto.
Qed.

(** The entries of the archive [createMasterZip] writes. *)
Lemma createMasterZip_entries (sectionZipPaths : list path)
    (outputPath : path) (readmePath licensePath : option path) (w : World)
    (out : path) (w' : World) :
  createMasterZip sectionZipPaths outputPath readmePath licensePath w
  = (Ok out, w') ->
  out = outputPath
  /\ exists zip,
      lookup_node outputPath (w_fs w') = Some (File (ZipData zip))
      /\ (forall p, In p sectionZipPaths -> is_Some (zip_get [basename p] zip))
      /\ forall name c,
          In (name, c) zip ->
          (exists p, In p sectionZipPaths /\ name = [basename p]
                     /\ lookup_node p (w_fs w) = Some (File c))
          \/ (exists p, readmePath = Some p /\ name = ["README.md"]
                        /\ lookup_node p (w_fs w) = Some (File c))
          \/ (exists p, licensePath = Some p /\ name = ["LICENSE.txt"]
                        /\ lookup_node p (w_fs w) = Some (File c)).
Proof.
  unfold createMasterZip. unfold bind at 1.
  destruct (add_section_zips sectionZipPaths [] w) as [[z1|e] w1] eqn:E1;
    [|discriminate].
  destruct (add_section_zips_sound _ _ _ _ _ E1) as (Hfs1 & Hs1 & _ & Hall1).
  unfold bind at 1.
  destruct (add_optional readmePath "README.md" z1 w1) as [[z2|e] w2] eqn:E2;
    [|discriminate].
  destruct (add_optional_sound _ _ _ _ _ _ E2) as (Hfs2 & Hs2 & Hm2).
  unfold bind at 1.
  destruct (add_optional licensePath "LICENSE.txt" z2 w2) as [[z3|e] w3] eqn:E3;
    [|discriminate].
  destruct (add_optional_sound _ _ _ _ _ _ E3) as (Hfs3 & Hs3 & Hm3).
  unfold bind at 1, writeZipToFile, generateZipBuffer. unfold bind at 1.
  destruct (fs_ensureDir _ w3) as [[[]|e] w4]; [|discriminate].
  destruct (fs_writeFile _ (ZipData z3) w4) as [[[]|e] w5] eqn:Ew;
    [|discriminate].
  intros [= <- <-]. split; [reflexivity|].
  exists z3. split; [by apply (fs_writeFile_lookup _ _ _ _ Ew)|].
  split; [intros p Hp; auto|].
  intros name c Hin.
  destruct (Hs3 _ _ Hin) as [Hin2|(p & -> & -> & Hl)].
  - destruct (Hs2 _ _ Hin2) as [Hin1|(p & -> & -> & Hl)].
    + destruct (Hs1 _ _ Hin1) as [[]|H]. by left.
    + right. left. exists p. rewrite Hfs1 in Hl. auto.
  - right. right. exists p. rewrite Hfs2, Hfs1 in Hl. auto.
Qed.

Lemma NoDup_map_In_inj {A B} (f : A -> B) (l : list A) (a b : A) :
  NoDup (map f l) -> In a l -> In b l -> f a = f b -> a = b.
Proof.
  induction l as [|x l IH]; simpl; [intros _ []|].
  intros Hnd Ha Hb Hf. apply NoDup_cons in Hnd as [Hx Hnd].
  destruct Ha as [->|Ha], Hb as [->|Hb]; auto.
  - destruct Hx. rewrite Hf. apply list_elem_of_In. by apply in_map.
  - destruct Hx. rewrite <- Hf. apply list_elem_of_In. by apply in_map.
Qed.

(** X14. [createMasterZip]: the archive it writes at [outputPath] has an
    entry for every section archive it was given, under that archive's file
    name; every entry is one of those (with the content of a section archive
    of that name) or the README or the LICENSE, which are there only when
    their path was given and is a file on disk.  When the section archives
    have distinct file names, none of them [README.md] or [LICENSE.txt],
    the entry of each holds the content of that archive. *)
Theorem createMasterZip_contents (sectionZipPaths : list path)
    (outputPath : path) (readmePath licensePath : option path) (w : World)
    (out : path) (w' : World) :
  createMasterZip sectionZipPaths outputPath readmePath licensePath w
  = (Ok out, w') ->
  out = outputPath
  /\ exists zip,
      lookup_node outputPath (w_fs w') = Some (File (ZipData zip))
      /\ (forall p, In p sectionZipPaths -> is_Some (zip_get [basename p] zip))
      /\ (forall name c,
             In (name, c) zip ->
             (exists p, In p sectionZipPaths /\ name = [basename p]
                        /\ lookup_node p (w_fs w) = Some (File c))
             \/ (exists p, readmePath = Some p /\ name = ["README.md"]
                           /\ lookup_node p (w_fs w) = Some (File c))
             \/ (exists p, licensePath = Some p /\ name = ["LICENSE.txt"]
                           /\ lookup_node p (w_fs w) = Some (File c)))
      /\ (NoDup (map basename sectionZipPaths) ->
          ~ In "README.md" (map basename sectionZipPaths) ->
          ~ In "LICENSE.txt" (map basename sectionZipPaths) ->
          forall p, In p sectionZipPaths ->
                    exists c, lookup_node p (w_fs w) = Some (File c)
                              /\ zip_get [basename p] zip = Some c).
Proof.
  intros Hrun.
  destruct (createMasterZip_entries _ _ _ _ _ _ _ Hrun)
    as (Hout & zip & Hfile & Hhas & Honly).
  split; [exact Hout|]. exists zip. split; [exact Hfile|].
  split; [exact Hhas|]. split; [exact Honly|].
  intros Hnd Hreadme Hlicense p Hp.
  destruct (Hhas p Hp) as [c Hc]. exists c. split; [|exact Hc].
  destruct (Honly _ _ (zip_get_In _ _ _ Hc))
    as [(q & Hq & Hname & Hl)|[(q & _ & Hname & _)|(q & _ & Hname & _)]].
  - injection Hname as Hname.
    by rewrite (NoDup_map_In_inj basename _ p q Hnd Hp Hq Hname).
  - injection Hname as Hname. destruct Hreadme. rewrite <- Hname.
    by apply in_map.
  - injection Hname as Hname. destruct Hlicense. rewrite <- Hname.
    by apply in_map.
Qed.
Lemma createMasterZip_contents_witness :
  createMasterZip [["out"; "a.zip"]; ["out"; "b.zip"]] ["out"; "all.zip"]
                  (Some ["out"; "README.md"]) (Some ["out"; "LICENSE"])
                  sample_archives
  = (Ok ["out"; "all.zip"],
     snd (createMasterZip [["out"; "a.zip"]; ["out"; "b.zip"]] ["out"; "all.zip"]
            (Some ["out"; "README.md"]) (Some ["out"; "LICENSE"])
            sample_archives))
  /\ lookup_node ["out"; "all.zip"]
       (w_fs (snd (createMasterZip [["out"; "a.zip"]; ["out"; "b.zip"]]
                     ["out"; "all.zip"] (Some ["out"; "README.md"])
                     (Some ["out"; "LICENSE"]) sample_archives)))
     = Some (File (ZipData
                     [(["a.zip"], ZipData [(["a"; "a.pdf"], Pdf "A" "A")]);
                      (["b.zip"], ZipData []);
                      (["README.md"], Text "Read me")]))
  /\ (["out"; "all.zip"] = ["out"; "all.zip"]
      /\ exists zip,
          lookup_node ["out"; "all.zip"]
            (w_fs (snd (createMasterZip [["out"; "a.zip"]; ["out"; "b.zip"]]
                          ["out"; "all.zip"] (Some ["out"; "README.md"])
                          (Some ["out"; "LICENSE"]) sample_archives)))
          = Some (File (ZipData zip))
          /\ (forall p, In p [["out"; "a.zip"]; ["out"; "b.zip"]] ->
                        is_Some (zip_get [basename p] zip))
          /\ (forall name c,
                 In (name, c) zip ->
                 (exists p, In p [["out"; "a.zip"]; ["out"; "b.zip"]]
                            /\ name = [basename p]
                            /\ lookup_node p (w_fs sample_archives)
                               = Some (File c))
                 \/ (exists p, Some ["out"; "README.md"] = Some p
                               /\ name = ["README.md"]
                               /\ lookup_node p (w_fs sample_archives)
                                  = Some (File c))
                 \/ (exists p, Some ["out"; "LICENSE"] = Some p
                               /\ name = ["LICENSE.txt"]
                               /\ lookup_node p (w_fs sample_archives)
                                  = Some (File c)))
          /\ (NoDup (map basename [["out"; "a.zip"]; ["out"; "b.zip"]]) ->
              ~ In "README.md" (map basename [["out"; "a.zip"]; ["out"; "b.zip"]]) ->
              ~ In "LICENSE.txt"
                   (map basename [["out"; "a.zip"]; ["out"; "b.zip"]]) ->
              forall p, In p [["out"; "a.zip"]; ["out"; "b.zip"]] ->
                        exists c, lookup_node p (w_fs sample_archives)
                                  = Some (File c)
                                  /\ zip_get [basename p] zip = Some c)).
Proof.
  split; [reflexivity|]. split; [reflexivity|].
  apply (createMasterZip_contents [["out"; "a.zip"]; ["out"; "b.zip"]]
           ["out"; "all.zip"] (Some ["out"; "README.md"])
           (Some ["out"; "LICENSE"]) sample_archives).
  reflexivity.
Defined.

Lemma fs_readFile_missing (p : path) (w : World) :
  (forall c, lookup_node p (w_fs w) <> Some (File c)) ->
  exists e, fs_readFile p w = (Throw e, log (EvReadFile p) w).
Proof.
  intros H. unfold fs_readFile, bind, emit, get_fs. simpl.
  destruct (lookup_node p (w_fs w)) as [[c|es]|]; eauto.
  by destruct (H c).
Qed.

(** The first loop of [createMasterZip] with a path that is no file: it
    throws, having read only. *)
Lemma add_section_zips_missing (paths : list path) (p : path) :
  In p paths ->
  forall (zip : Zip) (w : World),
    (forall c, lookup_node p (w_fs w) <> Some (File c)) ->
    exists e w',
      add_section_zips paths zip w = (Throw e, w')
      /\ quietly read_event w w'.
Proof.
  induction paths as [|q paths IH]; intros Hin zip w Hbad; [destruct Hin|].
  cbn [add_section_zips]. unfold bind at 1.
  destruct (fs_readFile q w) as [[c|e] w1] eqn:Er.
  - pose proof (fs_readFile_reads q w _ _ Er) as Hq1.
    destruct Hin as [->|Hin].
    + destruct (fs_readFile_ok _ _ _ _ Er) as [Hl _]. by destruct (Hbad c).
    + destruct (IH Hin (zip_file [basename q] c zip) w1) as (e & w' & Hrun & Hq).
      * destruct Hq1 as [-> _]. exact Hbad.
      * exists e, w'. split; [exact Hrun|]. eapply quietly_trans; eauto.
  - exists e, w1. split; [reflexivity|]. exact (fs_readFile_reads q w _ _ Er).
Qed.

(** X15. A section archive that is missing (or is a directory) makes
    [createMasterZip] throw before it writes anything: the file system is as
    it was, and all it did was read. *)
Theorem createMasterZip_missing_archive (sectionZipPaths : list path)
    (outputPath : path) (readmePath licensePath : option path) (w : World)
    (p : path) :
  In p sectionZipPaths ->
  (forall c, lookup_node p (w_fs w) <> Some (File c)) ->
  exists e w',
    createMasterZip sectionZipPaths outputPath readmePath licensePath w
    = (Throw e, w')
    /\ w_fs w' = w_fs w
    /\ exists g, w_trace w' = (w_trace w ++ g)%list /\ Forall read_event g.
Proof.
  intros Hin Hbad.
  destruct (add_section_zips_missing _ _ Hin [] w Hbad) as (e & w' & Hrun & Hq).
  exists e, w'. unfold createMasterZip.
  rewrite (bind_throw _ _ _ _ _ Hrun). split; [reflexivity|]. exact Hq.
Qed.

Lemma createMasterZip_missing_archive_witness :
  In ["out"; "c.zip"] [["out"; "a.zip"]; ["out"; "c.zip"]]
  /\ (forall c, lookup_node ["out"; "c.zip"] (w_fs sample_archives)
                <> Some (File c))
  /\ exists e w',
      createMasterZip [["out"; "a.zip"]; ["out"; "c.zip"]] ["out"; "all.zip"]
                      None None sample_archives
      = (Throw e, w')
      /\ w_fs w' = w_fs sample_archives
      /\ exists g, w_trace w' = (w_trace sample_archives ++ g)%list
                   /\ Forall read_event g.
Proof.
  assert (Hin : In ["out"; "c.zip"] [["out"; "a.zip"]; ["out"; "c.zip"]])
    by (right; left; reflexivity).
  assert (Hbad : forall c, lookup_node ["out"; "c.zip"] (w_fs sample_archives)
                           <> Some (File c)) by (intros c; discriminate).
  split; [exact Hin|]. split; [exact Hbad|].
  exact (createMasterZip_missing_archive [["out"; "a.zip"]; ["out"; "c.zip"]]
           ["out"; "all.zip"] None None sample_archives ["out"; "c.zip"]
           Hin Hbad).
Defined.

(** ** The helpers of [file-system.js] *)

Lemma assoc_set_other {A} (k k' : string) (v : A) (l : list (string * A)) :
  k' <> k -> assoc k' (assoc_set k v l) = assoc k' l.
Proof.
  intros Hne. induction l as [|[k0 v0] l IH]; simpl.
  - destruct (String.eqb k k') eqn:E; [|reflexivity].
    apply String.eqb_eq in E. congruence.
  - destruct (String.eqb k0 k) eqn:E; simpl.
    + apply String.eqb_eq in E. subst k0.
      destruct (String.eqb k k') eqn:E'; [|reflexivity].
      apply String.eqb_eq in E'. congruence.
    + destruct (String.eqb k0 k'); [reflexivity | exact IH].
Qed.

(** [mkdir -p] succeeds unless a file is in the way. *)
Lemma mkdirp_Some (p : path) :
  forall n,
    (forall q c, q `prefix_of` p -> lookup_node q n <> Some (File c)) ->
    is_Some (mkdirp p n).
Proof.
  induction p as [|x p IH]; intros n Hfree.
  - destruct n as [c|es]; [|by eexists].
    by destruct (Hfree [] c (prefix_nil _)).
  - destruct n as [c|es]; [by destruct (Hfree [] c (prefix_nil _))|].
    cbn [mkdirp].
    destruct (IH (default (Dir []) (assoc x es))) as [child Hchild].
    + intros q c Hq Hl.
      destruct (assoc x es) as [old|] eqn:Ex; simpl in Hl.
      * apply (Hfree (x :: q) c); [by apply prefix_cons|].
        cbn [lookup_node]. by rewrite Ex.
      * destruct q; discriminate.
    + rewrite Hchild. by eexists.
Qed.

(** After [mkdir -p] every prefix of the path is a directory. *)
Lemma mkdirp_lookup_on (p : path) :
  forall n n' q,
    mkdirp p n = Some n' -> q `prefix_of` p ->
    exists es, lookup_node q n' = Some (Dir es).
Proof.
  induction p as [|x p IH]; intros n n' q Hmk Hq.
  - apply prefix_nil_inv in Hq. subst q.
    destruct n; [discriminate|]. injection Hmk as <-. simpl. eauto.
  - destruct n as [c|es]; [discriminate|]. cbn [mkdirp] in Hmk.
    destruct (mkdirp p (default (Dir []) (assoc x es))) as [child|] eqn:E;
      [|discriminate].
    injection Hmk as <-. destruct q as [|y q]; [simpl; eauto|].
    apply prefix_cons_inv_1 in Hq as Hxy. apply prefix_cons_inv_2 in Hq.
    subst y. cbn [lookup_node]. rewrite assoc_set_same. eapply IH; eauto.
Qed.

(** [mkdir -p] changes nothing off the path. *)
Lemma mkdirp_lookup_off (p : path) :
  forall n n' q,
    mkdirp p n = Some n' -> ~ q `prefix_of` p ->
    lookup_node q n' = lookup_node q n.
Proof.
  induction p as [|x p IH]; intros n n' q Hmk Hq.
  - destruct n; [discriminate|]. by injection Hmk as <-.
  - destruct n as [c|es]; [discriminate|]. cbn [mkdirp] in Hmk.
    destruct (mkdirp p (default (Dir []) (assoc x es))) as [child|] eqn:E;
      [|discriminate].
    injection Hmk as <-. destruct q as [|y q]; [by destruct Hq; apply prefix_nil|].
    cbn [lookup_node]. destruct (decide (y = x)) as [->|Hne].
    + rewrite assoc_set_same.
      rewrite (IH _ _ q E) by (intros H; apply Hq; by apply prefix_cons).
      destruct (assoc x es) as [old|]; [reflexivity|]. simpl.
      destruct q as [|z q]; [by destruct Hq; apply prefix_cons, prefix_nil|].
      reflexivity.
    + by rewrite assoc_set_other.
Qed.

(** A write succeeds when the directory of the path exists and the path is
    no directory. *)
Lemma write_node_Some (p : path) (c : content) :
  forall n es,
    p <> [] ->
    lookup_node (dirname p) n = Some (Dir es) ->
    (forall es', lookup_node p n <> Some (Dir es')) ->
    is_Some (write_node p c n).
Proof.
  induction p as [|x p IH]; intros n es Hne Hdir Hnodir; [congruence|].
  destruct p as [|y p].
  - simpl in Hdir. injection Hdir as ->. cbn [write_node].
    destruct (assoc x es) as [[c0|es0]|] eqn:Ex; try by eexists.
    destruct (Hnodir es0). cbn [lookup_node]. by rewrite Ex.
  - destruct n as [c0|es0]; [discriminate|].
    change (write_node (x :: y :: p) c (Dir es0))
      with (match assoc x es0 with
            | Some child =>
                match write_node (y :: p) c child with
                | Some child' => Some (Dir (assoc_set x child' es0))
                | None => None
                end
            | None => None
            end).
    change (dirname (x :: y :: p)) with (x :: dirname (y :: p)) in Hdir.
    cbn [lookup_node] in Hdir, Hnodir.
    destruct (assoc x es0) as [child|]; [|discriminate].
    destruct (IH child es) as [child' ->]; [discriminate | exact Hdir | exact Hnodir |].
    by eexists.
Qed.

(** A write leaves every other file as it is. *)
Lemma write_node_other (p : path) (c : content) :
  forall n n' q c',
    write_node p c n = Some n' ->
    lookup_node q n = Some (File c') -> q <> p ->
    lookup_node q n' = Some (File c').
Proof.
  induction p as [|x p IH]; intros n n' q c' Hw Hl Hne; [by destruct n|].
  destruct n as [c0|es]; [by destruct p|].
  destruct q as [|y q]; [discriminate|]. cbn [lookup_node] in Hl.
  destruct p as [|z p].
  - cbn [write_node] in Hw.
    assert (Hn' : n' = Dir (assoc_set x (File c) es))
      by (destruct (assoc x es) as [[|]|]; congruence).
    subst n'. cbn [lookup_node]. destruct (decide (y = x)) as [->|Hyx].
    + rewrite assoc_set_same. destruct q; [congruence|].
      destruct (assoc x es) as [[c1|es1]|]; discriminate.
    + by rewrite assoc_set_other.
  - change (write_node (x :: z :: p) c (Dir es))
      with (match assoc x es with
            | Some child =>
                match write_node (z :: p) c child with
                | Some child' => Some (Dir (assoc_set x child' es))
                | None => None
                end
            | None => None
            end) in Hw.
    destruct (assoc x es) as [child|] eqn:Ex; [|discriminate].
    destruct (write_node (z :: p) c child) as [child'|] eqn:E; [|discriminate].
    injection Hw as <-. cbn [lookup_node].
    destruct (decide (y = x)) as [->|Hyx].
    + rewrite assoc_set_same. rewrite Ex in Hl.
      eapply IH; eauto. congruence.
    + by rewrite assoc_set_other.
Qed.
Lemma dirname_prefix (p : path) : dirname p `prefix_of` p.
Proof.
  unfold dirname. destruct (decide (p = [])) as [->|Hne]; [reflexivity|].
  exists [List.last p ""]. by apply app_removelast_last.
Qed.

Lemma not_prefix_dirname (p : path) : p <> [] -> ~ p `prefix_of` dirname p.
Proof.
  intros Hne Hp. apply prefix_length in Hp. unfold dirname in Hp.
  rewrite (app_removelast_last "" Hne) in Hp at 1.
  rewrite length_app in Hp. simpl in Hp. lia.
Qed.

(** X16. [writeFile] of [file-system.js] creates the directories the file needs:
    it succeeds whenever no file is in the way of the file's directory and
    the path is no directory; the file then reads back with the content
    written, and every other file is as it was. *)
Theorem writeFile_creates_parents (p : path) (c : content) (w : World) :
  p <> [] ->
  (forall q c', q `prefix_of` dirname p ->
                lookup_node q (w_fs w) <> Some (File c')) ->
  (forall es, lookup_node p (w_fs w) <> Some (Dir es)) ->
  exists w',
    writeFile p c w = (Ok tt, w')
    /\ readFile p w' = (Ok c, log (EvReadFile p) w')
    /\ forall q c', q <> p -> lookup_node q (w_fs w) = Some (File c') ->
                    lookup_node q (w_fs w') = Some (File c').
Proof.
  intros Hne Hfree Hnodir.
  destruct (mkdirp_Some (dirname p) (w_fs w) Hfree) as [fs1 Hmk].
  destruct (mkdirp_lookup_on _ _ _ (dirname p) Hmk (reflexivity _)) as [es Hdir].
  pose proof (mkdirp_lookup_off _ _ _ p Hmk (not_prefix_dirname p Hne)) as Hp.
  destruct (write_node_Some p c fs1 es Hne Hdir) as [fs2 Hwr].
  { intros es'. rewrite Hp. apply Hnodir. }
  eexists. split; [|split].
  - unfold writeFile, fs_ensureDir, fs_writeFile, bind, emit, get_fs, put_fs.
    simpl. rewrite Hmk. simpl. rewrite Hwr. reflexivity.
  - unfold readFile, fs_readFile, bind, emit, get_fs. simpl.
    by rewrite (write_node_lookup _ _ _ _ Hwr).
  - intros q c' Hq Hl. simpl.
    apply (write_node_other _ _ _ _ _ _ Hwr); [|exact Hq].
    rewrite (mkdirp_lookup_off _ _ _ q Hmk); [exact Hl|].
    intros Hpre. exact (Hfree q c' Hpre Hl).
Qed.

Lemma writeFile_creates_parents_witness :
  ["out"; "notes"; "a.txt"] <> []
  /\ (forall q c', q `prefix_of` dirname ["out"; "notes"; "a.txt"] ->
                   lookup_node q (w_fs sample_archives) <> Some (File c'))
  /\ (forall es, lookup_node ["out"; "notes"; "a.txt"] (w_fs sample_archives)
                 <> Some (Dir es))
  /\ exists w',
      writeFile ["out"; "notes"; "a.txt"] (Text "A") sample_archives
      = (Ok tt, w')
      /\ readFile ["out"; "notes"; "a.txt"] w'
         = (Ok (Text "A"), log (EvReadFile ["out"; "notes"; "a.txt"]) w')
      /\ forall q c', q <> ["out"; "notes"; "a.txt"] ->
                      lookup_node q (w_fs sample_archives) = Some (File c') ->
                      lookup_node q (w_fs w') = Some (File c').
Proof.
  assert (H1 : ["out"; "notes"; "a.txt"] <> []) by discriminate.
  assert (H2 : forall q c', q `prefix_of` dirname ["out"; "notes"; "a.txt"] ->
                 lookup_node q (w_fs sample_archives) <> Some (File c')).
  { intros q c' [k Hk] Hl. simpl in Hk.
    destruct q as [|a q]; [discriminate Hl|]. injection Hk as <- Hk.
    destruct q as [|b q]; [discriminate Hl|]. injection Hk as <- Hk.
    destruct q; [discriminate Hl | discriminate Hk]. }
  assert (H3 : forall es, lookup_node ["out"; "notes"; "a.txt"]
                            (w_fs sample_archives) <> Some (Dir es))
    by (intros es; discriminate).
  split; [exact H1|]. split; [exact H2|]. split; [exact H3|].
  exact (writeFile_creates_parents ["out"; "notes"; "a.txt"] (Text "A")
           sample_archives H1 H2 H3).
Defined.
Lemma In_assoc {A} (k : string) (v : A) (l : list (string * A)) :
  NoDup (map fst l) -> In (k, v) l -> assoc k l = Some v.
Proof.
  induction l as [|[k' v'] l IH]; simpl; [intros _ []|].
  intros Hnd [[= -> ->]|Hin].
  - by rewrite String.eqb_refl.
  - apply NoDup_cons in Hnd as [Hk Hnd].
    destruct (String.eqb k' k) eqn:E; [|auto].
    apply String.eqb_eq in E. subst k'. destruct Hk.
    apply list_elem_of_In. apply (in_map fst) in Hin. exact Hin.
Qed.

Lemma unique_names_child (es : list (string * node)) (x : string)
    (child : node) :
  unique_names (Dir es) = true -> In (x, child) es ->
  unique_names child = true /\ assoc x es = Some child.
Proof.
  cbn [unique_names]. intros H Hin. apply andb_true_iff in H as [Hnd Hall].
  apply bool_decide_eq_true_1 in Hnd. split; [|by apply In_assoc].
  rewrite forallb_forall in Hall. exact (Hall _ Hin).
Qed.

Lemma unique_names_lookup (p : path) :
  forall n m, unique_names n = true -> lookup_node p n = Some m ->
              unique_names m = true.
Proof.
  induction p as [|x p IH]; intros n m Hu; simpl; [by intros [= <-]|].
  destruct n as [c|es]; [discriminate|].
  destruct (assoc x es) as [child|] eqn:Ex; [|discriminate].
  apply IH. by destruct (unique_names_child es x child Hu (assoc_In _ _ _ Ex)).
Qed.

Lemma processDir_sound (extensions : option (list string)) (recursive : bool)
    (n : node) :
  unique_names n = true ->
  forall (cur relp : path) (files : list path) (w : World)
         (files' : list path) (w' : World),
    processDir extensions recursive n cur relp files w = (Ok files', w') ->
    w_fs w' = w_fs w
    /\ (forall r, In r files -> In r files')
    /\ forall r,
        In r files' ->
        In r files
        \/ exists rel, r = (relp ++ rel)%list
                       /\ listed extensions recursive n rel.
Proof.
  induction n as [c0|es IH] using node_ind_nested;
    intros Hu cur relp files w files' w'; cbn [processDir]; [discriminate|].
  unfold bind at 1, emit at 1. intros Hrun.
  set (I := fun (z : list path) (v : World) =>
              w_fs v = w_fs w
              /\ (forall r, In r files -> In r z)
              /\ forall r,
                  In r z ->
                  In r files
                  \/ exists rel, r = (relp ++ rel)%list
                                 /\ listed extensions recursive (Dir es) rel).
  refine (for_each_inv _ I es _ _ _ _ _ _ Hrun);
    [|split; [reflexivity | split; auto]].
  clear Hrun files' w'. rewrite Forall_forall in IH.
  intros [name child] acc v acc' v' Hin (Hfs & Hmono & Hacc) Hstep.
  destruct (unique_names_child es name child Hu Hin) as [Huc Hassoc].
  destruct child as [c1|sub].
  - destruct (filtered_out extensions name) eqn:Ef; simpl in Hstep;
      injection Hstep as <- <-; [repeat split; assumption|].
    split; [exact Hfs|]. split.
    + intros r Hr. apply in_or_app. left. auto.
    + intros r Hr. apply in_app_or in Hr as [Hr|[<-|[]]]; [auto|].
      right. exists [name]. split; [reflexivity|].
      split; [discriminate|]. split; [|split; [exact Ef | reflexivity]].
      exists c1. cbn [lookup_node]. by rewrite Hassoc.
  - destruct recursive eqn:Erec.
    + specialize (IH _ (proj2 (list_elem_of_In _ _) Hin) Huc). simpl in IH.
      destruct (IH _ _ _ _ _ _ Hstep) as (Hfs1 & Hmono1 & Hsub).
      split; [congruence|]. split; [auto|].
      intros r Hr.
      destruct (Hsub _ Hr) as [Hold|(rel & -> & Hne & (c & Hl) & Hf & _)];
        [auto|].
      right. exists (name :: rel). unfold path_join.
      rewrite <- app_assoc. split; [reflexivity|].
      split; [discriminate|]. split; [|split; [|discriminate]].
      * exists c. cbn [lookup_node]. by rewrite Hassoc.
      * by rewrite basename_cons.
    + injection Hstep as <- <-. repeat split; assumption.
Qed.

Lemma processDir_complete (extensions : option (list string))
    (recursive : bool) (n : node) :
  unique_names n = true ->
  forall (cur relp : path) (files : list path) (w : World)
         (files' : list path) (w' : World) (rel : path),
    processDir extensions recursive n cur relp files w = (Ok files', w') ->
    listed extensions recursive n rel ->
    In (relp ++ rel)%list files'.
Proof.
  induction n as [c0|es IH] using node_ind_nested;
    intros Hu cur relp files w files' w' rel; cbn [processDir]; [discriminate|].
  unfold bind at 1, emit at 1. intros Hrun (Hne & (c & Hl) & Hf & Hr).
  destruct rel as [|x rel]; [congruence|]. cbn [lookup_node] in Hl.
  destruct (assoc x es) as [child|] eqn:Ex; [|discriminate].
  pose proof (assoc_In _ _ _ Ex) as Hin.
  rewrite Forall_forall in IH.
  refine (for_each_reach _ (fun _ => True)
            (fun z => In (relp ++ x :: rel)%list z)
            (x, child) es Hin _ _ _ _ _ _ I Hrun).
  - clear Hrun. intros [name ch] acc v acc' v' Hy _ Hstep. split; [exact I|].
    destruct (unique_names_child es name ch Hu Hy) as [Huc _].
    destruct ch as [c1|sub].
    + destruct (filtered_out extensions name); simpl in Hstep;
        injection Hstep as <- <-; [auto|].
      intros H. apply in_or_app. by left.
    + destruct recursive; [|injection Hstep as <- <-; auto].
      specialize (IH _ (proj2 (list_elem_of_In _ _) Hy) Huc). simpl in IH.
      destruct (processDir_sound _ _ _ Huc _ _ _ _ _ _ Hstep) as (_ & Hm & _).
      apply Hm.
  - clear Hrun. intros acc v acc' v' _ Hstep.
    destruct (unique_names_child es x child Hu Hin) as [Huc _].
    destruct rel as [|y rel].
    + cbn [lookup_node] in Hl. injection Hl as ->.
      change (basename [x]) with x in Hf. rewrite Hf in Hstep. simpl in Hstep.
      injection Hstep as <- <-. apply in_or_app. right. by left.
    + destruct child as [c1|sub]; [discriminate|].
      destruct recursive; [|specialize (Hr eq_refl); simpl in Hr; lia].
      specialize (IH _ (proj2 (list_elem_of_In _ _) Hin) Huc). simpl in IH.
      replace (relp ++ x :: y :: rel)%list
        with (path_join relp x ++ y :: rel)%list
        by (unfold path_join; by rewrite <- app_assoc).
      apply (IH _ _ _ _ _ _ (y :: rel) Hstep).
      split; [discriminate|]. split; [eauto|].
      split; [by rewrite basename_cons in Hf | discriminate].
Qed.

(** The listing reads directories, and nothing else. *)
Lemma processDir_dirs (extensions : option (list string)) (recursive : bool)
    (n : node) :
  forall cur relp files,
    respects (quietly (fun e => exists p, e = EvReadDir p))
             (processDir extensions recursive n cur relp files).
Proof.
  induction n as [c|es IH] using node_ind_nested; intros cur relp files;
    cbn [processDir]; [quiet_step|].
  quiet_step; [apply quietly_emit; eauto|].
  apply respects_for_each; [auto with quiet | eauto with quiet |].
  rewrite Forall_forall in IH. apply Forall_forall.
  intros [name child] Hin acc. pose proof (IH _ Hin) as Hchild. simpl in Hchild.
  destruct child as [c|sub].
  - destruct (negb _); quiet_step.
  - destruct recursive; [apply Hchild | quiet_step].
Qed.

(** The list of [listFiles] is sound and complete. *)
Lemma listFiles_entries (dirPath : path) (recursive : option bool)
    (extensions : option (list string)) (w : World) (files : list path)
    (w' : World) :
  unique_names (w_fs w) = true ->
  listFiles dirPath recursive extensions w = (Ok files, w') ->
  w_fs w' = w_fs w
  /\ forall rel,
      In rel files
      <-> exists c, from_tree extensions (default false recursive) (w_fs w)
                              dirPath [] rel c.
Proof.
  intros Hu. unfold listFiles, bind at 1, get_fs.
  destruct (lookup_node dirPath (w_fs w)) as [n|] eqn:Edir; [|discriminate].
  intros Hrun.
  pose proof (unique_names_lookup _ _ _ Hu Edir) as Hun.
  destruct (processDir_sound _ _ _ Hun _ _ _ _ _ _ Hrun) as (Hfs & _ & Hsound).
  split; [exact Hfs|]. intros rel. split.
  - intros Hin. destruct (Hsound _ Hin) as [[]|(r & -> & Hne & (c & Hl) & Hf & Hr)].
    exists c, r. simpl. rewrite lookup_node_append, Edir. auto.
  - intros (c & r & Hne & -> & Hl & Hf & Hr).
    rewrite lookup_node_append, Edir in Hl.
    apply (processDir_complete _ _ _ Hun _ [] _ _ _ _ r Hrun).
    split; [exact Hne|]. split; [eauto|]. auto.
Qed.

(** X17. [listFiles] on a file system (no name twice in a directory): it
    lists, by their paths relative to [dirPath], exactly the files below
    [dirPath] that pass the extension filter; without [recursive], which is
    the default, those of [dirPath] itself.  It changes nothing on disk and
    opens no file: its events are reads of directories. *)
Theorem listFiles_exact (dirPath : path) (recursive : option bool)
    (extensions : option (list string)) (w : World) (files : list path)
    (w' : World) :
  unique_names (w_fs w) = true ->
  listFiles dirPath recursive extensions w = (Ok files, w') ->
  w_fs w' = w_fs w
  /\ (exists g, w_trace w' = (w_trace w ++ g)%list
                /\ Forall (fun e => exists p, e = EvReadDir p) g)
  /\ forall rel,
      In rel files
      <-> exists c, from_tree extensions (default false recursive) (w_fs w)
                              dirPath [] rel c.
Proof.
  intros Hu Hrun.
  destruct (listFiles_entries _ _ _ _ _ _ Hu Hrun) as [Hfs Hex].
  split; [exact Hfs|]. split; [|exact Hex].
  unfold listFiles, bind at 1, get_fs in Hrun.
  destruct (lookup_node dirPath (w_fs w)) as [n|]; [|discriminate].
  exact (proj2 (processDir_dirs _ _ _ _ _ _ _ _ _ Hrun)).
Qed.

Lemma listFiles_exact_witness :
  unique_names (w_fs sample_tree_world) = true
  /\ listFiles ["src"] (Some true) (Some [".txt"]) sample_tree_world
     = (Ok [["a.txt"]; ["B.TXT"]; ["sub"; "d.txt"]],
        {| w_heap := []; w_fs := sample_tree;
           w_trace := [EvReadDir ["src"]; EvReadDir ["src"; "sub"]] |})
  /\ (w_fs {| w_heap := []; w_fs := sample_tree;
              w_trace := [EvReadDir ["src"]; EvReadDir ["src"; "sub"]] |}
      = w_fs sample_tree_world
      /\ (exists g,
             w_trace {| w_heap := []; w_fs := sample_tree;
                        w_trace := [EvReadDir ["src"]; EvReadDir ["src"; "sub"]] |}
             = (w_trace sample_tree_world ++ g)%list
             /\ Forall (fun e => exists p, e = EvReadDir p) g)
      /\ forall rel,
          In rel [["a.txt"]; ["B.TXT"]; ["sub"; "d.txt"]]
          <-> exists c, from_tree (Some [".txt"]) true (w_fs sample_tree_world)
                                  ["src"] [] rel c).
Proof.
  split; [reflexivity|]. split; [reflexivity|].
  apply (listFiles_exact ["src"] (Some true) (Some [".txt"]) sample_tree_world);
    reflexivity.
Defined.



(** ** [safeFileName] *)

Example test_safeFileName :
  safeFileName ("file<>:" ++ dquote ++ "/\|?*.txt") = "file_.txt"
  /\ safeFileName "my file name.txt" = "my_file_name.txt"
  /\ safeFileName "file___name.txt" = "file_name.txt"
  /\ safeFileName "normal-file.txt" = "normal-file.txt".
Proof. repeat split; reflexivity. Qed.

Lemma all_chars_impl (p q : ascii -> bool) (s : string) :
  (forall c, p c = true -> q c = true) ->
  all_chars p s = true -> all_chars q s = true.
Proof.
  intros H. induction s as [|c s IH]; [reflexivity|]. simpl.
  intros Hs. apply andb_true_iff in Hs as [Hc Hs].
  by rewrite (H _ Hc), IH.
Qed.

Lemma replace_class_chars (s : string) :
  all_chars (fun c => negb (is_invalid c)) (replace_class is_invalid s) = true.
Proof.
  induction s as [|c s IH]; [reflexivity|]. simpl. rewrite IH, andb_true_r.
  destruct (is_invalid c) eqn:E; [reflexivity | by rewrite E].
Qed.

Lemma replace_runs_keeps (p q : ascii -> bool) (s : string) :
  q "_"%char = true ->
  all_chars q s = true ->
  forall b, all_chars q (replace_runs p b s) = true.
Proof.
  intros Hq. induction s as [|c s IH]; [reflexivity|]. simpl.
  intros Hs b. apply andb_true_iff in Hs as [Hc Hs].
  destruct (p c); [destruct b|]; simpl; rewrite ?Hq, ?Hc, IH; auto.
Qed.

Lemma replace_runs_clears (p : ascii -> bool) (s : string) :
  p "_"%char = false ->
  forall b, all_chars (fun c => negb (p c)) (replace_runs p b s) = true.
Proof.
  intros Hp. induction s as [|c s IH]; [reflexivity|]. simpl. intros b.
  destruct (p c) eqn:E; [destruct b|]; simpl; rewrite ?Hp, ?E, IH; auto.
Qed.

Lemma trimStart_id (s : string) :
  all_chars (fun c => negb (is_space c)) s = true -> trimStart s = s.
Proof.
  destruct s as [|c s]; [reflexivity|]. simpl. intros H.
  apply andb_true_iff in H as [Hc _]. apply negb_true_iff in Hc.
  by rewrite Hc.
Qed.

Lemma trimEnd_id (s : string) :
  all_chars (fun c => negb (is_space c)) s = true -> trimEnd s = s.
Proof.
  induction s as [|c s IH]; [reflexivity|]. simpl. intros H.
  apply andb_true_iff in H as [Hc Hs]. apply negb_true_iff in Hc.
  rewrite (IH Hs), Hc. by destruct s.
Qed.

Lemma trim_id (s : string) :
  all_chars (fun c => negb (is_space c)) s = true -> trim s = s.
Proof. intros H. unfold trim. by rewrite trimStart_id, trimEnd_id. Qed.

Lemma collapsed_chars (name : string) :
  all_chars safe_char
    (replace_runs is_underscore false
       (replace_runs is_space false (replace_class is_invalid name))) = true.
Proof.
  apply replace_runs_keeps; [reflexivity|].
  set (s := replace_class is_invalid name).
  assert (H1 : all_chars (fun c => negb (is_invalid c))
                 (replace_runs is_space false s) = true)
    by (apply replace_runs_keeps; [reflexivity | apply replace_class_chars]).
  assert (H2 : all_chars (fun c => negb (is_space c))
                 (replace_runs is_space false s) = true)
    by (by apply replace_runs_clears).
  revert H1 H2. generalize (replace_runs is_space false s). clear.
  induction s as [|c s IH]; [reflexivity|]. simpl. intros H1 H2.
  apply andb_true_iff in H1 as [Hc1 Hs1]. apply andb_true_iff in H2 as [Hc2 Hs2].
  unfold safe_char at 1. by rewrite Hc1, Hc2, IH.
Qed.

(** The final [trim()] of [safeFileName] finds no white space. *)
Lemma safeFileName_untrimmed (name : string) :
  safeFileName name
  = replace_runs is_underscore false
      (replace_runs is_space false (replace_class is_invalid name)).
Proof.
  unfold safeFileName. apply trim_id.
  eapply all_chars_impl; [|exact (collapsed_chars name)].
  intros c Hc. unfold safe_char in Hc. by apply andb_true_iff in Hc as [_ ?].
Qed.

(** X19. [safeFileName] returns a name without any of the characters it
    takes for invalid ([<], [>], [:], the double quote, the slash, the
    backslash, [|], [?], the star) and without white space.  Its final
    [trim()] therefore never removes anything: white space at either end of
    the name has become an underscore before. *)
Theorem safeFileName_chars (name : string) :
  all_chars safe_char (safeFileName name) = true
  /\ safeFileName name
     = replace_runs is_underscore false
         (replace_runs is_space false (replace_class is_invalid name)).
Proof.
  split; [|apply safeFileName_untrimmed].
  rewrite safeFileName_untrimmed. apply collapsed_chars.
Qed.

Lemma replace_runs_no_double (s : string) :
  forall b,
    double_underscore (replace_runs is_underscore b s) = false
    /\ (b = true ->
        match replace_runs is_underscore b s with
        | String c _ => is_underscore c = false
        | EmptyString => True
        end).
Proof.
  induction s as [|c s IH]; intros b; [by split|]. cbn [replace_runs].
  destruct (is_underscore c) eqn:Ec.
  - destruct b.
    + apply IH.
    + destruct (IH true) as [Hd Hh]. specialize (Hh eq_refl).
      split; [|discriminate]. cbn [double_underscore].
      destruct (replace_runs is_underscore true s) as [|c' t]; [reflexivity|].
      rewrite Hh, andb_false_r. exact Hd.
  - destruct (IH false) as [Hd _]. split; [|by intros _].
    cbn [double_underscore].
    destruct (replace_runs is_underscore false s) as [|c' t]; [reflexivity|].
    rewrite Ec. exact Hd.
Qed.

Lemma replace_class_id (p : ascii -> bool) (s : string) :
  all_chars (fun c => negb (p c)) s = true -> replace_class p s = s.
Proof.
  induction s as [|c s IH]; [reflexivity|]. simpl. intros H.
  apply andb_true_iff in H as [Hc Hs]. apply negb_true_iff in Hc.
  by rewrite Hc, IH.
Qed.

Lemma replace_runs_id_clear (p : ascii -> bool) (s : string) :
  all_chars (fun c => negb (p c)) s = true ->
  forall b, replace_runs p b s = s.
Proof.
  induction s as [|c s IH]; [reflexivity|]. simpl. intros H b.
  apply andb_true_iff in H as [Hc Hs]. apply negb_true_iff in Hc.
  by rewrite Hc, IH.
Qed.

Lemma replace_runs_id_single (s : string) :
  double_underscore s = false ->
  replace_runs is_underscore false s = s
  /\ (match s with
      | String c _ => is_underscore c = false
      | EmptyString => True
      end -> replace_runs is_underscore true s = s).
Proof.
  induction s as [|c s IH]; [by split|]. intros Hd. cbn [replace_runs].
  cbn [double_underscore] in Hd.
  destruct (is_underscore c) eqn:Ec.
  - apply Ascii.eqb_eq in Ec. subst c. split; [|discriminate].
    destruct s as [|c' t]; [reflexivity|].
    apply orb_false_iff in Hd as [Hcc Hd]. simpl in Hcc.
    destruct (IH Hd) as [_ IH1]. by rewrite IH1.
  - assert (Hs : double_underscore s = false).
    { destruct s as [|c' t]; [reflexivity|].
      by apply orb_false_iff in Hd as [_ Hd]. }
    destruct (IH Hs) as [IH0 _]. rewrite IH0. by split.
Qed.

(** X20. [safeFileName] returns a name without two underscores in a row, and a
    name it has returned is left as it is: it is idempotent. *)
Theorem safeFileName_idempotent (name : string) :
  double_underscore (safeFileName name) = false
  /\ safeFileName (safeFileName name) = safeFileName name.
Proof.
  pose proof (safeFileName_untrimmed name) as Heq.
  assert (Hchars : all_chars safe_char (safeFileName name) = true)
    by (rewrite Heq; apply collapsed_chars).
  assert (Hd : double_underscore (safeFileName name) = false)
    by (rewrite Heq; apply replace_runs_no_double).
  split; [exact Hd|].
  set (s := safeFileName name) in *. clearbody s. clear Heq name.
  assert (Hinv : all_chars (fun c => negb (is_invalid c)) s = true).
  { eapply all_chars_impl; [|exact Hchars]. intros c Hc. unfold safe_char in Hc.
    by apply andb_true_iff in Hc as [? _]. }
  assert (Hsp : all_chars (fun c => negb (is_space c)) s = true).
  { eapply all_chars_impl; [|exact Hchars]. intros c Hc. unfold safe_char in Hc.
    by apply andb_true_iff in Hc as [_ ?]. }
  unfold safeFileName.
  rewrite (replace_class_id _ _ Hinv), (replace_runs_id_clear _ _ Hsp).
  rewrite (proj1 (replace_runs_id_single s Hd)). by apply trim_id.
Qed.

(** ** The escaping of the HTML template *)

Lemma append_cons (x : ascii) (a b : string) :
  String x a ++ b = String x (a ++ b).
Proof. reflexivity. Qed.

Lemma append_assoc (a b c : string) : (a ++ b) ++ c = a ++ (b ++ c).
Proof.
  induction a as [|x a IH]; [reflexivity|]. by rewrite !append_cons, IH.
Qed.

Lemma append_empty (a b : string) : a ++ b = "" -> a = "".
Proof. destruct a; [reflexivity | discriminate]. Qed.

Lemma replace_char_app (c : ascii) (r a b : string) :
  replace_char c r (a ++ b) = replace_char c r a ++ replace_char c r b.
Proof.
  induction a as [|x a IH]; [reflexivity|]. rewrite append_cons.
  cbn [replace_char]. destruct (Ascii.eqb x c); rewrite IH.
  - by rewrite append_assoc.
  - by rewrite append_cons.
Qed.

(** The five replacements in their order do the same as one pass: no
    replacement touches what an earlier one has put in ([&] is replaced
    first, and no entity holds a character that is replaced later). *)
Lemma escapedContent_escape_each (s : string) :
  escapedContent s = escape_each s.
Proof.
  unfold escapedContent. induction s as [|a s IH]; [reflexivity|].
  cbn [replace_char escape_each]. unfold escape_char.
  destruct (Ascii.eqb_spec a "&") as [->|H1].
  { rewrite !replace_char_app, IH. reflexivity. }
  cbn [replace_char].
  destruct (Ascii.eqb_spec a "<") as [->|H2].
  { rewrite !replace_char_app, IH. reflexivity. }
  cbn [replace_char].
  destruct (Ascii.eqb_spec a ">") as [->|H3].
  { rewrite !replace_char_app, IH. reflexivity. }
  cbn [replace_char].
  destruct (Ascii.eqb_spec a (ascii_of_nat 34)) as [->|H4].
  { rewrite !replace_char_app, IH. reflexivity. }
  cbn [replace_char].
  destruct (Ascii.eqb_spec a "'") as [->|H5].
  { rewrite IH. reflexivity. }
  rewrite IH. reflexivity.
Qed.

Lemma all_chars_app (p : ascii -> bool) (a b : string) :
  all_chars p (a ++ b) = all_chars p a && all_chars p b.
Proof.
  induction a as [|x a IH]; [reflexivity|]. rewrite append_cons.
  cbn [all_chars]. by rewrite IH, andb_assoc.
Qed.

Lemma escape_char_clean (c : ascii) :
  all_chars (fun x => negb (is_markup x)) (escape_char c) = true.
Proof.
  unfold escape_char.
  destruct (Ascii.eqb_spec c "&"); [reflexivity|].
  destruct (Ascii.eqb_spec c "<"); [reflexivity|].
  destruct (Ascii.eqb_spec c ">"); [reflexivity|].
  destruct (Ascii.eqb_spec c (ascii_of_nat 34)); [reflexivity|].
  destruct (Ascii.eqb_spec c "'"); [reflexivity|].
  simpl. rewrite andb_true_r. unfold is_markup. simpl.
  rewrite !(proj2 (Ascii.eqb_neq _ _)) by assumption. reflexivity.
Qed.

Lemma escape_char_nonempty (c : ascii) : escape_char c <> "".
Proof.
  unfold escape_char.
  repeat match goal with
         | |- context [Ascii.eqb ?a ?b] => destruct (Ascii.eqb a b)
         end; discriminate.
Qed.

(** Distinct characters have entities none of which starts the other's. *)
Lemma escape_char_prefix_free (a b : ascii) (s t : string) :
  escape_char a ++ s = escape_char b ++ t -> a = b.
Proof.
  unfold escape_char.
  destruct (Ascii.eqb_spec a "&") as [->|A1];
    [|destruct (Ascii.eqb_spec a "<") as [->|A2];
      [|destruct (Ascii.eqb_spec a ">") as [->|A3];
        [|destruct (Ascii.eqb_spec a (ascii_of_nat 34)) as [->|A4];
          [|destruct (Ascii.eqb_spec a "'") as [->|A5]]]]];
  (destruct (Ascii.eqb_spec b "&") as [->|B1];
    [|destruct (Ascii.eqb_spec b "<") as [->|B2];
      [|destruct (Ascii.eqb_spec b ">") as [->|B3];
        [|destruct (Ascii.eqb_spec b (ascii_of_nat 34)) as [->|B4];
          [|destruct (Ascii.eqb_spec b "'") as [->|B5]]]]]);
  simpl; intros H; try reflexivity; try discriminate H;
    injection H as H; congruence.
Qed.

Lemma escape_each_inj (s1 : string) :
  forall s2, escape_each s1 = escape_each s2 -> s1 = s2.
Proof.
  induction s1 as [|a s1 IH]; intros [|b s2]; simpl; intros H.
  - reflexivity.
  - symmetry in H. apply append_empty in H. by destruct (escape_char_nonempty b).
  - apply append_empty in H. by destruct (escape_char_nonempty a).
  - pose proof (escape_char_prefix_free _ _ _ _ H) as ->.
    apply append_inv in H. by rewrite (IH _ H).
Qed.

(** X21. The text escaped for the HTML template holds none of [<], [>], the
    double quote and the apostrophe, whatever the content was: what is
    generated cannot open or close a tag or an attribute.  The escaping
    loses nothing: two contents with the same escaped text are the same. *)
Theorem escapedContent_safe (content : string) :
  all_chars (fun c => negb (is_markup c)) (escapedContent content) = true
  /\ escapedContent content = escape_each content
  /\ forall other, escapedContent other = escapedContent content ->
                   other = content.
Proof.
  split; [|split].
  - rewrite escapedContent_escape_each.
    induction content as [|c s IH]; [reflexivity|]. simpl.
    by rewrite all_chars_app, escape_char_clean, IH.
  - apply escapedContent_escape_each.
  - intros other. rewrite !escapedContent_escape_each. apply escape_each_inj.
Qed.

(** ** The catalog and the plan of a build *)

Lemma find_some_id (sid : string) (l : list Section_) (s : Section_) :
  List.find (fun s => String.eqb (id s) sid) l = Some s ->
  id s = sid /\ In s l.
Proof.
  intros H. apply find_some in H as [Hin He].
  apply String.eqb_eq in He. auto.
Qed.

Lemma find_by_own_id (l : list Section_) (s : Section_) :
  NoDup (map id l) -> In s l ->
  List.find (fun s' => String.eqb (id s') (id s)) l = Some s.
Proof.
  induction l as [|a l IH]; simpl; [intros _ []|].
  intros Hnd [->|Hin].
  - by rewrite String.eqb_refl.
  - apply NoDup_cons in Hnd as [Ha Hnd].
    destruct (String.eqb (id a) (id s)) eqn:E; [|auto].
    apply String.eqb_eq in E. destruct Ha. rewrite E.
    apply list_elem_of_In. by apply in_map.
Qed.

Lemma section_ids_unique : NoDup getSectionIds.
Proof. apply (bool_decide_unpack _). vm_compute. exact I. Qed.

(** X22. The catalog by id: [getSectionById] finds a section exactly for the ids
    that [getSectionIds] lists, the section it finds has the id asked for,
    and every section of the catalog is the one found by its own id (no id
    is used twice). *)
Theorem catalog_lookup (sid : string) :
  (is_Some (getSectionById sid) <-> In sid getSectionIds)
  /\ (forall s, getSectionById sid = Some s -> id s = sid /\ In s SECTIONS)
  /\ (forall s, In s SECTIONS -> id s = sid -> getSectionById sid = Some s).
Proof.
  assert (H2 : forall s, getSectionById sid = Some s -> id s = sid /\ In s SECTIONS)
    by (intros s; apply find_some_id).
  assert (H3 : forall s, In s SECTIONS -> id s = sid -> getSectionById sid = Some s).
  { intros s Hin <-. apply find_by_own_id; [exact section_ids_unique | exact Hin]. }
  split; [|split; assumption]. split.
  - intros [s Hs]. destruct (H2 s Hs) as [<- Hin]. unfold getSectionIds.
    by apply in_map.
  - unfold getSectionIds. intros Hin. apply in_map_iff in Hin as (s & Hid & Hin).
    exists s. by apply H3.
Qed.



(** ** What a build returns *)

Lemma bind_inv {A B} (m : M A) (k : A -> M B) (w : World) (b : B) (w' : World) :
  bind m k w = (Ok b, w') ->
  exists a w1, m w = (Ok a, w1) /\ k a w1 = (Ok b, w').
Proof.
  unfold bind. destruct (m w) as [[a|e] w1]; [eauto | discriminate].
Qed.

Lemma createSectionZip_path (o : SectionZipOptions) (w : World) (out : path)
    (w' : World) :
  createSectionZip o w = (Ok out, w') ->
  out = path_join (sz_outputDir o) (sz_sectionId o ++ ".zip").
Proof.
  unfold createSectionZip. intros H.
  apply bind_inv in H as (zip & w1 & _ & H).
  apply bind_inv in H as ([] & w2 & _ & H). by injection H as <- _.
Qed.

(** The record [processSection] returns. *)
Lemma processSection_result (client : Client) (section : Section_) (n : nat)
    (config : Config) (outputDir : path) (costTracker : loc) (w : World)
    (res : SectionResult) (w' : World) :
  processSection client section n config outputDir costTracker w = (Ok res, w') ->
  sectionId res = id section
  /\ sectionLabel res = label section
  /\ numChunks res = n
  /\ txtPath res
     = path_join (path_join outputDir (id section)) (id section ++ ".txt")
  /\ zipPath res = path_join outputDir (id section ++ ".zip")
  /\ (cfg_generatePDFs config = false -> pdfPath res = None).
Proof.
  unfold processSection. intros H.
  apply bind_inv in H as ([] & w1 & _ & H).
  apply bind_inv in H as (contents & w2 & _ & H).
  apply bind_inv in H as ([] & w3 & _ & H).
  apply bind_inv in H as (pdf & w4 & Hpdf & H).
  apply bind_inv in H as (zp & w5 & Hzip & H).
  apply createSectionZip_path in Hzip. simpl in Hzip.
  injection H as <- _. simpl. repeat split; auto.
  intros Hno. rewrite Hno in Hpdf. by injection Hpdf as <- _.
Qed.

Lemma process_all_results (client : Client) (config : Config)
    (outputDir : path) (costTracker : loc) (work : list (Section_ * nat)) :
  forall (results : list SectionResult) (w : World)
         (results' : list SectionResult) (w' : World),
    process_all client work config outputDir costTracker results w
    = (Ok results', w') ->
    exists rs,
      results' = (results ++ rs)%list
      /\ map sectionId rs = map (fun sw => id (fst sw)) work
      /\ map numChunks rs = map snd work
      /\ map zipPath rs
         = map (fun sw => path_join outputDir (id (fst sw) ++ ".zip")) work.
Proof.
  induction work as [|[section n] work IH]; intros results w results' w'.
  - intros [= <- <-]. exists []. by rewrite app_nil_r.
  - cbn [process_all]. intros H. apply bind_inv in H as (r & w1 & Hr & H).
    unfold try_catch in Hr.
    destruct (processSection client section n config outputDir costTracker w)
      as [[r0|e] w0] eqn:E; [|discriminate].
    injection Hr as <- <-.
    destruct (processSection_result _ _ _ _ _ _ _ _ _ E)
      as (Hid & _ & Hn & _ & Hz & _).
    destruct (IH _ _ _ _ H) as (rs & -> & Hids & Hns & Hzs).
    exists (r0 :: rs). rewrite <- app_assoc. simpl.
    by rewrite Hid, Hn, Hz, Hids, Hns, Hzs.
Qed.

Lemma on_heap_fs {A} (f : heap -> option (A * heap)) (w : World) (a : A)
    (w' : World) :
  on_heap f w = (Ok a, w') -> w_fs w' = w_fs w.
Proof.
  unfold on_heap. destruct (f (w_heap w)) as [[a' h']|]; [|discriminate].
  by intros [= _ <-].
Qed.

(** X24. What [build] returns, when it returns: one result per section of its
    plan, in the order of the plan, each with the number of chunks planned
    for it; the counts of the statistics are those of the plan; and the
    master archive, which is on disk at [<outputDir>/<rootFolder>_complete.zip],
    has one entry [<id>.zip] for every section of the plan and no other
    entry. *)
Theorem build_result (cwd : path) (env : Env) (client : Client)
    (config : UserConfig) (apiKey : option string) (w : World)
    (r : BuildResult) (w' : World) :
  build cwd env client config apiKey w = (Ok r, w') ->
  exists work zip,
    work = section_work
             (default getSectionIds
                (cfg_selectedSections (mergeConfig (with_env env config))))
             (default [] (cfg_chunkOverrides (mergeConfig (with_env env config))))
    /\ map sectionId (br_sections r) = map (fun sw => id (fst sw)) work
    /\ map numChunks (br_sections r) = map snd work
    /\ br_totalSections r = List.length work
    /\ br_totalChunks r = planned_chunks work
    /\ br_masterZipPath r
       = path_join (br_outputDir r)
           (cfg_rootFolder (mergeConfig (with_env env config)) ++ "_complete.zip")
    /\ lookup_node (br_masterZipPath r) (w_fs w') = Some (File (ZipData zip))
    /\ (forall sw, In sw work -> is_Some (zip_get [id (fst sw) ++ ".zip"] zip))
    /\ (forall name c, In (name, c) zip ->
                       exists sw, In sw work /\ name = [id (fst sw) ++ ".zip"]).
Proof.
  unfold build. fold getSectionIds.
  set (merged := mergeConfig (with_env env config)).
  set (work := section_work (default getSectionIds (cfg_selectedSections merged))
                            (default [] (cfg_chunkOverrides merged))).
  fold (planned_chunks work).
  set (outputDir := path_join _ (cfg_rootFolder merged)).
  intros H.
  apply bind_inv in H as ([] & w1 & _ & H).
  apply bind_inv in H as ([] & w2 & _ & H).
  apply bind_inv in H as (t & w3 & _ & H).
  apply bind_inv in H as (results & w4 & Hall & H).
  apply bind_inv in H as (mz & w5 & Hmaster & H).
  apply bind_inv in H as (summary & w6 & Hsum & H).
  injection H as <- <-. cbn [br_sections br_totalSections br_totalChunks
                              br_masterZipPath br_outputDir].
  destruct (process_all_results _ _ _ _ _ _ _ _ _ Hall)
    as (rs & Hrs & Hids & Hns & Hzs).
  simpl in Hrs. subst rs.
  destruct (createMasterZip_entries _ _ _ _ _ _ _ Hmaster)
    as (_ & zip & Hfile & Hhas & Honly).
  exists work, zip. split; [reflexivity|]. split; [exact Hids|].
  split; [exact Hns|].
  split; [by rewrite <- (length_map sectionId), Hids, length_map|].
  split; [reflexivity|]. split; [reflexivity|].
  split; [by rewrite (on_heap_fs _ _ _ _ Hsum)|].
  split.
  - intros sw Hsw.
    assert (Hin : In (path_join outputDir (id (fst sw) ++ ".zip"))
                     (map zipPath results))
      by (rewrite Hzs; by apply (in_map (fun sw => path_join outputDir
                                                     (id (fst sw) ++ ".zip")))).
    specialize (Hhas _ Hin). by rewrite basename_path_join in Hhas.
  - intros name c Hin.
    destruct (Honly _ _ Hin) as [(p & Hp & -> & _)|[(p & Hp & _)|(p & Hp & _)]];
      try discriminate.
    rewrite Hzs in Hp. apply in_map_iff in Hp as (sw & <- & Hsw).
    exists sw. split; [exact Hsw|]. by rewrite basename_path_join.
Qed.
Lemma build_result_witness :
  exists r w',
    build ["work"] sample_env counting_client (sample_config ["launch_emails"])
          (Some "sk-test") initial_world = (Ok r, w')
    /\ exists work zip,
        work = section_work
                 (default getSectionIds
                    (cfg_selectedSections
                       (mergeConfig (with_env sample_env
                                       (sample_config ["launch_emails"])))))
                 (default []
                    (cfg_chunkOverrides
                       (mergeConfig (with_env sample_env
                                       (sample_config ["launch_emails"])))))
        /\ map sectionId (br_sections r) = map (fun sw => id (fst sw)) work
        /\ map numChunks (br_sections r) = map snd work
        /\ br_totalSections r = List.length work
        /\ br_totalChunks r = planned_chunks work
        /\ br_masterZipPath r
           = path_join (br_outputDir r)
               (cfg_rootFolder
                  (mergeConfig (with_env sample_env
                                  (sample_config ["launch_emails"])))
                ++ "_complete.zip")
        /\ lookup_node (br_masterZipPath r) (w_fs w') = Some (File (ZipData zip))
        /\ (forall sw, In sw work ->
                       is_Some (zip_get [id (fst sw) ++ ".zip"] zip))
        /\ (forall name c, In (name, c) zip ->
                           exists sw, In sw work
                                      /\ name = [id (fst sw) ++ ".zip"]).
Proof.
  destruct (build ["work"] sample_env counting_client
              (sample_config ["launch_emails"]) (Some "sk-test") initial_world)
    as [[r|e] w'] eqn:Hrun.
  - exists r, w'. split; [reflexivity|].
    exact (build_result ["work"] sample_env counting_client
             (sample_config ["launch_emails"]) (Some "sk-test") initial_world
             r w' Hrun).
  - vm_compute in Hrun. discriminate.
Defined.

(** X25. [build] does not use the model and the output directory of the
    configuration it is given: the environment's settings, which are always
    defined ([NEON_MODEL] or the default model, [NEON_OUTPUT_DIR] or the
    default directory), are spread over the configuration before it is
    merged.  Two configurations that differ in these two keys only build
    alike. *)
Theorem build_ignores_configured_model (cwd : path) (env : Env)
    (client : Client) (config : UserConfig) (apiKey : option string)
    (m : option string) (d : option path) (w : World) :
  build cwd env client (with_model_and_outputDir m d config) apiKey w
  = build cwd env client config apiKey w
  /\ cfg_model (mergeConfig (with_env env config))
     = string_or "gpt-4" (NEON_MODEL env).
Proof. split; reflexivity. Qed.

(** ** Cost accounting in [processSection] *)

















